(** * dirtree.c: a directory tree built depth first and printed level by level

    A shallow embedding of [dirtree.c].  The C heap is split by struct type
    (one finite map per struct, in the style of Burstall and Bornat): the
    program never casts a pointer, so a [struct QNode *] can only ever alias
    another [struct QNode *].  Pointers are numbers, [NULL] is [0].  Every C
    function becomes a function in a small state-and-error monad whose
    outcomes are normal return, [exit], undefined behaviour, and running out
    of loop fuel.  What the program does not decide, whether [malloc] finds
    memory and what a new block holds, is read from an oracle, the
    [allocator]. *)

From stdpp Require Import gmap strings list fin_maps pretty sorting.
From Stdlib Require Import ZArith Lia Ascii.

Open Scope string_scope.
Open Scope Z_scope.
Open Scope list_scope.

(** ** Structs *)

Abbreviation NULL := 0%N.

Module LList.
Record t := mk { head : N; tail : N }.
End LList.

Module TreeNode.
Record t := mk { fileName : N; level : Z; nextSibling : N; children : N }.
End TreeNode.

Module Queue.
Record t := mk { lastIn : N; firstOut : N }.
End Queue.

Module QNode.
Record t := mk { dataSource : N; queuePrev : N }.
End QNode.

(** ** Machine state *)

Record state := State {
  tnodes : gmap N TreeNode.t;
  llists : gmap N LList.t;
  strs : gmap N string;
  queues : gmap N Queue.t;
  qnodes : gmap N QNode.t;
  stdout : string
}.

Definition empty_state : state := State ∅ ∅ ∅ ∅ ∅ "".

Inductive fault :=
| BadPointer      (* a NULL or dangling pointer is dereferenced *)
| BadFree         (* free of a block that is not allocated *)
| BufferOverrun   (* a write past the end of a char array *)
| BadStream       (* readdir on the NULL stream of a failed opendir *)
| ClosedStream.   (* a standard stream is used after its fclose *)

Inductive result (A : Type) :=
| Done (a : A) (s : state)
| Exit (code : Z) (s : state)
| Fault (f : fault) (s : state)
| OutOfFuel.
Arguments Done {A} a s.
Arguments Exit {A} code s.
Arguments Fault {A} f s.
Arguments OutOfFuel {A}.

Definition M (A : Type) : Type := state → result A.

#[global] Instance M_ret : MRet M := λ A a s, Done a s.
#[global] Instance M_bind : MBind M := λ A B f m s,
  match m s with
  | Done a s' => f a s'
  | Exit c s' => Exit c s'
  | Fault e s' => Fault e s'
  | OutOfFuel => OutOfFuel
  end.

Definition exit {A} (code : Z) : M A := λ s, Exit code s.
Definition undefined {A} (f : fault) : M A := λ s, Fault f s.
Definition out_of_fuel {A} : M A := λ _, OutOfFuel.

Definition printf (text : string) : M unit := λ s,
  Done () (State (tnodes s) (llists s) (strs s) (queues s) (qnodes s)
                 (stdout s +:+ text)).

(** ** Typed heap regions *)

Record region (A : Type) := Region {
  sel : state → gmap N A;
  upd : gmap N A → state → state
}.
Arguments sel {A} _ _.
Arguments upd {A} _ _ _.

Definition TN : region TreeNode.t :=
  Region _ tnodes (λ m s, State m (llists s) (strs s) (queues s) (qnodes s) (stdout s)).
Definition LL : region LList.t :=
  Region _ llists (λ m s, State (tnodes s) m (strs s) (queues s) (qnodes s) (stdout s)).
Definition STR : region string :=
  Region _ strs (λ m s, State (tnodes s) (llists s) m (queues s) (qnodes s) (stdout s)).
Definition Q : region Queue.t :=
  Region _ queues (λ m s, State (tnodes s) (llists s) (strs s) m (qnodes s) (stdout s)).
Definition QN : region QNode.t :=
  Region _ qnodes (λ m s, State (tnodes s) (llists s) (strs s) (queues s) m (stdout s)).

(** The address of a new block of a region: neither [NULL] nor live; the
    address of a freed block can come back. *)
Definition fresh_loc {A} (m : gmap N A) : N := fresh ({[NULL]} ∪ dom m).

Definition deref {A} (m : gmap N A) (p : N) : option A :=
  if decide (p = NULL) then None else m !! p.

Definition load {A} (R : region A) (p : N) : M A := λ s,
  match deref (sel R s) p with
  | Some v => Done v s
  | None => Fault BadPointer s
  end.

Definition store {A} (R : region A) (p : N) (v : A) : M unit := λ s,
  match deref (sel R s) p with
  | Some _ => Done () (upd R (<[p := v]> (sel R s)) s)
  | None => Fault BadPointer s
  end.

Definition free {A} (R : region A) (p : N) : M unit := λ s,
  if decide (p = NULL) then Done () s
  else match sel R s !! p with
       | Some _ => Done () (upd R (delete p (sel R s)) s)
       | None => Fault BadFree s
       end.

(** Field reads [p->f] and writes [p->f = v]. *)
Definition get {A B} (R : region A) (f : A → B) (p : N) : M B :=
  c ← load R p; mret (f c).

Definition set_head (p v : N) : M unit :=
  c ← load LL p; store LL p (LList.mk v (LList.tail c)).
Definition set_tail (p v : N) : M unit :=
  c ← load LL p; store LL p (LList.mk (LList.head c) v).

Definition set_fileName (p v : N) : M unit :=
  c ← load TN p;
  store TN p (TreeNode.mk v (TreeNode.level c) (TreeNode.nextSibling c) (TreeNode.children c)).
Definition set_level (p : N) (v : Z) : M unit :=
  c ← load TN p;
  store TN p (TreeNode.mk (TreeNode.fileName c) v (TreeNode.nextSibling c) (TreeNode.children c)).
Definition set_nextSibling (p v : N) : M unit :=
  c ← load TN p;
  store TN p (TreeNode.mk (TreeNode.fileName c) (TreeNode.level c) v (TreeNode.children c)).
Definition set_children (p v : N) : M unit :=
  c ← load TN p;
  store TN p (TreeNode.mk (TreeNode.fileName c) (TreeNode.level c) (TreeNode.nextSibling c) v).

Definition set_lastIn (p v : N) : M unit :=
  c ← load Q p; store Q p (Queue.mk v (Queue.firstOut c)).
Definition set_firstOut (p v : N) : M unit :=
  c ← load Q p; store Q p (Queue.mk (Queue.lastIn c) v).

Definition set_dataSource (p v : N) : M unit :=
  c ← load QN p; store QN p (QNode.mk v (QNode.queuePrev c)).
Definition set_queuePrev (p v : N) : M unit :=
  c ← load QN p; store QN p (QNode.mk (QNode.dataSource c) v).

(** ** The standard streams *)

(** The three standard streams, and which of them are open. *)
Inductive stream := Stdin | Stdout | Stderr.

#[global] Instance stream_eq_dec : EqDecision stream.
Proof. solve_decision. Defined.

Definition all_open : stream → bool := λ _, true.

Definition fclose (f : stream) (open : stream → bool) : stream → bool :=
  λ g, if decide (g = f) then false else open g.

Definition EOF : Z := -1.

(** [getchar] reads [stdin]: after its [fclose] that is undefined
    behaviour.  No input is modelled: an open [stdin] is at its end. *)
Definition getchar (open : stream → bool) : M Z :=
  if open Stdin then mret EOF else undefined ClosedStream.

(** ** The allocator

    Whether [malloc] finds memory, and what the block it returns holds, is
    not fixed by the program.  Both are read off the state by an oracle:
    [out_of_memory s] says that a [malloc] in the state [s] returns [NULL],
    and the [junk] functions give the indeterminate contents of a new block
    of each type. *)
Class allocator := Allocator {
  out_of_memory : state → bool;
  junk_TreeNode : state → TreeNode.t;
  junk_LList : state → LList.t;
  junk_string : state → string;
  junk_Queue : state → Queue.t;
  junk_QNode : state → QNode.t
}.

Section Program.

Context {alloc : allocator}.

Definition malloc {A} (R : region A) (junk : state → A) : M N := λ s,
  if out_of_memory s then Done NULL s
  else
    let p := fresh_loc (sel R s) in
    Done p (upd R (<[p := junk s]> (sel R s)) s).

(** ** The queue: [createQNode], [createQueue], [enQueue], [deQueue] *)

Definition createQNode (node : N) : M N :=
  newQNode ← malloc QN junk_QNode;
  if decide (newQNode = NULL) then
    printf "Sorry, but memory was found to be unallocatable for the queue node to be created.";;
    exit (-1)
  else
    set_dataSource newQNode node;;
    set_queuePrev newQNode NULL;;
    mret newQNode.

Definition createQueue : M N :=
  newQueue ← malloc Q junk_Queue;
  if decide (newQueue = NULL) then
    printf "Sorry, but memory was found to be unallocatable for the queue to be created.";;
    exit (-1)
  else
    set_lastIn newQueue NULL;;
    set_firstOut newQueue NULL;;
    mret newQueue.

Definition enQueue (queue tNode : N) : M unit :=
  qNode ← createQNode tNode;
  lastIn ← get Q Queue.lastIn queue;
  if decide (lastIn = NULL) then
    set_firstOut queue qNode;;
    set_lastIn queue qNode
  else
    set_queuePrev lastIn qNode;;
    set_lastIn queue qNode.

(** The [malloc] of the empty case is not checked by the source. *)
Definition deQueue (queue : N) : M N :=
  firstOut ← get Q Queue.firstOut queue;
  if decide (firstOut = NULL) then
    endDoWhile ← malloc QN junk_QNode;
    set_dataSource endDoWhile NULL;;
    set_queuePrev endDoWhile NULL;;
    mret endDoWhile
  else
    lastIn ← get Q Queue.lastIn queue;
    if decide (lastIn = firstOut) then
      set_firstOut queue NULL;;
      set_lastIn queue NULL;;
      mret firstOut
    else
      next ← get QN QNode.queuePrev firstOut;
      set_firstOut queue next;;
      mret firstOut.

(** ** The tree: [createLList], [createTreeNode], [appendChild], [chopTree] *)

Definition createLList : M N :=
  children ← malloc LL junk_LList;
  if decide (children = NULL) then
    printf "Sorry, but memory was found to be unallocatable for the llist.";;
    exit (-1)
  else
    set_head children NULL;;
    set_tail children NULL;;
    mret children.

(** [strdup]: a new block holding a copy of the characters, [NULL] when
    there is no memory for it. *)
Definition strdup (text : string) : M N :=
  p ← malloc STR junk_string;
  if decide (p = NULL) then mret NULL
  else
    store STR p text;;
    mret p.

Definition createTreeNode (name : string) (lvl : Z) : M N :=
  newNode ← malloc TN junk_TreeNode;
  if decide (newNode = NULL) then
    printf "Sorry, but memory was found to be unallocatable for the node.";;
    exit (-1)
  else
    copy ← strdup name;
    set_fileName newNode copy;;
    set_level newNode lvl;;
    set_nextSibling newNode NULL;;
    list ← createLList;
    set_children newNode list;;
    mret newNode.

Definition appendChild (parent child : N) : M unit :=
  children ← get TN TreeNode.children parent;
  head ← get LL LList.head children;
  tail ← get LL LList.tail children;
  if decide (head = NULL ∧ tail = NULL) then
    set_head children child;;
    set_tail children child
  else
    set_nextSibling tail child;;
    set_tail children child.

Fixpoint chopTree (fuel : nat) (root : N) : M unit :=
  match fuel with
  | O => out_of_fuel
  | S fuel =>
    if decide (root = NULL) then mret ()
    else
      children ← get TN TreeNode.children root;
      (if decide (children = NULL) then mret ()
       else
         head ← get LL LList.head children;
         if decide (head = NULL) then mret () else chopTree fuel head);;
      nextSibling ← get TN TreeNode.nextSibling root;
      (if decide (nextSibling = NULL) then mret ()
       else chopTree fuel nextSibling);;
      children ← get TN TreeNode.children root;
      free LL children;;
      set_children root NULL;;
      set_nextSibling root NULL;;
      fileName ← get TN TreeNode.fileName root;
      free STR fileName;;
      set_fileName root NULL;;
      free TN root
  end.

(** ** Level linearization: [createPrintQueue] *)

(** The inner [while]: [branchClimber] walks one sibling chain. *)
Fixpoint climb_branch (fuel : nat) (toDoQueue branchClimber : N) : M unit :=
  match fuel with
  | O => out_of_fuel
  | S fuel =>
    if decide (branchClimber = NULL) then mret ()
    else
      enQueue toDoQueue branchClimber;;
      next ← get TN TreeNode.nextSibling branchClimber;
      climb_branch fuel toDoQueue next
  end.

(** The outer [while]: [treeClimber] stands at each node in turn. *)
Fixpoint climb_tree (fuel : nat) (newPrintQueue toDoQueue treeClimber : N) : M unit :=
  match fuel with
  | O => out_of_fuel
  | S fuel =>
    if decide (treeClimber = NULL) then mret ()
    else
      enQueue newPrintQueue treeClimber;;
      children ← get TN TreeNode.children treeClimber;
      branchClimber ← get LL LList.head children;
      climb_branch fuel toDoQueue branchClimber;;
      QNHandler ← deQueue toDoQueue;
      next ← get QN QNode.dataSource QNHandler;
      free QN QNHandler;;
      climb_tree fuel newPrintQueue toDoQueue next
  end.

Definition createPrintQueue (fuel : nat) (root : N) : M N :=
  newPrintQueue ← createQueue;
  toDoQueue ← createQueue;
  climb_tree fuel newPrintQueue toDoQueue root;;
  firstOut ← get Q Queue.firstOut toDoQueue;
  free QN firstOut;;
  set_firstOut toDoQueue NULL;;
  lastIn ← get Q Queue.lastIn toDoQueue;
  free QN lastIn;;
  set_lastIn toDoQueue NULL;;
  free Q toDoQueue;;
  mret newPrintQueue.

(** ** Printing: [printPrintQueue] *)

(** A C [int]: 32 bits, two's complement. *)
Definition int_wrap (z : Z) : Z := (z + 2 ^ 31) mod 2 ^ 32 - 2 ^ 31.

(** One [printf("%d:%d:%s\n", ...)]. *)
Definition format_line (lvl order : Z) (path : string) : string :=
  pretty lvl +:+ ":" +:+ pretty order +:+ ":" +:+ path +:+ "
".

(** The [do ... while (printQueue->lastIn != NULL)] loop, with the two local
    counters as arguments. *)
Fixpoint print_loop (fuel : nat) (printQueue : N) (order prevLevel : Z) : M unit :=
  match fuel with
  | O => out_of_fuel
  | S fuel =>
    printer ← deQueue printQueue;
    node ← get QN QNode.dataSource printer;
    lvl ← get TN TreeNode.level node;
    let order := if decide (lvl = prevLevel) then order else 0 in
    let order := int_wrap (order + 1) in
    name ← get TN TreeNode.fileName node;
    text ← load STR name;
    printf (format_line lvl order text);;
    set_queuePrev printer NULL;;
    free QN printer;;
    lastIn ← get Q Queue.lastIn printQueue;
    if decide (lastIn = NULL) then mret ()
    else print_loop fuel printQueue order lvl
  end.

Definition printPrintQueue (fuel : nat) (printQueue : N) : M unit :=
  print_loop fuel printQueue 0 0;;
  free Q printQueue.

(** ** The C library pieces the builder uses *)

Definition char_code (c : Ascii.ascii) : Z := Z.of_N (Ascii.N_of_ascii c).

(** [strncmp]: at most [n] characters, the end of a string reading as NUL. *)
Fixpoint strncmp (s1 s2 : string) (n : nat) {struct n} : Z :=
  match n with
  | O => 0
  | S n =>
    match s1, s2 with
    | EmptyString, EmptyString => 0
    | EmptyString, String c2 _ => 0 - char_code c2
    | String c1 _, EmptyString => char_code c1
    | String c1 r1, String c2 r2 =>
      if decide (c1 = c2) then strncmp r1 r2 n else char_code c1 - char_code c2
    end
  end.

Definition strcmp (s1 s2 : string) : Z :=
  strncmp s1 s2 (S (String.length s1 `max` String.length s2)).

(** [strcpy] and [strcat] into a [char buf[size]]: the characters and the
    closing NUL must fit; past the end the behaviour is undefined. *)
Definition strcpy (size : nat) (src : string) : M string :=
  if decide (String.length src < size)%nat then mret src
  else undefined BufferOverrun.

Definition strcat (size : nat) (dst src : string) : M string :=
  if decide (String.length dst + String.length src < size)%nat then mret (dst +:+ src)
  else undefined BufferOverrun.

(** [S_ISDIR] of <sys/stat.h>, with the Linux values of [S_IFMT] and
    [S_IFDIR]. *)
Definition S_IFMT : Z := 61440.
Definition S_IFDIR : Z := 16384.
Definition S_IFREG : Z := 32768.
Definition S_ISDIR (st_mode : Z) : bool := Z.eqb (Z.land st_mode S_IFMT) S_IFDIR.

(** The two collaborators.  [opendir path] is the sequence of names that
    successive [readdir] calls on the stream return, [None] when the stream
    cannot be opened; [stat path] is the [st_mode] written into the status
    buffer, [None] when the call fails and writes nothing. *)
Record filesystem := Filesystem {
  opendir : string → option (list string);
  stat : string → option Z
}.

(** ** The builder: [treePopulator], and [main] *)

Section Builder.

Variable fs : filesystem.

(** [struct stat status] is an uninitialised local: when [stat] fails, the
    [st_mode] the program goes on to read is indeterminate.  [stale] stands
    for that value. *)
Variable stale : string → Z.

Definition skip_entry (d_name : string) : bool :=
  bool_decide (strcmp d_name "." = 0)
  || bool_decide (strcmp d_name ".." = 0)
  || bool_decide (strncmp d_name "." 1 = 0).

(** The [while ((entry = readdir(directory)) != 0)] loop over the entries
    still to come from the stream; [recurse] is the recursive call of
    [treePopulator].  The [closedir] after the loop changes nothing that the
    state records. *)
Definition readdir_loop (recurse : N → M unit) (parentNode : N) :
    list string → M unit :=
  fix loop (entries : list string) : M unit :=
    match entries with
    | [] => mret ()
    | d_name :: entries =>
      if skip_entry d_name then loop entries
      else
        name ← get TN TreeNode.fileName parentNode;
        path ← load STR name;
        childPath ← strcpy 256 path;
        childPath ← strcat 256 childPath "/";
        childPath ← strcat 256 childPath d_name;
        let st_mode := default (stale childPath) (stat fs childPath) in
        lvl ← get TN TreeNode.level parentNode;
        childNode ← createTreeNode childPath (int_wrap (lvl + 1));
        appendChild parentNode childNode;;
        (if S_ISDIR st_mode then
           children ← get TN TreeNode.children parentNode;
           tail ← get LL LList.tail children;
           recurse tail
         else mret ());;
        loop entries
    end.

Fixpoint treePopulator (fuel : nat) (parentNode : N) : M unit :=
  match fuel with
  | O => out_of_fuel
  | S fuel =>
    name ← get TN TreeNode.fileName parentNode;
    path ← load STR name;
    let directory := opendir fs path in
    (if directory is None then printf "Something's gone awry!" else mret ());;
    match directory with
    | None => undefined BadStream
    | Some entries => readdir_loop (treePopulator fuel) parentNode entries
    end
  end.

Definition default_path : string := "/home/hal9k/home/naltipar/Downloads/final-src".

(** [main]; [argv] is the argument vector with the program name first.
    The table of open standard streams is a local of the model: the last
    four statements are the only ones that close a stream or use one
    after a close. *)
Definition main (fuel : nat) (argv : list string) : M Z :=
  startPath ←
    (if decide (1 < length argv)%nat then strcpy 256 (default "" (last argv))
     else strcpy 256 default_path);
  root ← createTreeNode startPath 1;
  treePopulator fuel root;;
  rootQueue ← createPrintQueue fuel root;
  printPrintQueue fuel rootQueue;;
  chopTree fuel root;;
  let open := fclose Stdin all_open in
  let open := fclose Stdout open in
  let open := fclose Stderr open in
  getchar open;;
  mret 0.

End Builder.

End Program.

(** * Specification vocabulary *)

(** ** Weakest preconditions for normal return *)

Definition wp {A} (m : M A) (s : state) (Φ : A → state → Prop) : Prop :=
  match m s with
  | Done a s' => Φ a s'
  | _ => False
  end.

(** ** A queue as the list of its cells

    A cell is the pair of its address and of the tree node it wraps; the list
    runs from [firstOut] to [lastIn]. *)

Definition next_addr (l : list (N * N)) (e : N) : N :=
  match l with [] => e | c :: _ => c.1 end.

Definition hd_addr (l : list (N * N)) : N := next_addr l NULL.

Definition last_addr (l : list (N * N)) : N :=
  match last l with None => NULL | Some c => c.1 end.

(** The cells of [l] are live and chained through [queuePrev], the last one
    pointing to [e]. *)
Fixpoint qcells (qn : gmap N QNode.t) (l : list (N * N)) (e : N) : Prop :=
  match l with
  | [] => True
  | c :: l' =>
    c.1 ≠ NULL ∧ qn !! c.1 = Some (QNode.mk c.2 (next_addr l' e)) ∧ qcells qn l' e
  end.

Definition queue_rep (s : state) (q : N) (l : list (N * N)) : Prop :=
  q ≠ NULL ∧
  queues s !! q = Some (Queue.mk (last_addr l) (hd_addr l)) ∧
  NoDup l.*1 ∧
  qcells (qnodes s) l NULL.

(** The states [enQueue] and [deQueue] lead to. *)
Definition relink (l : list (N * N)) (a : N) (qn : gmap N QNode.t) : gmap N QNode.t :=
  match last l with
  | None => qn
  | Some c => <[c.1 := QNode.mk c.2 a]> qn
  end.

Definition enq_cell (s : state) (x : N) : N * N := (fresh_loc (qnodes s), x).

Definition enq_state (s : state) (q x : N) (l : list (N * N)) : state :=
  let a := fresh_loc (qnodes s) in
  State (tnodes s) (llists s) (strs s)
        (<[q := Queue.mk a (hd_addr (l ++ [(a, x)]))]> (queues s))
        (relink l a (<[a := QNode.mk x NULL]> (qnodes s)))
        (stdout s).

Definition deq_state (s : state) (q : N) (l : list (N * N)) : state :=
  upd Q (<[q := Queue.mk (last_addr l) (hd_addr l)]> (queues s)) s.

(** Programs over one queue, for the first-in-first-out statement. *)
Fixpoint enQueue_all {alloc : allocator} (queue : N) (xs : list N) : M unit :=
  match xs with
  | [] => mret ()
  | x :: xs => enQueue queue x;; enQueue_all queue xs
  end.

Fixpoint deQueue_n {alloc : allocator} (queue : N) (n : nat) : M (list N) :=
  match n with
  | O => mret []
  | S n =>
    cell ← deQueue queue;
    x ← get QN QNode.dataSource cell;
    xs ← deQueue_n queue n;
    mret (x :: xs)
  end.

(** A queue holding one cell, for the examples. *)
Definition fifo_state : state :=
  State ∅ ∅ ∅ {[1%N := Queue.mk 1%N 1%N]} {[1%N := QNode.mk 7%N NULL]} "".

Definition idle_state : state :=
  State ∅ ∅ ∅ {[1%N := Queue.mk NULL NULL]} ∅ "".

(** ** The tree, abstractly

    A node carries the addresses of its three blocks (the [TreeNode], the
    path string, the [LList]) next to what they hold. *)

Inductive tree :=
| Node (a : N) (fn : N) (path : string) (lvl : Z) (cl : N) (kids : list tree).

Definition addr (t : tree) : N := let 'Node a _ _ _ _ _ := t in a.
Definition path_addr (t : tree) : N := let 'Node _ fn _ _ _ _ := t in fn.
Definition path_of (t : tree) : string := let 'Node _ _ p _ _ _ := t in p.
Definition level_of (t : tree) : Z := let 'Node _ _ _ l _ _ := t in l.
Definition list_addr (t : tree) : N := let 'Node _ _ _ _ cl _ := t in cl.
Definition kids (t : tree) : list tree := let 'Node _ _ _ _ _ ks := t in ks.

Fixpoint size (t : tree) : nat :=
  let 'Node _ _ _ _ _ ks := t in
  S ((fix go (ts : list tree) : nat :=
        match ts with [] => O | t :: ts => (size t + go ts)%nat end) ks).

Definition forest_size : list tree → nat :=
  fix go (ts : list tree) : nat :=
    match ts with [] => O | t :: ts => (size t + go ts)%nat end.

(** All the nodes, parent first. *)
Fixpoint nodes (t : tree) : list tree :=
  t :: (fix go (ts : list tree) : list tree :=
          match ts with [] => [] | t :: ts => nodes t ++ go ts end) (kids t).

Definition forest_nodes : list tree → list tree :=
  fix go (ts : list tree) : list tree :=
    match ts with [] => [] | t :: ts => nodes t ++ go ts end.

(** The nodes [d] levels below the roots of [ts], left to right: the next
    level is the children lists of this one, one after the other. *)
Fixpoint at_depth (d : nat) (ts : list tree) : list tree :=
  match d with
  | O => ts
  | S d => at_depth d (ts ≫= kids)
  end.

(** Level order: depth 0, then depth 1, and so on.  No node of [t] is
    [size t] levels down. *)
Definition level_order (t : tree) : list tree :=
  concat ((λ d, at_depth d [t]) <$> seq 0 (size t)).

(** The order of a traversal with a queue. *)
Fixpoint bfs_fuel (n : nat) (q : list tree) : list tree :=
  match n with
  | O => []
  | S n =>
    match q with
    | [] => []
    | t :: q => t :: bfs_fuel n (q ++ kids t)
    end
  end.

Definition bfs (q : list tree) : list tree := bfs_fuel (forest_size q) q.

(** ** The tree in the heap *)

Definition first_addr (ts : list tree) : N :=
  match ts with [] => NULL | t :: _ => addr t end.

Definition last_tree_addr (ts : list tree) : N :=
  match last ts with None => NULL | Some t => addr t end.

Definition next_sibling (ts : list tree) (e : N) : N :=
  match ts with [] => e | t :: _ => addr t end.

(** [tree_in s t next]: the three blocks of every node of [t] are live in
    [s] and hold what [t] says; [next] is the root's [nextSibling]. *)
Fixpoint tree_in (s : state) (t : tree) (next : N) : Prop :=
  let 'Node a fn p l cl ks := t in
  a ≠ NULL ∧ fn ≠ NULL ∧ cl ≠ NULL ∧
  tnodes s !! a = Some (TreeNode.mk fn l next cl) ∧
  strs s !! fn = Some p ∧
  llists s !! cl = Some (LList.mk (first_addr ks) (last_tree_addr ks)) ∧
  (fix go (ts : list tree) (e : N) : Prop :=
     match ts with
     | [] => True
     | t :: ts => tree_in s t (next_sibling ts e) ∧ go ts e
     end) ks NULL.

(** A sibling chain whose last [nextSibling] is [e]. *)
Definition forest_in (s : state) : list tree → N → Prop :=
  fix go (ts : list tree) (e : N) : Prop :=
    match ts with
    | [] => True
    | t :: ts => tree_in s t (next_sibling ts e) ∧ go ts e
    end.

(** ** Invariants of the linearizer

    [s0] is the state [createPrintQueue] starts from; [P] and [T] are the
    cells of the print queue [p] and of the to-do queue [t]. *)

Definition same_tree (s0 s : state) : Prop :=
  tnodes s = tnodes s0 ∧ llists s = llists s0 ∧ strs s = strs s0.

Record lin_inv (s0 s : state) (p : N) (P : list (N * N)) (t : N) (T : list (N * N)) : Prop :=
  LinInv {
    lin_p : queue_rep s p P;
    lin_t : queue_rep s t T;
    lin_ne : p ≠ t;
    lin_disj : ∀ b, b ∈ P.*1 → b ∉ T.*1;
    lin_fresh : ∀ b, b ∈ P.*1 ∨ b ∈ T.*1 → qnodes s0 !! b = None;
    lin_frame : ∀ b, b ∉ P.*1 → b ∉ T.*1 → qnodes s !! b = qnodes s0 !! b;
    lin_qfresh : queues s0 !! p = None ∧ queues s0 !! t = None;
    lin_qframe : ∀ q, q ≠ p → q ≠ t → queues s !! q = queues s0 !! q;
    lin_tree : same_tree s0 s;
    lin_out : stdout s = stdout s0
  }.

(** What is left when the to-do queue has been released: the print queue is
    the only thing [s] has that [s0] had not. *)
Record print_inv (s0 s : state) (p : N) (P : list (N * N)) : Prop :=
  PrintInv {
    pr_p : queue_rep s p P;
    pr_fresh : ∀ b, b ∈ P.*1 → qnodes s0 !! b = None;
    pr_frame : ∀ b, b ∉ P.*1 → qnodes s !! b = qnodes s0 !! b;
    pr_qfresh : queues s0 !! p = None;
    pr_qframe : ∀ q, q ≠ p → queues s !! q = queues s0 !! q;
    pr_tree : same_tree s0 s
  }.

Definition hd_data (l : list (N * N)) : N :=
  match l with [] => NULL | c :: _ => c.2 end.

(** ** What the printer prints *)

(** The tree node at [a] has level [e.1] and path [e.2]. *)
Definition node_at (s : state) (a : N) (e : Z * string) : Prop :=
  a ≠ NULL ∧
  ∃ fn ns cl, tnodes s !! a = Some (TreeNode.mk fn e.1 ns cl) ∧
              fn ≠ NULL ∧ strs s !! fn = Some e.2.

(** The two counters of [printPrintQueue], run over the levels and paths of
    the queued nodes: the lines of the loop, one per [printf]. *)
Fixpoint print_lines (order prevLevel : Z) (entries : list (Z * string)) : list string :=
  match entries with
  | [] => []
  | e :: entries =>
    let order := int_wrap ((if decide (e.1 = prevLevel) then order else 0) + 1) in
    format_line e.1 order e.2 :: print_lines order e.1 entries
  end.

Definition text_of (lines : list string) : string := foldr String.append "" lines.

(** The position as the specification words it: 1 at the first entry and at
    every change of depth, one more than the entry before otherwise. *)
Fixpoint run_position (lvls : list Z) (i : nat) : Z :=
  match i with
  | O => 1
  | S j =>
    if decide (lvls !! j = lvls !! i) then run_position lvls j + 1 else 1
  end.

(** The number of entries before the [i]th that have its depth. *)
Definition earlier_same (lvls : list Z) (i : nat) : nat :=
  length (filter (λ l, Some l = lvls !! i) (take i lvls)).

(** The state without the queue [q] and its cells. *)
Definition without_queue (s : state) (q : N) (P : list (N * N)) : state :=
  State (tnodes s) (llists s) (strs s) (delete q (queues s))
        (foldr delete (qnodes s) P.*1) (stdout s).

(** ** Ownership: no block belongs to two nodes *)

Record separate (ts : list tree) : Prop := Separate {
  sep_tn : NoDup (addr <$> forest_nodes ts);
  sep_str : NoDup (path_addr <$> forest_nodes ts);
  sep_ll : NoDup (list_addr <$> forest_nodes ts)
}.

(** The state once every block of the trees [ts] has been released. *)
Definition chop_state (s : state) (ts : list tree) : state :=
  State (foldr delete (tnodes s) (addr <$> forest_nodes ts))
        (foldr delete (llists s) (list_addr <$> forest_nodes ts))
        (foldr delete (strs s) (path_addr <$> forest_nodes ts))
        (queues s) (qnodes s) (stdout s).

(** The heap holds the trees [ts] and nothing else. *)
Record only_trees (s : state) (ts : list tree) : Prop := OnlyTrees {
  only_tn : ∀ a, a ∉ addr <$> forest_nodes ts → tnodes s !! a = None;
  only_ll : ∀ a, a ∉ list_addr <$> forest_nodes ts → llists s !! a = None;
  only_str : ∀ a, a ∉ path_addr <$> forest_nodes ts → strs s !! a = None;
  only_q : queues s = ∅;
  only_qn : qnodes s = ∅
}.

(** The level and path of a node, as the printer reads them. *)
Definition entry_of (t : tree) : Z * string := (level_of t, path_of t).

(** [createPrintQueue], [printPrintQueue], [chopTree]: the second half of
    [main]. *)
Definition print_and_release {alloc : allocator} (fuel : nat) (root : N) : M unit :=
  rootQueue ← createPrintQueue fuel root;
  printPrintQueue fuel rootQueue;;
  chopTree fuel root.

(** ** What the builder builds *)

(** Normal return with [Φ], or undefined behaviour and then [bad] holds;
    neither [exit] nor a loop that outruns its fuel. *)
Definition wpf {A} (bad : Prop) (m : M A) (s : state) (Φ : A → state → Prop) : Prop :=
  match m s with
  | Done a s' => Φ a s'
  | Fault _ _ => bad
  | _ => False
  end.

(** A name that begins with a dot. *)
Definition hidden (d_name : string) : Prop := ∃ rest, d_name = String "."%char rest.

#[global] Instance hidden_dec d_name : Decision (hidden d_name).
Proof.
  destruct d_name as [|c rest].
  - right. by intros [? ?].
  - destruct (decide (c = "."%char)) as [->|Hc].
    + left. by exists rest.
    + right. intros [? ?]. congruence.
Defined.

(** The path of an entry: [strcpy], [strcat "/"], [strcat d_name]. *)
Definition child_path (path d_name : string) : string := (path +:+ "/") +:+ d_name.

(** Room for the levels below [l] before the [int] overflows: a path has at
    most 255 characters and every level adds at least one. *)
Definition level_room (l : Z) (path : string) : Prop :=
  - 2 ^ 31 ≤ l ∧ l + 256 - Z.of_nat (String.length path) ≤ 2 ^ 31.

(** [m] is [m0] and one fresh block per node of [ts], at the address [f]
    gives. *)
Record grows {A} (m0 m : gmap N A) (f : tree → N) (ts : list tree) : Prop := Grows {
  grows_nodup : NoDup (f <$> forest_nodes ts);
  grows_fresh : ∀ a, a ∈ f <$> forest_nodes ts → m0 !! a = None;
  grows_frame : ∀ a, a ∉ f <$> forest_nodes ts → m !! a = m0 !! a
}.

(** [s] is [s0] with the trees [ks] hung under the list block [cl]. *)
Record grown (s0 s : state) (cl : N) (ks : list tree) : Prop := Grown {
  grown_forest : forest_in s ks NULL;
  grown_tn : grows (tnodes s0) (tnodes s) addr ks;
  grown_str : grows (strs s0) (strs s) path_addr ks;
  grown_ll : grows (<[cl := LList.mk (first_addr ks) (last_tree_addr ks)]> (llists s0))
                   (llists s) list_addr ks;
  grown_q : queues s = queues s0;
  grown_qn : qnodes s = qnodes s0;
  grown_out : stdout s = stdout s0
}.

Section BuilderSpec.

Context {alloc : allocator}.
Variable fs : filesystem.
Variable stale : string → Z.

(** The [st_mode] the builder reads for a path. *)
Definition st_mode_of (path : string) : Z := default (stale path) (stat fs path).

(** The walk over the directory [path] stays within defined behaviour: the
    directory opens, the path of every entry that is not hidden fits the 256
    bytes of [childPath], and every such entry read as a directory can be
    walked in turn.  [fuel] bounds the depth of the walk. *)
Definition entry_walkable (walk : string → bool) (path d_name : string) : bool :=
  bool_decide (hidden d_name)
  || (bool_decide (String.length (child_path path d_name) < 256)%nat
      && (if S_ISDIR (st_mode_of (child_path path d_name))
          then walk (child_path path d_name) else true)).

Fixpoint walkable (fuel : nat) (path : string) : bool :=
  match fuel with
  | O => false
  | S fuel =>
    match opendir fs path with
    | None => false
    | Some entries => forallb (entry_walkable (walkable fuel) path) entries
    end
  end.

(** [built t]: the children of [t] are the entries of its directory that are
    not hidden, in listing order, one level down; a child read as a
    directory is built in turn, any other child is a leaf. *)
Fixpoint built (t : tree) : Prop :=
  let 'Node _ _ p l _ ks := t in
  ∃ entries,
    opendir fs p = Some entries ∧
    path_of <$> ks = child_path p <$> filter (λ n, ¬ hidden n) entries ∧
    (fix go (ks : list tree) : Prop :=
       match ks with
       | [] => True
       | k :: ks =>
         (level_of k = l + 1 ∧
          if S_ISDIR (st_mode_of (path_of k)) then built k else kids k = []) ∧
         go ks
       end) ks.

Definition kid_ok (l : Z) (k : tree) : Prop :=
  level_of k = l + 1 ∧
  if S_ISDIR (st_mode_of (path_of k)) then built k else kids k = [].

(** The contract of [treePopulator], with fuel [fuel]: called on a node
    whose list of children is empty, it returns with the node's subtree
    built when the directory of the node is walkable, and runs into
    undefined behaviour when it is not. *)
Definition populator_spec (fuel : nat) : Prop :=
  ∀ par s0 fn l ns cl p,
    par ≠ NULL → fn ≠ NULL → cl ≠ NULL →
    tnodes s0 !! par = Some (TreeNode.mk fn l ns cl) →
    strs s0 !! fn = Some p →
    llists s0 !! cl = Some (LList.mk NULL NULL) →
    level_room l p →
    (256 - String.length p < fuel)%nat →
    wpf (walkable fuel p = false) (treePopulator fs stale fuel par) s0
        (λ _ s', walkable fuel p = true ∧
                 ∃ ks, grown s0 s' cl ks ∧ built (Node par fn p l cl ks)).

End BuilderSpec.

(** The state [createTreeNode] leads to. *)
Definition new_node_state (s : state) (name : string) (lvl : Z) : state :=
  State (<[fresh_loc (tnodes s) :=
             TreeNode.mk (fresh_loc (strs s)) lvl NULL (fresh_loc (llists s))]> (tnodes s))
        (<[fresh_loc (llists s) := LList.mk NULL NULL]> (llists s))
        (<[fresh_loc (strs s) := name]> (strs s))
        (queues s) (qnodes s) (stdout s).

Definition new_leaf (s : state) (name : string) (lvl : Z) : tree :=
  Node (fresh_loc (tnodes s)) (fresh_loc (strs s)) name lvl (fresh_loc (llists s)) [].

(** The tree nodes after [appendChild]: the old last child, if any, points
    to the new one. *)
Definition link_last (ks : list tree) (child : N) (tn : gmap N TreeNode.t) :
    gmap N TreeNode.t :=
  match last ks with
  | None => tn
  | Some k =>
    <[addr k := TreeNode.mk (path_addr k) (level_of k) child (list_addr k)]> tn
  end.

Definition append_state (s : state) (cl : N) (ks : list tree) (child : N) : state :=
  State (link_last ks child (tnodes s))
        (<[cl := LList.mk (match ks with [] => child | k :: _ => addr k end) child]> (llists s))
        (strs s) (queues s) (qnodes s) (stdout s).

(** ** The two halves of [main] *)

(** The first two statements after the copy of the start path: the root
    node, at level 1, and its subtree. *)
Definition build {alloc : allocator} (fs : filesystem) (stale : string → Z)
    (fuel : nat) (startPath : string) : M N :=
  root ← createTreeNode startPath 1;
  treePopulator fs stale fuel root;;
  mret root.

(** Every child is one level below its parent. *)
Fixpoint levels_ok (t : tree) : Prop :=
  let 'Node _ _ _ l _ ks := t in
  (fix go (ks : list tree) : Prop :=
     match ks with
     | [] => True
     | k :: ks => (level_of k = l + 1 ∧ levels_ok k) ∧ go ks
     end) ks.

(** Every child's path is its parent's path, a slash, and a name that is
    not hidden. *)
Fixpoint no_hidden (t : tree) : Prop :=
  let 'Node _ _ p _ _ ks := t in
  (fix go (ks : list tree) : Prop :=
     match ks with
     | [] => True
     | k :: ks =>
       ((∃ d, ¬ hidden d ∧ path_of k = child_path p d) ∧ no_hidden k) ∧ go ks
     end) ks.

(** ** Example file systems

    [/tmp/root] holds the file [a.txt], the directory [sub] with the file
    [b.txt] in it, and the hidden file [.secret]. *)
Definition demo_fs : filesystem := Filesystem
  (λ p, if decide (p = "/tmp/root") then Some ["."; ".."; "a.txt"; "sub"; ".secret"]
        else if decide (p = "/tmp/root/sub") then Some ["b.txt"; ".."; "."]
        else None)
  (λ p, if decide (p = "/tmp/root/sub") then Some 16877
        else if decide (p = "/tmp/root/a.txt") then Some 33188
        else if decide (p = "/tmp/root/sub/b.txt") then Some 33188
        else None).

Definition demo_stale : string → Z := λ _, 0.

(** The heap the builder leaves for [demo_fs], and the tree it holds. *)
Definition demo_state : state := State
  (list_to_map [(1%N, TreeNode.mk 1 1 0 1); (2%N, TreeNode.mk 2 2 3 2);
                (3%N, TreeNode.mk 3 2 0 3); (4%N, TreeNode.mk 4 3 0 4)])
  (list_to_map [(1%N, LList.mk 2 3); (2%N, LList.mk 0 0);
                (3%N, LList.mk 4 4); (4%N, LList.mk 0 0)])
  (list_to_map [(1%N, "/tmp/root"); (2%N, "/tmp/root/a.txt");
                (3%N, "/tmp/root/sub"); (4%N, "/tmp/root/sub/b.txt")])
  ∅ ∅ "".

Definition demo_tree : tree :=
  Node 1 1 "/tmp/root" 1 1
    [Node 2 2 "/tmp/root/a.txt" 2 2 [];
     Node 3 3 "/tmp/root/sub" 2 3 [Node 4 4 "/tmp/root/sub/b.txt" 3 4 []]].

(** The same heap with the print queue the linearizer makes of it. *)
Definition demo_cells : list (N * N) := [(1, 1); (4, 2); (5, 3); (6, 4)]%N.

Definition demo_queue_state : state := State
  (tnodes demo_state) (llists demo_state) (strs demo_state)
  {[1%N := Queue.mk 6 1]}
  (list_to_map [(1%N, QNode.mk 1 4); (4%N, QNode.mk 2 5);
                (5%N, QNode.mk 3 6); (6%N, QNode.mk 4 0)])
  "".

Definition demo_entries : list (Z * string) :=
  [(1, "/tmp/root"); (2, "/tmp/root/a.txt"); (2, "/tmp/root/sub");
   (3, "/tmp/root/sub/b.txt")].

(** [/tmp/root/locked] is a directory that cannot be opened. *)
Definition locked_fs : filesystem := Filesystem
  (λ p, if decide (p = "/tmp/root") then Some ["."; ".."; "a.txt"; "locked"; "z.txt"]
        else None)
  (λ p, if decide (p = "/tmp/root/locked") then Some 16877
        else if decide (p = "/tmp/root/a.txt") then Some 33188
        else if decide (p = "/tmp/root/z.txt") then Some 33188
        else None).

(** [stat] fails on [/r/x], which is a directory holding [y]. *)
Definition unstat_fs : filesystem := Filesystem
  (λ p, if decide (p = "/r") then Some ["x"]
        else if decide (p = "/r/x") then Some ["y"]
        else None)
  (λ p, if decide (p = "/r/x/y") then Some 33188 else None).

(** The heap the builder leaves for [unstat_fs] when the unwritten status
    buffer does not read as a directory. *)
Definition unstat_state : state := State
  (list_to_map [(1%N, TreeNode.mk 1 1 0 1); (2%N, TreeNode.mk 2 2 0 2)])
  (list_to_map [(1%N, LList.mk 2 2); (2%N, LList.mk 0 0)])
  (list_to_map [(1%N, "/r"); (2%N, "/r/x")])
  ∅ ∅ "".

(** [n] times the letter a. *)
Fixpoint letters (n : nat) : string :=
  match n with O => "" | S n => String "a" (letters n) end.

(** [/tmp/root] holds one entry with a name of 250 letters. *)
Definition long_fs : filesystem := Filesystem
  (λ p, if decide (p = "/tmp/root") then Some [letters 250] else None)
  (λ _, Some 33188).

(** ** The whole program *)

(** The path [main] copies into [startPath]: the last argument, or the
    built-in path when there is none. *)
Definition start_path (argv : list string) : string :=
  if decide (1 < length argv)%nat then default "" (last argv) else default_path.

(** [m'] has the outcome of [m] on every state where [m] has enough fuel. *)
Definition fuel_stable {A} (m m' : M A) : Prop :=
  ∀ s, m s ≠ OutOfFuel → m' s = m s.

(** A directory node with one child, and a node not yet linked to it. *)
Definition graft_state : state := State
  (list_to_map [(1%N, TreeNode.mk 1 1 0 1); (2%N, TreeNode.mk 2 2 0 2);
                (3%N, TreeNode.mk 3 2 0 3)])
  (list_to_map [(1%N, LList.mk 2 2); (2%N, LList.mk 0 0); (3%N, LList.mk 0 0)])
  (list_to_map [(1%N, "/r"); (2%N, "/r/a"); (3%N, "/r/b")])
  ∅ ∅ "".

(** Two queues side by side: [1] holds the node 7, [2] holds the nodes 8
    and 9. *)
Definition two_queues : state :=
  State ∅ ∅ ∅
    (list_to_map [(1%N, Queue.mk 1 1); (2%N, Queue.mk 3 2)])
    (list_to_map [(1%N, QNode.mk 7 0); (2%N, QNode.mk 8 3); (3%N, QNode.mk 9 0)])
    "".

(** [/tmp/empty] holds nothing but what every directory holds and a
    hidden file. *)
Definition bare_fs : filesystem := Filesystem
  (λ p, if decide (p = "/tmp/empty") then Some ["."; ".."; ".git"] else None)
  (λ _, None).

(** [/tmp/flat] holds three files, one of them hidden. *)
Definition flat_fs : filesystem := Filesystem
  (λ p, if decide (p = "/tmp/flat") then Some ["."; ".."; "b"; ".x"; "a"] else None)
  (λ _, Some 33188).

(** ** Example allocators *)

(** A bit pattern that is not [NULL]. *)
Definition poison : N := 3735928559.

(** Memory never runs out; a new block holds [poison]. *)
Definition ideal : allocator := Allocator
  (λ _, false)
  (λ _, TreeNode.mk poison (-1) poison poison)
  (λ _, LList.mk poison poison)
  (λ _, "?")
  (λ _, Queue.mk poison poison)
  (λ _, QNode.mk poison poison).

(** There is no memory at all. *)
Definition no_memory : allocator := Allocator
  (λ _, true)
  (λ _, TreeNode.mk poison (-1) poison poison)
  (λ _, LList.mk poison poison)
  (λ _, "?")
  (λ _, Queue.mk poison poison)
  (λ _, QNode.mk poison poison).

(** ** The text of a line, read back

    What a line of the listing says is fixed here without the printer: a
    numeral is read digit by digit, as [%d] writes it (no leading zero, a
    minus sign before the digits of a negative number). *)

Definition digit_value (c : Ascii.ascii) : option Z :=
  if decide (48 ≤ char_code c ≤ 57) then Some (char_code c - 48) else None.

Fixpoint digits_value (acc : Z) (s : string) : option Z :=
  match s with
  | "" => Some acc
  | String c s => d ← digit_value c; digits_value (10 * acc + d) s
  end.

Definition numeral_value (s : string) : option Z :=
  match s with
  | "" => None
  | String c rest =>
    if decide (c = "-"%char) then
      match rest with
      | "" => None
      | String c' _ =>
        if decide (c' = "0"%char) then None
        else n ← digits_value 0 rest; Some (- n)
      end
    else if decide (c = "0"%char) then (if rest is "" then Some 0 else None)
    else digits_value 0 s
  end.

(** [line] is [<depth>:<position>:<path>] and a newline. *)
Definition entry_line (line : string) (depth position : Z) (path : string) : Prop :=
  ∃ d p,
    line = d +:+ ":" +:+ p +:+ ":" +:+ path +:+ "
" ∧
    numeral_value d = Some depth ∧ numeral_value p = Some position.

(** ** A classifier that never fails

    The file system of [fs] in which [stat] succeeds on every path, with
    the mode the builder goes on to test on that path anyway. *)
Definition classified (fs : filesystem) (stale : string → Z) : filesystem :=
  Filesystem (opendir fs) (λ path, Some (st_mode_of fs stale path)).

(** The heap after the root node of [/r] has been created. *)
Definition rooted_state : state := State
  {[1%N := TreeNode.mk 1 1 0 1]} {[1%N := LList.mk 0 0]} {[1%N := "/r"]} ∅ ∅ "".

(** ** The whole program *)

(** The middle of [main]: the statements from the creation of the root node
    to the release of the tree. *)
Definition list_directory {alloc : allocator} (fs : filesystem) (stale : string → Z)
    (fuel : nat) (startPath : string) : M unit :=
  root ← build fs stale fuel startPath;
  print_and_release fuel root.

(** The end of [main]: the three [fclose], the [getchar], the [return]. *)
Definition close_and_wait : M Z :=
  getchar (fclose Stderr (fclose Stdout (fclose Stdin all_open)));;
  mret 0.

(** * Proofs *)

Section Proofs.

Context {alloc : allocator}.

(** ** Rules of the weakest precondition *)

Lemma wp_ret {A} (a : A) s Φ : Φ a s → wp (mret a) s Φ.
Proof. done. Qed.

Lemma wp_bind {A B} (m : M A) (f : A → M B) s Φ :
  wp m s (λ a s', wp (f a) s' Φ) → wp (m ≫= f) s Φ.
Proof. unfold wp, mbind, M_bind. by destruct (m s). Qed.

Lemma wp_mono {A} (m : M A) s (Φ Ψ : A → state → Prop) :
  wp m s Φ → (∀ a s', Φ a s' → Ψ a s') → wp m s Ψ.
Proof. unfold wp. destruct (m s); try done. intros H HΦ. by apply HΦ. Qed.

Lemma wp_done {A} (m : M A) s Φ :
  wp m s Φ ↔ ∃ a s', m s = Done a s' ∧ Φ a s'.
Proof.
  unfold wp. split.
  - destruct (m s); naive_solver.
  - by intros (a & s' & -> & ?).
Qed.

Lemma deref_Some {A} (m : gmap N A) p v :
  deref m p = Some v ↔ p ≠ NULL ∧ m !! p = Some v.
Proof.
  unfold deref. destruct (decide (p = NULL)) as [->|Hp].
  - split; [done|]. by intros [? _].
  - split; [by intros ?|]. by intros [_ ?].
Qed.

Lemma fresh_loc_NULL {A} (m : gmap N A) : fresh_loc m ≠ NULL.
Proof.
  unfold fresh_loc. intros E.
  pose proof (is_fresh ({[NULL]} ∪ dom m)) as F. rewrite E in F. set_solver.
Qed.

Lemma fresh_loc_None {A} (m : gmap N A) : m !! fresh_loc m = None.
Proof.
  unfold fresh_loc. apply not_elem_of_dom.
  pose proof (is_fresh ({[NULL]} ∪ dom m)) as F. set_solver.
Qed.

Lemma wp_load {A} (R : region A) p s v Φ :
  deref (sel R s) p = Some v → Φ v s → wp (load R p) s Φ.
Proof. unfold wp, load. by intros ->. Qed.

Lemma wp_get {A B} (R : region A) (f : A → B) p s v Φ :
  deref (sel R s) p = Some v → Φ (f v) s → wp (get R f p) s Φ.
Proof. intros Hd HΦ. apply wp_bind. eapply wp_load; [exact Hd|]. exact HΦ. Qed.

Lemma wp_store {A} (R : region A) p v s v0 Φ :
  deref (sel R s) p = Some v0 →
  Φ () (upd R (<[p := v]> (sel R s)) s) → wp (store R p v) s Φ.
Proof. unfold wp, store. by intros ->. Qed.

Lemma wp_malloc {A} (R : region A) junk s Φ :
  out_of_memory s = false →
  Φ (fresh_loc (sel R s)) (upd R (<[fresh_loc (sel R s) := junk s]> (sel R s)) s) →
  wp (malloc R junk) s Φ.
Proof. unfold wp, malloc. by intros ->. Qed.

Lemma wp_free {A} (R : region A) p s v Φ :
  sel R s !! p = Some v → p ≠ NULL →
  Φ () (upd R (delete p (sel R s)) s) → wp (free R p) s Φ.
Proof. unfold wp, free. intros -> ?. by case_decide. Qed.

Lemma wp_free_NULL {A} (R : region A) s Φ : Φ () s → wp (free R NULL) s Φ.
Proof. done. Qed.

Lemma wp_printf text s Φ :
  Φ () (State (tnodes s) (llists s) (strs s) (queues s) (qnodes s) (stdout s +:+ text)) →
  wp (printf text) s Φ.
Proof. done. Qed.

Ltac wp_setter :=
  intros; apply wp_bind; eapply wp_load; [eassumption|];
  eapply wp_store; [eassumption|]; assumption.

Lemma wp_set_head p v s c Φ :
  deref (llists s) p = Some c →
  Φ () (upd LL (<[p := LList.mk v (LList.tail c)]> (llists s)) s) →
  wp (set_head p v) s Φ.
Proof. wp_setter. Qed.

Lemma wp_set_tail p v s c Φ :
  deref (llists s) p = Some c →
  Φ () (upd LL (<[p := LList.mk (LList.head c) v]> (llists s)) s) →
  wp (set_tail p v) s Φ.
Proof. wp_setter. Qed.

Lemma wp_set_fileName p v s c Φ :
  deref (tnodes s) p = Some c →
  Φ () (upd TN (<[p := TreeNode.mk v (TreeNode.level c) (TreeNode.nextSibling c)
                         (TreeNode.children c)]> (tnodes s)) s) →
  wp (set_fileName p v) s Φ.
Proof. wp_setter. Qed.

Lemma wp_set_level p v s c Φ :
  deref (tnodes s) p = Some c →
  Φ () (upd TN (<[p := TreeNode.mk (TreeNode.fileName c) v (TreeNode.nextSibling c)
                         (TreeNode.children c)]> (tnodes s)) s) →
  wp (set_level p v) s Φ.
Proof. wp_setter. Qed.

Lemma wp_set_nextSibling p v s c Φ :
  deref (tnodes s) p = Some c →
  Φ () (upd TN (<[p := TreeNode.mk (TreeNode.fileName c) (TreeNode.level c) v
                         (TreeNode.children c)]> (tnodes s)) s) →
  wp (set_nextSibling p v) s Φ.
Proof. wp_setter. Qed.

Lemma wp_set_children p v s c Φ :
  deref (tnodes s) p = Some c →
  Φ () (upd TN (<[p := TreeNode.mk (TreeNode.fileName c) (TreeNode.level c)
                         (TreeNode.nextSibling c) v]> (tnodes s)) s) →
  wp (set_children p v) s Φ.
Proof. wp_setter. Qed.

Lemma wp_set_lastIn p v s c Φ :
  deref (queues s) p = Some c →
  Φ () (upd Q (<[p := Queue.mk v (Queue.firstOut c)]> (queues s)) s) →
  wp (set_lastIn p v) s Φ.
Proof. wp_setter. Qed.

Lemma wp_set_firstOut p v s c Φ :
  deref (queues s) p = Some c →
  Φ () (upd Q (<[p := Queue.mk (Queue.lastIn c) v]> (queues s)) s) →
  wp (set_firstOut p v) s Φ.
Proof. wp_setter. Qed.

Lemma wp_set_dataSource p v s c Φ :
  deref (qnodes s) p = Some c →
  Φ () (upd QN (<[p := QNode.mk v (QNode.queuePrev c)]> (qnodes s)) s) →
  wp (set_dataSource p v) s Φ.
Proof. wp_setter. Qed.

Lemma wp_set_queuePrev p v s c Φ :
  deref (qnodes s) p = Some c →
  Φ () (upd QN (<[p := QNode.mk (QNode.dataSource c) v]> (qnodes s)) s) →
  wp (set_queuePrev p v) s Φ.
Proof. wp_setter. Qed.

Lemma wp_eq {A} (m : M A) s a0 s0 :
  wp m s (λ a s', a = a0 ∧ s' = s0) → m s = Done a0 s0.
Proof. unfold wp. destruct (m s); try done. by intros [-> ->]. Qed.

Lemma wp_of_eq {A} (m : M A) s a0 s0 (Φ : A → state → Prop) :
  m s = Done a0 s0 → Φ a0 s0 → wp m s Φ.
Proof. unfold wp. by intros ->. Qed.

Ltac solve_lookup :=
  cbn;
  repeat first
    [ eassumption
    | apply lookup_insert_eq
    | rewrite lookup_insert_ne by (first [done | congruence]) ].

Ltac solve_deref :=
  apply deref_Some; split;
  [ first [ assumption | apply fresh_loc_NULL | done ] | solve_lookup ].

Ltac wp_simpl :=
  cbn [sel upd TN LL STR Q QN tnodes llists strs queues qnodes stdout
       QNode.dataSource QNode.queuePrev Queue.lastIn Queue.firstOut
       LList.head LList.tail TreeNode.fileName TreeNode.level
       TreeNode.nextSibling TreeNode.children].

(** The allocation at hand succeeds: by a hypothesis on the state, or
    because no allocation fails. *)
Ltac solve_memory :=
  first [ assumption
        | match goal with H : ∀ s, out_of_memory s = false |- _ => apply H end ].

Ltac wp_step :=
  lazymatch goal with
  | |- wp (mret _) _ _ => apply wp_ret
  | |- wp (mbind _ _) _ _ => apply wp_bind
  | |- wp (malloc _ _) _ _ => apply wp_malloc; [solve_memory|]
  | |- wp (printf _) _ _ => apply wp_printf
  | |- wp (get _ _ _) _ _ => eapply wp_get; [solve_deref|]
  | |- wp (load _ _) _ _ => eapply wp_load; [solve_deref|]
  | |- wp (store _ _ _) _ _ => eapply wp_store; [solve_deref|]
  | |- wp (set_head _ _) _ _ => eapply wp_set_head; [solve_deref|]
  | |- wp (set_tail _ _) _ _ => eapply wp_set_tail; [solve_deref|]
  | |- wp (set_fileName _ _) _ _ => eapply wp_set_fileName; [solve_deref|]
  | |- wp (set_level _ _) _ _ => eapply wp_set_level; [solve_deref|]
  | |- wp (set_nextSibling _ _) _ _ => eapply wp_set_nextSibling; [solve_deref|]
  | |- wp (set_children _ _) _ _ => eapply wp_set_children; [solve_deref|]
  | |- wp (set_lastIn _ _) _ _ => eapply wp_set_lastIn; [solve_deref|]
  | |- wp (set_firstOut _ _) _ _ => eapply wp_set_firstOut; [solve_deref|]
  | |- wp (set_dataSource _ _) _ _ => eapply wp_set_dataSource; [solve_deref|]
  | |- wp (set_queuePrev _ _) _ _ => eapply wp_set_queuePrev; [solve_deref|]
  end; wp_simpl.

(** ** Numerals *)

Lemma digit_value_char d :
  (d < 10)%N → digit_value (pretty_N_char d) = Some (Z.of_N d).
Proof.
  intros Hd.
  assert (d = 0 ∨ d = 1 ∨ d = 2 ∨ d = 3 ∨ d = 4 ∨ d = 5 ∨ d = 6 ∨ d = 7 ∨ d = 8 ∨ d = 9)%N
    as H by lia.
  repeat (destruct H as [->|H]; [reflexivity|]). by subst.
Qed.

Lemma pretty_N_char_lead d :
  (0 < d < 10)%N → pretty_N_char d ≠ "0"%char ∧ pretty_N_char d ≠ "-"%char.
Proof.
  intros Hd.
  assert (d = 1 ∨ d = 2 ∨ d = 3 ∨ d = 4 ∨ d = 5 ∨ d = 6 ∨ d = 7 ∨ d = 8 ∨ d = 9)%N
    as H by lia.
  repeat (destruct H as [->|H]; [by split|]). by subst.
Qed.

(** The digits that the library printer puts before [s] read as [x]. *)
Lemma digits_value_pretty_go x :
  ∃ k, 0 ≤ k ∧ ∀ s a,
    digits_value a (pretty_N_go x s) = digits_value (a * 10 ^ k + Z.of_N x) s.
Proof.
  induction (N.lt_wf_0 x) as [x _ IH].
  destruct (decide (x = 0%N)) as [->|Hx].
  { exists 0. split; [done|]. intros s a. rewrite pretty_N_go_0. f_equal. lia. }
  destruct (IH (x `div` 10)%N) as (k & Hk & IHk).
  { apply N.div_lt; lia. }
  exists (k + 1). split; [lia|]. intros s a.
  rewrite pretty_N_go_step by lia. rewrite IHk. cbn [digits_value].
  rewrite digit_value_char by (apply N.mod_lt; lia). cbn.
  f_equal. rewrite Z.pow_add_r, Z.pow_1_r by lia.
  pose proof (N.div_mod x 10 ltac:(lia)) as E.
  assert (Z.of_N x = 10 * Z.of_N (x `div` 10) + Z.of_N (x `mod` 10)) as -> by lia.
  lia.
Qed.

Lemma digits_value_pretty x : digits_value 0 (pretty_N_go x "") = Some (Z.of_N x).
Proof.
  destruct (digits_value_pretty_go x) as (k & _ & H). rewrite H.
  cbn [digits_value]. by rewrite Z.mul_0_l.
Qed.

Lemma pretty_N_go_lead x : ∀ s,
  (0 < x)%N →
  ∃ d rest, (0 < d < 10)%N ∧ pretty_N_go x s = String (pretty_N_char d) rest.
Proof.
  induction (N.lt_wf_0 x) as [x _ IH]. intros s Hx.
  rewrite pretty_N_go_step by done.
  destruct (decide (x < 10)%N) as [Hlt|Hge].
  - rewrite N.div_small by done. rewrite pretty_N_go_0.
    exists x, s. split; [lia|]. by rewrite N.mod_small.
  - apply IH.
    + apply N.div_lt; lia.
    + apply N.div_str_pos. lia.
Qed.

Lemma numeral_value_pretty z : numeral_value (pretty z) = Some z.
Proof.
  destruct z as [|p|p]; [reflexivity|..].
  - change (pretty (Z.pos p)) with (pretty_N_go (N.pos p) "").
    destruct (pretty_N_go_lead (N.pos p) "") as (d & rest & Hd & E); [lia|].
    pose proof (digits_value_pretty (N.pos p)) as Hv. rewrite E in Hv |- *.
    destruct (pretty_N_char_lead d Hd) as [H0 Hm]. cbn [numeral_value].
    rewrite !decide_False by done. exact Hv.
  - change (pretty (Z.neg p)) with (String "-" (pretty_N_go (N.pos p) "")).
    destruct (pretty_N_go_lead (N.pos p) "") as (d & rest & Hd & E); [lia|].
    pose proof (digits_value_pretty (N.pos p)) as Hv. rewrite E in Hv |- *.
    destruct (pretty_N_char_lead d Hd) as [H0 Hm]. cbn [numeral_value].
    rewrite decide_True by done. rewrite decide_False by done.
    rewrite Hv. reflexivity.
Qed.

(** The line of the printer reads as the depth, the position and the
    path it was given. *)
Lemma format_line_reads lvl order path :
  entry_line (format_line lvl order path) lvl order path.
Proof.
  exists (pretty lvl), (pretty order). split; [reflexivity|].
  split; apply numeral_value_pretty.
Qed.

(** ** [deQueue] on an empty queue *)

Lemma malloc_NULL {A} (R : region A) junk s :
  out_of_memory s = true → malloc R junk s = Done NULL s.
Proof. unfold malloc. by intros ->. Qed.

Lemma deQueue_empty_alloc s q li :
  q ≠ NULL → queues s !! q = Some (Queue.mk li NULL) →
  out_of_memory s = false →
  deQueue q s =
  Done (fresh_loc (qnodes s))
       (upd QN (<[fresh_loc (qnodes s) := QNode.mk NULL NULL]> (qnodes s)) s).
Proof.
  intros Hq Hqs Hmem. apply wp_eq. unfold deQueue.
  do 2 wp_step. destruct (decide (NULL = NULL)) as [_|?]; [|done].
  repeat wp_step. by rewrite !insert_insert_eq.
Qed.

(** The allocation of the placeholder is not checked. *)
Lemma deQueue_empty_no_memory s q li :
  q ≠ NULL → queues s !! q = Some (Queue.mk li NULL) →
  out_of_memory s = true →
  deQueue q s = Fault BadPointer s.
Proof.
  intros Hq Hqs Hmem. unfold deQueue.
  unfold mbind at 1, M_bind. unfold get.
  unfold mbind at 1, M_bind, load, deref. rewrite decide_False by done.
  cbn [sel Q]. rewrite Hqs. cbn [mret M_ret Queue.firstOut].
  rewrite decide_True by done.
  unfold mbind at 1, M_bind. rewrite malloc_NULL by done.
  reflexivity.
Qed.


(** ** When no allocation fails

    From here to the end of the section, [malloc] finds memory in every
    state. *)

Section Enough.

(** From here on [malloc] finds memory in every state; what a new block
    holds stays arbitrary. *)
Hypothesis enough_memory : ∀ s, out_of_memory s = false.

(** ** The queue *)

Lemma createQNode_spec x s :
  createQNode x s =
  Done (fresh_loc (qnodes s))
       (upd QN (<[fresh_loc (qnodes s) := QNode.mk x NULL]> (qnodes s)) s).
Proof.
  apply wp_eq. unfold createQNode.
  do 2 wp_step.
  destruct (decide (fresh_loc (qnodes s) = NULL)) as [E|_].
  { by destruct (fresh_loc_NULL (qnodes s)). }
  repeat wp_step. 
  by rewrite !insert_insert_eq.
Qed.

Lemma createQueue_spec s :
  createQueue s =
  Done (fresh_loc (queues s))
       (upd Q (<[fresh_loc (queues s) := Queue.mk NULL NULL]> (queues s)) s).
Proof.
  apply wp_eq. unfold createQueue.
  do 2 wp_step.
  destruct (decide (fresh_loc (queues s) = NULL)) as [E|_].
  { by destruct (fresh_loc_NULL (queues s)). }
  repeat wp_step.
  by rewrite !insert_insert_eq.
Qed.

Lemma hd_addr_app l c : hd_addr (l ++ [c]) = match l with [] => c.1 | _ => hd_addr l end.
Proof. by destruct l. Qed.

Lemma last_addr_snoc l c : last_addr (l ++ [c]) = c.1.
Proof. unfold last_addr. by rewrite last_snoc. Qed.

Lemma last_addr_cons c l : l ≠ [] → last_addr (c :: l) = last_addr l.
Proof. unfold last_addr. destruct l; [done|]. by rewrite last_cons_cons. Qed.

Lemma last_fst_elem (l : list (N * N)) z : last l = Some z → z.1 ∈ l.*1.
Proof. intros H. apply list_elem_of_fmap_2. by apply last_Some_elem_of. Qed.

Lemma last_addr_elem (l : list (N * N)) : l ≠ [] → last_addr l ∈ l.*1.
Proof.
  unfold last_addr. intros Hl. destruct (last l) as [z|] eqn:Hlast.
  - by apply last_fst_elem.
  - by apply last_None in Hlast.
Qed.

Lemma qcells_last qn l e c :
  qcells qn l e → last l = Some c → c.1 ≠ NULL ∧ qn !! c.1 = Some (QNode.mk c.2 e).
Proof.
  induction l as [|d l IH]; [done|]. intros (Hn & Hd & Hl) Hlast.
  destruct l as [|d' l].
  - cbn in Hlast. by simplify_eq.
  - rewrite last_cons_cons in Hlast. by apply IH.
Qed.

Lemma qcells_lookup qn l e c :
  qcells qn l e → c ∈ l → is_Some (qn !! c.1) ∧ c.1 ≠ NULL.
Proof.
  induction l as [|d l IH]; [by intros _ ?%elem_of_nil|].
  intros (Hn & Hd & Hl) [->|?]%elem_of_cons; [eauto|by apply IH].
Qed.

Lemma qcells_fresh (qn : gmap N QNode.t) l e a :
  qcells qn l e → qn !! a = None → a ∉ l.*1.
Proof.
  intros Hc Ha (c & E & Hin)%list_elem_of_fmap.
  destruct (qcells_lookup _ _ _ _ Hc Hin) as [[v Hv] _]. congruence.
Qed.

Lemma qcells_frame qn qn' l e :
  (∀ a, a ∈ l.*1 → qn' !! a = qn !! a) → qcells qn l e → qcells qn' l e.
Proof.
  induction l as [|d l IH]; [done|]. intros Hf (Hn & Hd & Hl).
  split; [done|]. split.
  - rewrite Hf; [done|]. by left.
  - apply IH; [|done]. intros c ?. apply Hf. by right.
Qed.

Lemma qcells_relink qn l a :
  NoDup l.*1 → qcells qn l NULL → qcells (relink l a qn) l a.
Proof.
  unfold relink. induction l as [|c l IH]; [done|].
  rewrite fmap_cons. intros [Hcl Hnd]%NoDup_cons (Hn & Hc & Hl).
  destruct l as [|d l].
  - cbn. by rewrite lookup_insert_eq.
  - rewrite last_cons_cons. specialize (IH Hnd Hl).
    destruct (last (d :: l)) as [z|] eqn:Hlast; [|by apply last_None in Hlast].
    split; [done|]. split; [|done].
    rewrite lookup_insert_ne; [done|].
    intros E. apply Hcl. rewrite <-E. by apply last_fst_elem.
Qed.

Lemma qcells_snoc qn l c e :
  qcells qn l c.1 → c.1 ≠ NULL → qn !! c.1 = Some (QNode.mk c.2 e) →
  qcells qn (l ++ [c]) e.
Proof.
  induction l as [|d l IH]; [done|]. intros (Hn & Hd & Hl) ? ?.
  split; [done|]. split; [|by apply IH]. by destruct l.
Qed.

Lemma relink_lookup_ne l a (qn : gmap N QNode.t) b :
  b ≠ last_addr l → relink l a qn !! b = qn !! b.
Proof.
  unfold relink, last_addr. destruct (last l); [|done].
  intros ?. by rewrite lookup_insert_ne.
Qed.

Lemma enQueue_spec s q x l :
  queue_rep s q l → enQueue q x s = Done () (enq_state s q x l).
Proof.
  intros (Hq & Hqs & Hnd & Hc). apply wp_eq. unfold enQueue.
  wp_step. eapply wp_of_eq; [apply createQNode_spec|].
  wp_simpl. unfold enq_state, relink. set (a := fresh_loc (qnodes s)).
  wp_step. wp_step. wp_simpl.
  destruct (last l) as [c|] eqn:Hlast.
  - destruct (qcells_last _ _ _ _ Hc Hlast) as [Hn Hl].
    assert (c.1 ≠ a) as Hne.
    { intros E. rewrite E in Hl. unfold a in Hl. by rewrite fresh_loc_None in Hl. }
    unfold last_addr. rewrite Hlast.
    destruct (decide (c.1 = NULL)) as [?|_]; [done|].
    repeat wp_step. split; [done|]. f_equal.
    rewrite hd_addr_app. destruct l as [|c0 l0]; [discriminate Hlast|reflexivity].
  - apply last_None in Hlast as ->. cbn [last_addr last].
    destruct (decide (NULL = NULL)) as [_|?]; [|done].
    repeat wp_step. split; [done|]. by rewrite insert_insert_eq.
Qed.

Lemma enq_state_rep s q x l :
  queue_rep s q l → queue_rep (enq_state s q x l) q (l ++ [enq_cell s x]).
Proof.
  intros (Hq & Hqs & Hnd & Hc). unfold enq_cell, enq_state.
  set (a := fresh_loc (qnodes s)).
  assert (a ∉ l.*1) as Hfresh by (eapply qcells_fresh; [done|apply fresh_loc_None]).
  split; [done|]. cbn [queues qnodes]. split.
  { rewrite lookup_insert_eq. by rewrite last_addr_snoc. }
  split.
  { rewrite fmap_app. apply NoDup_app. split; [done|]. split.
    - intros b Hb [->|[]%elem_of_nil]%elem_of_cons. done.
    - apply NoDup_singleton. }
  apply qcells_snoc; cbn.
  - apply qcells_relink; [done|]. eapply qcells_frame; [|done].
    intros b Hb. rewrite lookup_insert_ne; [done|]. by intros ->.
  - apply fresh_loc_NULL.
  - rewrite relink_lookup_ne; [by rewrite lookup_insert_eq|].
    unfold last_addr. destruct (last l) as [c|] eqn:Hlast; [|apply fresh_loc_NULL].
    intros E. apply Hfresh. rewrite E. by apply last_fst_elem.
Qed.

(** Cells outside the queue, and other queues, are not touched. *)
Lemma enq_state_frame s q x l b :
  b ∉ l.*1 → b ≠ fresh_loc (qnodes s) →
  qnodes (enq_state s q x l) !! b = qnodes s !! b.
Proof.
  intros Hb Hne. cbn. unfold relink. destruct (last l) as [c|] eqn:Hlast.
  - rewrite !lookup_insert_ne; [done|done|].
    intros <-. by apply Hb, last_fst_elem.
  - by rewrite lookup_insert_ne.
Qed.

Lemma deQueue_spec s q c l :
  queue_rep s q (c :: l) → deQueue q s = Done c.1 (deq_state s q l).
Proof.
  intros (Hq & Hqs & Hnd & Hn & Hc & Hl). apply wp_eq. unfold deQueue, deq_state.
  do 2 wp_step. cbn [hd_addr next_addr].
  destruct (decide (c.1 = NULL)) as [?|_]; [done|].
  do 2 wp_step.
  destruct l as [|d l].
  - cbn. destruct (decide (c.1 = c.1)) as [_|?]; [|done].
    repeat wp_step. split; [done|]. by rewrite insert_insert_eq.
  - rewrite last_addr_cons by done.
    destruct (decide (last_addr (d :: l) = c.1)) as [E|_].
    { rewrite fmap_cons in Hnd. apply NoDup_cons in Hnd as [Hcl _].
      destruct Hcl. rewrite <-E. by apply last_addr_elem. }
    repeat wp_step. done.
Qed.

Lemma deq_state_rep s q c l :
  queue_rep s q (c :: l) → queue_rep (deq_state s q l) q l.
Proof.
  intros (Hq & Hqs & Hnd & Hn & Hc & Hl). split; [done|]. cbn. split.
  { by rewrite lookup_insert_eq. }
  split; [|done]. rewrite fmap_cons in Hnd. by apply NoDup_cons in Hnd as [_ ?].
Qed.

Lemma deQueue_empty_spec s q li :
  q ≠ NULL → queues s !! q = Some (Queue.mk li NULL) →
  deQueue q s =
  Done (fresh_loc (qnodes s))
       (upd QN (<[fresh_loc (qnodes s) := QNode.mk NULL NULL]> (qnodes s)) s).
Proof.
  intros Hq Hqs. apply wp_eq. unfold deQueue.
  do 2 wp_step. destruct (decide (NULL = NULL)) as [_|?]; [|done].
  repeat wp_step. by rewrite !insert_insert_eq.
Qed.

Lemma bind_Done {A B} (m : M A) (f : A → M B) s a s' :
  m s = Done a s' → (m ≫= f) s = f a s'.
Proof. unfold mbind, M_bind. by intros ->. Qed.

Lemma get_Done {A B} (R : region A) (f : A → B) p s v :
  p ≠ NULL → sel R s !! p = Some v → get R f p s = Done (f v) s.
Proof.
  intros Hp Hv. apply wp_eq. eapply wp_get; [by apply deref_Some|done].
Qed.

Lemma enQueue_all_spec xs : ∀ s q l,
  queue_rep s q l →
  ∃ s' l', enQueue_all q xs s = Done () s' ∧ queue_rep s' q (l ++ l') ∧ l'.*2 = xs.
Proof.
  induction xs as [|x xs IH]; intros s q l Hrep.
  - exists s, []. by rewrite app_nil_r.
  - destruct (IH _ _ _ (enq_state_rep s q x l Hrep)) as (s' & l' & Hrun & Hrep' & Hxs).
    exists s', (enq_cell s x :: l'). split.
    + cbn [enQueue_all]. by erewrite bind_Done by (by apply enQueue_spec).
    + split; [by rewrite cons_middle, app_assoc|]. cbn. by rewrite Hxs.
Qed.

Lemma deQueue_n_spec l1 : ∀ s q l2,
  queue_rep s q (l1 ++ l2) →
  ∃ s', deQueue_n q (length l1) s = Done l1.*2 s' ∧ queue_rep s' q l2.
Proof.
  induction l1 as [|c l1 IH]; intros s q l2 Hrep.
  - by exists s.
  - destruct (IH _ _ _ (deq_state_rep s q c _ Hrep)) as (s' & Hrun & Hrep').
    exists s'. split; [|done]. cbn [length deQueue_n].
    erewrite bind_Done by (by apply deQueue_spec).
    destruct Hrep as (_ & _ & _ & Hn & Hc & _).
    erewrite bind_Done by (by apply get_Done).
    by erewrite bind_Done by done.
Qed.

(** C9: the queue is first in, first out.  On a queue holding the cells [l],
    enqueueing the tree nodes [xs] one after the other and then dequeueing
    as many cells as the queue holds returns the nodes already there followed
    by [xs], in the order they went in, and leaves the queue empty. *)
Theorem queue_first_in_first_out s q l xs :
  queue_rep s q l →
  ∃ s', (enQueue_all q xs;; deQueue_n q (length l + length xs)) s
        = Done (l.*2 ++ xs) s' ∧
        queue_rep s' q [].
Proof.
  intros Hrep.
  destruct (enQueue_all_spec xs s q l Hrep) as (s1 & l' & Hrun1 & Hrep1 & Hxs).
  rewrite <-(app_nil_r (l ++ l')) in Hrep1.
  destruct (deQueue_n_spec _ _ _ _ Hrep1) as (s2 & Hrun2 & Hrep2).
  exists s2. split; [|done].
  erewrite bind_Done by done.
  rewrite length_app in Hrun2. 
  assert (length l' = length xs) as <- by (by rewrite <-Hxs, length_fmap).
  by rewrite Hrun2, fmap_app, Hxs.
Qed.

(** ** Level order and the queue traversal *)

Lemma size_Node a fn p l cl ks : size (Node a fn p l cl ks) = S (forest_size ks).
Proof. done. Qed.

Lemma size_kids t : size t = S (forest_size (kids t)).
Proof. by destruct t. Qed.

Lemma size_pos t : (0 < size t)%nat.
Proof. destruct t. rewrite size_Node. lia. Qed.

Lemma forest_size_app ts us :
  forest_size (ts ++ us) = (forest_size ts + forest_size us)%nat.
Proof. induction ts as [|t ts IH]; [done|]. cbn [app forest_size]. rewrite IH. lia. Qed.

Lemma forest_size_length ts : (length ts ≤ forest_size ts)%nat.
Proof.
  induction ts as [|t ts IH]; [done|]. cbn [length forest_size].
  pose proof (size_pos t). lia.
Qed.

Lemma forest_size_bind ts :
  forest_size ts = (length ts + forest_size (ts ≫= kids))%nat.
Proof.
  induction ts as [|t ts IH]; [done|].
  cbn [length forest_size mbind list_bind]. rewrite forest_size_app, size_kids. lia.
Qed.

Lemma nodes_kids t : nodes t = t :: forest_nodes (kids t).
Proof. by destruct t. Qed.

Lemma forest_nodes_app ts us :
  forest_nodes (ts ++ us) = forest_nodes ts ++ forest_nodes us.
Proof. induction ts as [|t ts IH]; [done|]. cbn [app forest_nodes]. by rewrite IH, app_assoc. Qed.

Lemma bfs_fuel_enough n : ∀ q, (forest_size q ≤ n)%nat → bfs_fuel n q = bfs q.
Proof.
  unfold bfs. induction n as [|n IH]; intros q Hn.
  - destruct q as [|t q]; [done|]. cbn [forest_size] in Hn. pose proof (size_pos t). lia.
  - destruct q as [|t q]; [done|].
    cbn [forest_size] in *. rewrite size_kids in *. cbn [bfs_fuel Nat.add]. f_equal.
    rewrite IH by (rewrite forest_size_app; lia).
    f_equal. rewrite forest_size_app. lia.
Qed.

Lemma bfs_nil : bfs [] = [].
Proof. done. Qed.

Lemma bfs_cons t q : bfs (t :: q) = t :: bfs (q ++ kids t).
Proof.
  unfold bfs at 1. cbn [forest_size]. rewrite size_kids. cbn [Nat.add bfs_fuel].
  f_equal. apply bfs_fuel_enough. rewrite forest_size_app. lia.
Qed.

Lemma bfs_app ts : ∀ us, bfs (ts ++ us) = ts ++ bfs (us ++ (ts ≫= kids)).
Proof.
  induction ts as [|t ts IH]; intros us.
  - by rewrite app_nil_r.
  - cbn [app mbind list_bind]. rewrite bfs_cons, <-app_assoc, IH. by rewrite <-app_assoc.
Qed.

Lemma bfs_level ts : bfs ts = ts ++ bfs (ts ≫= kids).
Proof. by rewrite <-(app_nil_r ts) at 1; rewrite bfs_app. Qed.

Lemma at_depth_nil d : at_depth d [] = [].
Proof. by induction d. Qed.

Lemma concat_levels n : ∀ ts,
  concat ((λ d, at_depth d ts) <$> seq 0 (S n)) =
  ts ++ concat ((λ d, at_depth d (ts ≫= kids)) <$> seq 0 n).
Proof.
  intros ts. cbn [seq fmap list_fmap concat at_depth]. f_equal.
  by rewrite <-fmap_S_seq, <-list_fmap_compose.
Qed.

Lemma bfs_levels n : ∀ ts,
  (forest_size ts ≤ n)%nat →
  bfs ts = concat ((λ d, at_depth d ts) <$> seq 0 n).
Proof.
  induction n as [|n IH]; intros ts Hn.
  - destruct ts as [|t ts]; [done|]. cbn [forest_size] in Hn. pose proof (size_pos t). lia.
  - rewrite concat_levels, bfs_level. f_equal. destruct ts as [|t ts].
    + clear. cbn. induction (seq 0 n) as [|? ? IH']; [done|]. cbn. by rewrite at_depth_nil.
    + apply IH. rewrite (forest_size_bind (t :: ts)) in Hn. cbn [length] in Hn. lia.
Qed.

Lemma bfs_level_order t : bfs [t] = level_order t.
Proof. apply bfs_levels. cbn. lia. Qed.

Lemma bfs_perm n : ∀ q, (forest_size q ≤ n)%nat → bfs q ≡ₚ forest_nodes q.
Proof.
  induction n as [|n IH]; intros q Hn.
  - destruct q as [|t q]; [done|]. cbn [forest_size] in Hn. pose proof (size_pos t). lia.
  - destruct q as [|t q]; [done|]. rewrite bfs_cons.
    cbn [forest_size] in Hn. rewrite size_kids in Hn.
    rewrite IH by (rewrite forest_size_app; lia).
    cbn [forest_nodes]. rewrite nodes_kids, forest_nodes_app. cbn [app].
    apply Permutation_skip. apply Permutation_app_comm.
Qed.

Lemma tree_forall_ind (P : tree → Prop) :
  (∀ a fn p l cl ks, Forall P ks → P (Node a fn p l cl ks)) → ∀ t, P t.
Proof.
  intros H. fix IH 1. intros [a fn p l cl ks]. apply H.
  induction ks as [|k ks IHks]; constructor; [apply IH|apply IHks].
Qed.

Lemma nodes_length t : length (nodes t) = size t.
Proof.
  induction t as [a fn p l cl ks IH] using tree_forall_ind.
  rewrite nodes_kids, size_Node. cbn [length kids]. f_equal.
  induction IH as [|k ks Hk _ IHks]; [done|].
  cbn [forest_nodes forest_size]. rewrite length_app. congruence.
Qed.

Lemma forest_nodes_length ts : length (forest_nodes ts) = forest_size ts.
Proof.
  induction ts as [|t ts IH]; [done|].
  cbn [forest_nodes forest_size]. by rewrite length_app, nodes_length, IH.
Qed.

Lemma level_order_perm t : level_order t ≡ₚ nodes t.
Proof.
  rewrite <-bfs_level_order, (bfs_perm (size t)) by (cbn; lia).
  cbn. by rewrite app_nil_r.
Qed.

Lemma level_order_length t : length (level_order t) = size t.
Proof.
  by rewrite level_order_perm, nodes_length.
Qed.

(** ** The tree in the heap *)

Lemma tree_in_Node s a fn p l cl ks next :
  tree_in s (Node a fn p l cl ks) next ↔
  a ≠ NULL ∧ fn ≠ NULL ∧ cl ≠ NULL ∧
  tnodes s !! a = Some (TreeNode.mk fn l next cl) ∧
  strs s !! fn = Some p ∧
  llists s !! cl = Some (LList.mk (first_addr ks) (last_tree_addr ks)) ∧
  forest_in s ks NULL.
Proof. done. Qed.

Lemma tree_in_addr s t next : tree_in s t next → addr t ≠ NULL.
Proof. destruct t. by intros (? & _). Qed.

Lemma tree_in_tnode s t next :
  tree_in s t next →
  tnodes s !! addr t = Some (TreeNode.mk (path_addr t) (level_of t) next (list_addr t)).
Proof. destruct t. by intros (_ & _ & _ & ? & _). Qed.

Lemma tree_in_llist s t next :
  tree_in s t next →
  list_addr t ≠ NULL ∧
  llists s !! list_addr t = Some (LList.mk (first_addr (kids t)) (last_tree_addr (kids t))).
Proof. destruct t. by intros (_ & _ & ? & _ & _ & ? & _). Qed.

Lemma tree_in_path s t next :
  tree_in s t next → path_addr t ≠ NULL ∧ strs s !! path_addr t = Some (path_of t).
Proof. destruct t. by intros (_ & ? & _ & _ & ? & _). Qed.

Lemma tree_in_kids s t next : tree_in s t next → forest_in s (kids t) NULL.
Proof. destruct t. by intros (_ & _ & _ & _ & _ & _ & ?). Qed.

Lemma tree_in_ext s s' t : ∀ next,
  same_tree s s' → tree_in s t next → tree_in s' t next.
Proof.
  intros next (Htn & Hll & Hst). revert next.
  induction t as [a fn p l cl ks IH] using tree_forall_ind. intros next.
  rewrite !tree_in_Node, Htn, Hll, Hst.
  intros (? & ? & ? & ? & ? & ? & Hks). repeat (split; [done|]).
  clear -IH Hks. generalize dependent NULL.
  induction IH as [|k ks Hk _ IHks]; [done|]. intros e [? ?].
  split; [by apply Hk|by apply IHks].
Qed.

Lemma forest_in_ext s s' ts e :
  same_tree s s' → forest_in s ts e → forest_in s' ts e.
Proof.
  intros Hs. induction ts as [|t ts IH]; [done|]. intros [? ?].
  split; [by eapply tree_in_ext|by apply IH].
Qed.

Lemma forest_in_Forall s ts e :
  forest_in s ts e → Forall (λ t, ∃ next, tree_in s t next) ts.
Proof.
  induction ts as [|t ts IH]; [done|]. intros [Ht Hts].
  constructor; [eauto|by apply IH].
Qed.

Lemma same_tree_sym s s' : same_tree s s' → same_tree s' s.
Proof. unfold same_tree. intros (H1 & H2 & H3). by rewrite H1, H2, H3. Qed.

(** ** Invariants of the linearizer *)

Lemma queue_rep_frame s s' q l :
  queues s' !! q = queues s !! q →
  (∀ b, b ∈ l.*1 → qnodes s' !! b = qnodes s !! b) →
  queue_rep s q l → queue_rep s' q l.
Proof.
  intros Hq Hc (? & ? & ? & ?). split; [done|]. rewrite Hq.
  split; [done|]. split; [done|]. by eapply qcells_frame.
Qed.

Lemma queue_rep_live s q l b : queue_rep s q l → b ∈ l.*1 → is_Some (qnodes s !! b).
Proof.
  intros (_ & _ & _ & Hc) (c & -> & Hin)%list_elem_of_fmap.
  by destruct (qcells_lookup _ _ _ _ Hc Hin).
Qed.

Lemma queue_rep_fresh s q l : queue_rep s q l → fresh_loc (qnodes s) ∉ l.*1.
Proof.
  intros Hrep Hin. destruct (queue_rep_live _ _ _ _ Hrep Hin) as [v Hv].
  by rewrite fresh_loc_None in Hv.
Qed.

Lemma elem_of_fst_snoc (l : list (N * N)) c b :
  b ∈ (l ++ [c]).*1 ↔ b ∈ l.*1 ∨ b = c.1.
Proof. rewrite fmap_app, elem_of_app. cbn. by rewrite list_elem_of_singleton. Qed.

Lemma lin_inv_swap s0 s p P t T : lin_inv s0 s p P t T → lin_inv s0 s t T p P.
Proof.
  intros [? ? ? ? ? ? [? ?] ? ? ?]. split; try done.
  - intros b ? ?. naive_solver.
  - intros b [?|?]; eauto.
  - intros b ? ?. eauto.
  - intros q ? ?. eauto.
Qed.

Lemma lin_inv_enq_p s0 s p P t T x :
  lin_inv s0 s p P t T →
  lin_inv s0 (enq_state s p x P) p (P ++ [enq_cell s x]) t T.
Proof.
  intros [Hp Ht Hne Hdisj Hfresh Hframe Hqfresh Hqframe Htree Hout].
  pose proof (queue_rep_fresh _ _ _ Hp) as HfP.
  pose proof (queue_rep_fresh _ _ _ Ht) as HfT.
  split; try done.
  - by apply enq_state_rep.
  - eapply queue_rep_frame; [| |exact Ht].
    + cbn. by rewrite lookup_insert_ne.
    + intros b Hb. apply enq_state_frame; [|by intros ->].
      intros ?. by eapply Hdisj.
  - intros b [?| ->]%elem_of_fst_snoc; eauto.
  - intros b [Hb|?]; [|eauto].
    apply elem_of_fst_snoc in Hb as [?| ->]; [eauto|].
    rewrite <-Hframe by done. apply fresh_loc_None.
  - intros b Hb ?. rewrite elem_of_fst_snoc in Hb.
    rewrite <-Hframe by eauto. apply enq_state_frame; eauto.
  - intros q ? ?. cbn. rewrite lookup_insert_ne by done. by apply Hqframe.
Qed.

Lemma lin_inv_enq_t s0 s p P t T x :
  lin_inv s0 s p P t T →
  lin_inv s0 (enq_state s t x T) p P t (T ++ [enq_cell s x]).
Proof. intros H. by apply lin_inv_swap, lin_inv_enq_p, lin_inv_swap. Qed.

Lemma lin_inv_deq_t s0 s p P t c T :
  lin_inv s0 s p P t (c :: T) →
  lin_inv s0 (upd QN (delete c.1 (qnodes s)) (deq_state s t T)) p P t T.
Proof.
  intros [Hp Ht Hne Hdisj Hfresh Hframe Hqfresh Hqframe Htree Hout].
  assert (c.1 ∉ T.*1) as HcT.
  { destruct Ht as (_ & _ & Hnd & _). rewrite fmap_cons in Hnd.
    by apply NoDup_cons in Hnd as [? _]. }
  assert (c.1 ∉ P.*1) as HcP.
  { intros Hin. apply (Hdisj _ Hin). rewrite fmap_cons. by left. }
  split; try done.
  - eapply queue_rep_frame; [| |exact Hp].
    + cbn. by rewrite lookup_insert_ne.
    + intros b Hb. cbn. rewrite lookup_delete_ne; [done|]. by intros <-.
  - eapply queue_rep_frame; [| |by eapply deq_state_rep].
    + done.
    + intros b Hb. cbn. rewrite lookup_delete_ne; [done|]. by intros <-.
  - intros b Hb ?. apply (Hdisj b Hb). rewrite fmap_cons. by right.
  - intros b [?|?]; apply Hfresh; [by left|right]. rewrite fmap_cons. by right.
  - intros b HbP HbT. cbn. destruct (decide (b = c.1)) as [->|Hbc].
    + rewrite lookup_delete_eq. symmetry. apply Hfresh. right. rewrite fmap_cons. by left.
    + rewrite lookup_delete_ne by done. apply Hframe; [done|].
      rewrite fmap_cons. by intros [?|?]%elem_of_cons.
  - intros q ? ?. cbn. rewrite lookup_insert_ne by done. by apply Hqframe.
Qed.

Lemma state_eta s :
  State (tnodes s) (llists s) (strs s) (queues s) (qnodes s) (stdout s) = s.
Proof. by destruct s. Qed.

Lemma free_Done {A} (R : region A) p s v :
  sel R s !! p = Some v → p ≠ NULL →
  free R p s = Done () (upd R (delete p (sel R s)) s).
Proof. intros. apply wp_eq. by eapply wp_free. Qed.

(** One [deQueue] on the to-do queue, the read of the cell, its [free]. *)
Lemma lin_inv_deq_step s0 s p P t T :
  lin_inv s0 s p P t T →
  ∃ s', lin_inv s0 s' p P t (tl T) ∧
    ∀ B (k : N → M B),
      (h ← deQueue t; next ← get QN QNode.dataSource h; free QN h;; k next) s
      = k (hd_data T) s'.
Proof.
  intros Hinv. destruct T as [|c T].
  - exists s. split; [done|]. intros B k.
    destruct (lin_t _ _ _ _ _ _ Hinv) as (Ht & Hqt & _).
    erewrite bind_Done by (by eapply deQueue_empty_spec).
    erewrite bind_Done.
    2:{ apply get_Done; [apply fresh_loc_NULL|apply lookup_insert_eq]. }
    erewrite bind_Done.
    2:{ eapply free_Done; [apply lookup_insert_eq|apply fresh_loc_NULL]. }
    cbn. rewrite delete_insert_eq, delete_id by apply fresh_loc_None.
    by rewrite state_eta.
  - eexists. split; [by apply lin_inv_deq_t|]. intros B k.
    pose proof (lin_t _ _ _ _ _ _ Hinv) as Hrep.
    erewrite bind_Done by (by eapply deQueue_spec).
    destruct Hrep as (_ & _ & _ & Hn & Hc & _).
    erewrite bind_Done by (by apply get_Done).
    by erewrite bind_Done by (by eapply free_Done).
Qed.

Section Linearizer.

Variables (s0 : state) (p t : N).

Lemma climb_branch_spec ks : ∀ fuel s P T,
  lin_inv s0 s p P t T →
  forest_in s0 ks NULL →
  (length ks < fuel)%nat →
  ∃ s' T', climb_branch fuel t (first_addr ks) s = Done () s' ∧
           lin_inv s0 s' p P t (T ++ T') ∧ T'.*2 = addr <$> ks.
Proof.
  induction ks as [|k ks IH]; intros fuel s P T Hinv Hks Hfuel.
  - exists s, []. destruct fuel as [|fuel]; [cbn in Hfuel; lia|].
    split; [done|]. by rewrite app_nil_r.
  - destruct fuel as [|fuel]; [cbn in Hfuel; lia|].
    destruct Hks as [Hk Hks]. cbn [first_addr climb_branch].
    destruct (decide (addr k = NULL)) as [E|_].
    { by destruct (tree_in_addr _ _ _ Hk). }
    destruct (IH fuel _ P _ (lin_inv_enq_t _ _ _ _ _ _ (addr k) Hinv) Hks)
      as (s' & T' & Hrun & Hinv' & HT'); [cbn in Hfuel; lia|].
    exists s', (enq_cell s (addr k) :: T'). split.
    + erewrite bind_Done by (eapply enQueue_spec, Hinv).
      destruct (lin_tree _ _ _ _ _ _ Hinv) as (Htn & _).
      erewrite bind_Done.
      2:{ apply get_Done; [by eapply tree_in_addr|]. cbn. rewrite Htn.
          exact (tree_in_tnode _ _ _ Hk). }
      exact Hrun.
    + split; [by rewrite cons_middle, app_assoc|]. cbn. by rewrite HT'.
Qed.

Lemma climb_tree_spec fuel : ∀ ts s P T,
  lin_inv s0 s p P t T →
  T.*2 = addr <$> tl ts →
  Forall (λ k, ∃ next, tree_in s0 k next) ts →
  (forest_size ts < fuel)%nat →
  ∃ s' P', climb_tree fuel p t (first_addr ts) s = Done () s' ∧
           lin_inv s0 s' p (P ++ P') t [] ∧ P'.*2 = addr <$> bfs ts.
Proof.
  induction fuel as [|fuel IH]; intros ts s P T Hinv HT Hts Hfuel; [lia|].
  destruct ts as [|k ts].
  - exists s, []. split; [done|]. rewrite app_nil_r.
    destruct T; [done|discriminate HT].
  - apply Forall_cons in Hts as [[next Hk] Hts]. cbn [first_addr climb_tree].
    destruct (decide (addr k = NULL)) as [E|_].
    { by destruct (tree_in_addr _ _ _ Hk). }
    cbn [forest_size] in Hfuel. rewrite size_kids in Hfuel.
    pose proof (forest_size_length (kids k)) as Hlen.
    pose proof (lin_inv_enq_p _ _ _ _ _ _ (addr k) Hinv) as Hinv1.
    destruct (climb_branch_spec (kids k) fuel _ _ _ Hinv1 (tree_in_kids _ _ _ Hk))
      as (s2 & T' & Hrun2 & Hinv2 & HT'); [lia|].
    destruct (lin_inv_deq_step _ _ _ _ _ _ Hinv2) as (s3 & Hinv3 & Hrun3).
    assert ((T ++ T').*2 = addr <$> (ts ++ kids k)) as HTT.
    { by rewrite !fmap_app, HT, HT'. }
    destruct (IH (ts ++ kids k) s3 _ _ Hinv3) as (s4 & P' & Hrun4 & Hinv4 & HP').
    { by rewrite !fmap_tail, HTT. }
    { apply Forall_app. split; [done|].
      eapply forest_in_Forall, tree_in_kids, Hk. }
    { rewrite forest_size_app. lia. }
    exists s4, (enq_cell s (addr k) :: P'). split.
    + erewrite bind_Done by (eapply enQueue_spec, Hinv).
      destruct (lin_tree _ _ _ _ _ _ Hinv) as (Htn & Hll & _).
      erewrite bind_Done.
      2:{ apply get_Done; [by eapply tree_in_addr|]. cbn. rewrite Htn.
          by apply (tree_in_tnode _ _ _ Hk). }
      cbn [TreeNode.children].
      destruct (tree_in_llist _ _ _ Hk) as [Hcl Hl].
      erewrite bind_Done.
      2:{ apply get_Done; [done|]. cbn. rewrite Hll. exact Hl. }
      cbn [LList.head].
      erewrite bind_Done by exact Hrun2.
      rewrite Hrun3.
      replace (hd_data (T ++ T')) with (first_addr (ts ++ kids k)); [exact Hrun4|].
      clear -HTT. destruct (T ++ T'), (ts ++ kids k); try done. by simplify_eq/=.
    + split; [by rewrite cons_middle, app_assoc|].
      rewrite bfs_cons. cbn. by rewrite HP'.
Qed.

End Linearizer.

Lemma createPrintQueue_spec s t next fuel :
  tree_in s t next → (size t < fuel)%nat →
  ∃ q s' P, createPrintQueue fuel (addr t) s = Done q s' ∧
            print_inv s s' q P ∧ P.*2 = addr <$> level_order t ∧
            stdout s' = stdout s.
Proof.
  intros Ht Hfuel. unfold createPrintQueue.
  set (p := fresh_loc (queues s)).
  set (s1 := upd Q (<[p := Queue.mk NULL NULL]> (queues s)) s).
  set (td := fresh_loc (queues s1)).
  set (s2 := upd Q (<[td := Queue.mk NULL NULL]> (queues s1)) s1).
  assert (p ≠ NULL) as Hp by apply fresh_loc_NULL.
  assert (td ≠ NULL) as Htd by apply fresh_loc_NULL.
  assert (queues s !! p = None) as Hpf by apply fresh_loc_None.
  assert (queues s1 !! td = None) as Htf by apply fresh_loc_None.
  assert (p ≠ td) as Hne.
  { intros E. rewrite <-E in Htf. cbn in Htf. by rewrite lookup_insert_eq in Htf. }
  cbn in Htf. rewrite lookup_insert_ne in Htf by done.
  assert (lin_inv s s2 p [] td []) as Hinv.
  { split; try done.
    - split; [done|]. cbn. rewrite lookup_insert_ne, lookup_insert_eq by done.
      split; [done|]. split; [apply NoDup_nil_2|done].
    - split; [done|]. cbn. rewrite lookup_insert_eq.
      split; [done|]. split; [apply NoDup_nil_2|done].
    - by intros b ?%elem_of_nil.
    - intros b [?%elem_of_nil|?%elem_of_nil]; done.
    - intros q ? ?. cbn. by rewrite !lookup_insert_ne. }
  destruct (climb_tree_spec s p td fuel [t] s2 [] [] Hinv) as (s3 & P & Hrun & Hinv3 & HP).
  { done. }
  { constructor; [eauto|constructor]. }
  { cbn. lia. }
  rewrite bfs_level_order in HP. cbn [app] in Hinv3.
  destruct Hinv3 as [Hp3 Ht3 _ _ Hfresh Hframe _ Hqframe Htree Hout].
  destruct Ht3 as (_ & Hqt & _).
  set (s4 := upd Q (delete td (queues s3)) s3).
  exists p, s4, P.
  split.
  { erewrite bind_Done by apply createQueue_spec.
    erewrite bind_Done by apply createQueue_spec.
    erewrite bind_Done by exact Hrun.
    apply wp_eq. repeat wp_step. apply wp_free_NULL.
    repeat wp_step. apply wp_free_NULL. repeat wp_step.
    eapply wp_free; [apply lookup_insert_eq|done|]. repeat wp_step.
    split; [done|]. unfold s4. cbn. f_equal.
    by rewrite !delete_insert_eq. }
  split; [|done]. split; try done.
  - eapply queue_rep_frame; [| |exact Hp3]; [|done].
    cbn. by rewrite lookup_delete_ne.
  - intros b ?. apply Hfresh. by left.
  - intros b ?. cbn. apply Hframe; [done|]. by intros ?%elem_of_nil.
  - intros q ?. cbn. destruct (decide (q = td)) as [->|?].
    + by rewrite lookup_delete_eq.
    + rewrite lookup_delete_ne by done. by apply Hqframe.
Qed.

(** In a tree whose levels grow by one from parent to child, level order is
    sorted by level. *)
Lemma levels_ok_Node a fn p l cl ks :
  levels_ok (Node a fn p l cl ks) ↔ Forall (λ k, level_of k = l + 1 ∧ levels_ok k) ks.
Proof.
  cbn [levels_ok]. split.
  - induction ks as [|k ks IH]; [done|]. intros [? ?]. constructor; [done|by apply IH].
  - induction 1 as [|k ks Hk _ IH]; [done|]. by split.
Qed.

Lemma levels_ok_kids l ts :
  Forall (λ t, level_of t = l ∧ levels_ok t) ts →
  Forall (λ t, level_of t = l + 1 ∧ levels_ok t) (ts ≫= kids).
Proof.
  induction 1 as [|t ts [Hl Hok] _ IH]; [done|].
  cbn [mbind list_bind]. apply Forall_app. split; [|done].
  destruct t as [a fn p l' cl ks]. cbn in Hl. subst l'.
  by apply levels_ok_Node in Hok.
Qed.

Lemma at_depth_levels d : ∀ l ts,
  Forall (λ t, level_of t = l ∧ levels_ok t) ts →
  Forall (λ t, level_of t = l + Z.of_nat d ∧ levels_ok t) (at_depth d ts).
Proof.
  induction d as [|d IH]; intros l ts Hts.
  - cbn. eapply Forall_impl; [done|]. intros t [? ?]. split; [lia|done].
  - cbn [at_depth]. eapply Forall_impl; [apply (IH (l + 1)), levels_ok_kids, Hts|].
    intros t [? ?]. split; [lia|done].
Qed.

Lemma levels_sorted n : ∀ l ts,
  Forall (λ t, level_of t = l ∧ levels_ok t) ts →
  StronglySorted Z.le (level_of <$> concat ((λ d, at_depth d ts) <$> seq 0 n)) ∧
  Forall (λ x, l ≤ x) (level_of <$> concat ((λ d, at_depth d ts) <$> seq 0 n)).
Proof.
  induction n as [|n IH]; intros l ts Hts.
  { split; constructor. }
  rewrite concat_levels, fmap_app.
  destruct (IH (l + 1) _ (levels_ok_kids _ _ Hts)) as [Hs Hge].
  assert (Forall (λ x, x = l) (level_of <$> ts)) as Hl.
  { apply Forall_fmap. eapply Forall_impl; [done|]. by intros t [? _]. }
  split.
  - apply StronglySorted_app_2; [| |done].
    + intros x1 x2 Hx1 Hx2. rewrite Forall_forall in Hl, Hge.
      rewrite (Hl x1 Hx1). specialize (Hge x2 Hx2). lia.
    + clear -Hl. induction Hl as [|x xs -> Hxs IHxs]; constructor; [done|].
      eapply Forall_impl; [done|]. cbn. lia.
  - apply Forall_app. split.
    + eapply Forall_impl; [done|]. cbn. lia.
    + eapply Forall_impl; [done|]. cbn. lia.
Qed.

Lemma level_order_sorted t :
  levels_ok t → StronglySorted Z.le (level_of <$> level_order t).
Proof.
  intros Hok. apply (levels_sorted (size t) (level_of t) [t]).
  by constructor.
Qed.

(** C1: on a tree [t] laid out in the heap, [createPrintQueue] returns
    normally (given fuel for its loops) a queue whose cells wrap, in order,
    the nodes of depth 0, then those of depth 1, and so on, each level left
    to right as the children lists give it.  The queue has as many cells as
    the tree has nodes, its contents are a rearrangement of the nodes of
    the tree (no node missing, none twice when the nodes are distinct
    blocks), and the tree itself is not modified.  When every child carries
    the level of its parent plus one, the levels stored in the queued nodes
    never decrease along the queue. *)
Theorem createPrintQueue_level_order s t next fuel :
  tree_in s t next → (size t < fuel)%nat →
  ∃ q s' P,
    createPrintQueue fuel (addr t) s = Done q s' ∧
    queue_rep s' q P ∧
    P.*2 = addr <$> concat ((λ d, at_depth d [t]) <$> seq 0 (size t)) ∧
    length P = size t ∧
    P.*2 ≡ₚ addr <$> nodes t ∧
    (NoDup (addr <$> nodes t) → NoDup P.*2) ∧
    (levels_ok t →
     StronglySorted Z.le
       (level_of <$> concat ((λ d, at_depth d [t]) <$> seq 0 (size t)))) ∧
    same_tree s s'.
Proof.
  intros Ht Hfuel.
  destruct (createPrintQueue_spec s t next fuel Ht Hfuel) as (q & s' & P & Hrun & Hinv & HP & _).
  exists q, s', P. split; [done|]. split; [apply Hinv|]. split; [done|].
  assert (P.*2 ≡ₚ addr <$> nodes t) as Hperm by (by rewrite HP, level_order_perm).
  split; [|split; [done|split; [|split; [|apply Hinv]]]].
  - by rewrite <-(length_fmap snd), HP, length_fmap, level_order_length.
  - intros Hnd. by rewrite Hperm.
  - apply level_order_sorted.
Qed.

(** ** The printer *)

Lemma int_wrap_id z : - 2 ^ 31 ≤ z < 2 ^ 31 → int_wrap z = z.
Proof. intros H. unfold int_wrap. rewrite Z.mod_small; lia. Qed.

Lemma append_cons c (a b : string) : String c a +:+ b = String c (a +:+ b).
Proof. reflexivity. Qed.

Lemma append_assoc (a b c : string) : (a +:+ b) +:+ c = a +:+ (b +:+ c).
Proof. induction a as [|x a IH]; [done|]. by rewrite !append_cons, IH. Qed.

Lemma append_nil_r (a : string) : a +:+ "" = a.
Proof. induction a as [|x a IH]; [done|]. by rewrite append_cons, IH. Qed.

Lemma length_append (a b : string) :
  String.length (a +:+ b) = (String.length a + String.length b)%nat.
Proof. induction a as [|x a IH]; [done|]. rewrite append_cons. cbn. by rewrite IH. Qed.

Lemma text_of_cons x l : text_of (x :: l) = x +:+ text_of l.
Proof. reflexivity. Qed.

Lemma lookup_foldr_delete {A} (m : gmap N A) (l : list N) b :
  foldr delete m l !! b = if decide (b ∈ l) then None else m !! b.
Proof.
  induction l as [|a l IH]; cbn.
  - destruct (decide (b ∈ [])) as [?%elem_of_nil|]; done.
  - destruct (decide (a = b)) as [->|Hne].
    + rewrite lookup_delete_eq. rewrite decide_True; [done|by left].
    + rewrite lookup_delete_ne, IH by done.
      destruct (decide (b ∈ l)).
      * rewrite decide_True; [done|by right].
      * rewrite decide_False; [done|]. by intros [?|?]%elem_of_cons.
Qed.

Lemma print_inv_without s q P : queue_rep s q P → print_inv (without_queue s q P) s q P.
Proof.
  intros Hrep. split; try done.
  - intros b Hb. cbn. rewrite lookup_foldr_delete. by rewrite decide_True.
  - intros b Hb. cbn. rewrite lookup_foldr_delete. by rewrite decide_False.
  - cbn. by rewrite lookup_delete_eq.
  - intros b Hb. cbn. by rewrite lookup_delete_ne.
Qed.

(** The state after one turn of the loop. *)
Lemma print_inv_step s0 s q c P line :
  print_inv s0 s q (c :: P) →
  print_inv s0 (State (tnodes s) (llists s) (strs s)
                      (<[q := Queue.mk (last_addr P) (hd_addr P)]> (queues s))
                      (delete c.1 (qnodes s)) (stdout s +:+ line)) q P.
Proof.
  intros [Hp Hfresh Hframe Hqfresh Hqframe Htree].
  assert (c.1 ∉ P.*1) as HcP.
  { destruct Hp as (_ & _ & Hnd & _). rewrite fmap_cons in Hnd.
    by apply NoDup_cons in Hnd as [? _]. }
  split; try done.
  - eapply queue_rep_frame; [| |by eapply deq_state_rep]; [done|].
    intros b Hb. cbn. rewrite lookup_delete_ne; [done|]. by intros <-.
  - intros b Hb. apply Hfresh. rewrite fmap_cons. by right.
  - intros b Hb. cbn. destruct (decide (b = c.1)) as [->|Hbc].
    + rewrite lookup_delete_eq. symmetry. apply Hfresh. rewrite fmap_cons. by left.
    + rewrite lookup_delete_ne by done. apply Hframe.
      rewrite fmap_cons. by intros [?|?]%elem_of_cons.
  - intros b Hb. cbn. rewrite lookup_insert_ne by done. by apply Hqframe.
Qed.

Lemma last_addr_NULL s q P : queue_rep s q P → last_addr P = NULL → P = [].
Proof.
  intros (_ & _ & _ & Hc) E. unfold last_addr in E.
  destruct (last P) as [c|] eqn:Hlast; [|by apply last_None].
  by destruct (qcells_last _ _ _ _ Hc Hlast).
Qed.

Lemma print_loop_spec s0 entries : ∀ fuel s q P order prev,
  print_inv s0 s q P →
  Forall2 (node_at s0) P.*2 entries →
  P ≠ [] →
  (length P ≤ fuel)%nat →
  ∃ s', print_loop fuel q order prev s = Done () s' ∧
        print_inv s0 s' q [] ∧
        stdout s' = stdout s +:+ text_of (print_lines order prev entries).
Proof.
  induction entries as [|e entries IH]; intros fuel s q P order prev Hinv Hent HP Hfuel.
  { apply Forall2_nil_inv_r in Hent. by destruct P. }
  destruct P as [|c P]; [done|]. clear HP.
  rewrite fmap_cons in Hent. apply Forall2_cons in Hent as [Hc Hent].
  destruct fuel as [|fuel]; [cbn in Hfuel; lia|]. cbn [print_lines].
  set (order' := int_wrap ((if decide (e.1 = prev) then order else 0) + 1)).
  set (line := format_line e.1 order' e.2).
  pose proof (print_inv_step _ _ _ _ _ line Hinv) as Hinv'.
  destruct Hc as (Hn & fn & ns & cl & Htn & Hfn & Hstr).
  destruct (pr_tree _ _ _ _ Hinv) as (Etn & Ell & Estr).
  pose proof (pr_p _ _ _ _ Hinv) as Hrep.
  assert (print_loop (S fuel) q order prev s
    = (if decide (last_addr P = NULL) then mret ()
       else print_loop fuel q order' e.1)
        (State (tnodes s) (llists s) (strs s)
               (<[q := Queue.mk (last_addr P) (hd_addr P)]> (queues s))
               (delete c.1 (qnodes s)) (stdout s +:+ line))) as Hstep.
  { cbn [print_loop]. erewrite bind_Done by (by eapply deQueue_spec).
    destruct Hrep as (Hq & _ & _ & Hcn & Hcl & _).
    erewrite bind_Done by (by apply get_Done).
    erewrite bind_Done by (apply get_Done; [done|cbn; rewrite Etn; exact Htn]).
    cbn [TreeNode.level QNode.dataSource].
    erewrite bind_Done by (apply get_Done; [done|cbn; rewrite Etn; exact Htn]).
    cbn [TreeNode.fileName].
    erewrite bind_Done.
    2:{ apply wp_eq. eapply wp_load; [|done]. apply deref_Some.
        split; [done|]. cbn. rewrite Estr. exact Hstr. }
    erewrite bind_Done by reflexivity.
    erewrite bind_Done.
    2:{ apply wp_eq. eapply wp_set_queuePrev; [|done]. by apply deref_Some. }
    erewrite bind_Done.
    2:{ eapply free_Done; [apply lookup_insert_eq|done]. }
    erewrite bind_Done.
    2:{ apply get_Done; [done|]. apply lookup_insert_eq. }
    cbn. by rewrite delete_insert_eq. }
  rewrite Hstep. clear Hstep.
  destruct (decide (last_addr P = NULL)) as [E|E].
  - apply (last_addr_NULL _ _ _ (pr_p _ _ _ _ Hinv')) in E as ->.
    apply Forall2_nil_inv_l in Hent as ->.
    eexists. split; [done|]. split; [done|]. cbn [stdout print_lines].
    rewrite text_of_cons. change (text_of []) with "". by rewrite append_nil_r.
  - assert (P ≠ []) as HP by (by intros ->).
    destruct (IH fuel _ q P order' e.1 Hinv' Hent HP) as (s' & Hrun & Hinv'' & Hout).
    { cbn in Hfuel. lia. }
    exists s'. split; [done|]. split; [done|]. rewrite Hout. cbn [stdout].
    by rewrite text_of_cons, append_assoc.
Qed.

Lemma printPrintQueue_spec s0 s q P entries fuel :
  print_inv s0 s q P →
  Forall2 (node_at s0) P.*2 entries →
  P ≠ [] →
  (length P ≤ fuel)%nat →
  ∃ s', printPrintQueue fuel q s = Done () s' ∧
        same_tree s0 s' ∧ qnodes s' = qnodes s0 ∧ queues s' = queues s0 ∧
        stdout s' = stdout s +:+ text_of (print_lines 0 0 entries).
Proof.
  intros Hinv Hent HP Hfuel.
  destruct (print_loop_spec s0 entries fuel s q P 0 0 Hinv Hent HP Hfuel)
    as (s1 & Hrun & [Hp _ Hframe Hqfresh Hqframe Htree] & Hout).
  destruct Hp as (Hq & Hqs & _).
  exists (upd Q (delete q (queues s1)) s1). split.
  { unfold printPrintQueue. erewrite bind_Done by exact Hrun. by eapply free_Done. }
  split; [done|]. split; [|split; [|done]].
  - apply map_eq. intros b. cbn. apply Hframe. by intros ?%elem_of_nil.
  - apply map_eq. intros b. cbn. destruct (decide (b = q)) as [->|Hb].
    + by rewrite lookup_delete_eq.
    + rewrite lookup_delete_ne by done. by apply Hqframe.
Qed.

Lemma run_position_bounds lvls i : 1 ≤ run_position lvls i ≤ Z.of_nat i + 1.
Proof.
  induction i as [|i IH]; [cbn; lia|]. cbn [run_position].
  destruct (decide (lvls !! i = lvls !! S i)); lia.
Qed.

Lemma print_lines_run entries : ∀ pre order prev,
  (pre = [] ∧ order = 0 ∨
   (∃ e0, last pre = Some e0 ∧ prev = e0.1) ∧
   order = run_position (pre ++ entries).*1 (length pre - 1)) →
  Z.of_nat (length (pre ++ entries)) < 2 ^ 31 →
  print_lines order prev entries =
  imap (λ i e, format_line e.1
                 (run_position (pre ++ entries).*1 (length pre + i)) e.2) entries.
Proof.
  induction entries as [|e entries IH]; intros pre order prev Hpre Hlen; [done|].
  cbn [print_lines imap].
  set (lvls := (pre ++ e :: entries).*1) in *.
  assert (int_wrap ((if decide (e.1 = prev) then order else 0) + 1)
          = run_position lvls (length pre)) as ->.
  { pose proof (run_position_bounds lvls (length pre)) as Hb.
    rewrite length_app in Hlen. cbn [length] in Hlen.
    destruct Hpre as [[-> ->]|[(e0 & Hlast & ->) ->]].
    - cbn. by destruct (decide (e.1 = prev)).
    - destruct (length pre) as [|j] eqn:Hj.
      { destruct pre; [done|discriminate Hj]. }
      replace (S j - 1)%nat with j by lia. cbn [run_position].
      assert (lvls !! j = Some e0.1) as ->.
      { unfold lvls. rewrite list_lookup_fmap, lookup_app_l by lia.
        rewrite last_lookup, Hj in Hlast. cbn in Hlast. by rewrite Hlast. }
      assert (lvls !! S j = Some e.1) as ->.
      { unfold lvls. rewrite list_lookup_fmap, lookup_app_r by lia.
        rewrite Hj, Nat.sub_diag. done. }
      pose proof (run_position_bounds lvls j).
      destruct (decide (e.1 = e0.1)) as [E|E].
      + rewrite decide_True by congruence. apply int_wrap_id. lia.
      + rewrite decide_False by congruence. done. }
  rewrite Nat.add_0_r. f_equal.
  rewrite (IH (pre ++ [e])).
  - apply imap_ext. intros i x _. cbn. rewrite length_app. cbn [length].
    rewrite <-app_assoc. cbn [app]. do 2 f_equal. lia.
  - right. split.
    + exists e. by rewrite last_snoc.
    + rewrite length_app. cbn [length]. rewrite <-app_assoc. cbn [app].
      f_equal. lia.
  - by rewrite <-app_assoc.
Qed.

Lemma print_lines_positions entries :
  Z.of_nat (length entries) < 2 ^ 31 →
  print_lines 0 0 entries =
  imap (λ i e, format_line e.1 (run_position entries.*1 i) e.2) entries.
Proof.
  intros Hlen. rewrite (print_lines_run entries [] 0 0); [done| |done].
  by left.
Qed.

Lemma filter_none {A} (P : A → Prop) `{∀ x, Decision (P x)} (l : list A) :
  Forall (λ x, ¬ P x) l → filter P l = [].
Proof.
  induction 1 as [|x l Hx _ IH]; [done|]. by rewrite filter_cons_False.
Qed.

(** In a sequence sorted by depth a run of one depth is all of that depth. *)
Lemma run_position_sorted lvls :
  StronglySorted Z.le lvls →
  ∀ i, (i < length lvls)%nat →
       run_position lvls i = 1 + Z.of_nat (earlier_same lvls i).
Proof.
  intros Hsorted i. unfold earlier_same. induction i as [|i IH]; intros Hi; [done|].
  cbn [run_position].
  destruct (lookup_lt_is_Some_2 lvls i) as [x Hx]; [lia|].
  destruct (lookup_lt_is_Some_2 lvls (S i)) as [y Hy]; [lia|].
  rewrite (take_S_r _ _ _ Hx), filter_app, length_app.
  rewrite Hx, Hy in *.
  destruct (decide (Some x = Some y)) as [E|E].
  - simplify_eq. rewrite IH by lia.
    rewrite filter_cons_True by done. rewrite filter_nil. cbn [length]. lia.
  - rewrite filter_cons_False by done. rewrite filter_nil. cbn [length].
    pose proof (StronglySorted_app_1_elem_of Z.le (take (S i) lvls) (drop (S i) lvls)) as H.
    rewrite take_drop in H.
    rewrite filter_none; [cbn; lia|].
    apply Forall_forall. intros z Hz Ez. simplify_eq.
    assert (y ≤ x) as Hyx.
    { pose proof (StronglySorted_app_1_elem_of Z.le (take i lvls) (drop i lvls)) as H'.
      rewrite take_drop in H'. apply (H' _ _ Hsorted); [done|].
      apply list_elem_of_lookup. exists 0%nat. by rewrite lookup_drop, Nat.add_0_r. }
    assert (x ≤ y) as Hxy.
    { apply (H _ _ Hsorted).
      - apply list_elem_of_lookup. exists i. by rewrite lookup_take_lt by lia.
      - apply list_elem_of_lookup. exists 0%nat. by rewrite lookup_drop, Nat.add_0_r. }
    apply E. f_equal. lia.
Qed.

(** C2: on a non-empty queue of tree nodes, [printPrintQueue] returns
    normally (given fuel for its loop and fewer than 2^31 entries, so that
    the [int] counter does not overflow) having appended to the output
    exactly one line per cell, in queue order and nothing else, the [i]th
    being [<level>:<position>:<path>] and a newline (two decimal numerals
    as [%d] writes them, a colon after each, the path, a newline: the
    text is read back digit by digit, without the printer), where the
    position is 1 at the first entry and at every change of level and one
    more than the position before otherwise; when the levels come sorted, as the
    linearizer delivers them, the position of an entry is one more than the
    number of earlier entries of its level, so that each level is numbered
    1, 2, ..., k.  The queue and its cells are released. *)
Theorem printPrintQueue_lines s q P entries fuel :
  queue_rep s q P →
  P ≠ [] →
  Forall2 (node_at s) P.*2 entries →
  (length P ≤ fuel)%nat →
  Z.of_nat (length P) < 2 ^ 31 →
  ∃ s',
    printPrintQueue fuel q s = Done () s' ∧
    stdout s' =
      stdout s +:+
      text_of (imap (λ i e, format_line e.1 (run_position entries.*1 i) e.2) entries) ∧
    (∃ lines,
       stdout s' = stdout s +:+ text_of lines ∧
       length lines = length entries ∧
       ∀ i e, entries !! i = Some e →
         ∃ line, lines !! i = Some line ∧
                 entry_line line e.1 (run_position entries.*1 i) e.2) ∧
    length entries = length P ∧
    (StronglySorted Z.le entries.*1 →
     ∀ i, (i < length entries)%nat →
          run_position entries.*1 i = 1 + Z.of_nat (earlier_same entries.*1 i)) ∧
    same_tree s s' ∧
    queues s' = delete q (queues s) ∧
    qnodes s' = foldr delete (qnodes s) P.*1.
Proof.
  intros Hrep HP Hent Hfuel Hlen.
  pose proof (print_inv_without s q P Hrep) as Hinv.
  assert (length entries = length P) as Hlen'.
  { apply Forall2_length in Hent. by rewrite length_fmap in Hent. }
  destruct (printPrintQueue_spec _ s q P entries fuel Hinv Hent HP Hfuel)
    as (s' & Hrun & Htree & Hqn & Hqs & Hout).
  assert (stdout s' = stdout s +:+
            text_of (imap (λ i e, format_line e.1 (run_position entries.*1 i) e.2)
                          entries)) as Hout'.
  { rewrite Hout, print_lines_positions; [done|lia]. }
  exists s'. split; [done|]. split; [done|]. split.
  { eexists. split; [exact Hout'|]. split; [by rewrite length_imap|].
    intros i e Hi. eexists. split.
    - rewrite list_lookup_imap, Hi. reflexivity.
    - apply format_line_reads. }
  split; [done|]. split.
  { intros Hsorted i Hi. apply run_position_sorted; [done|]. by rewrite length_fmap. }
  done.
Qed.

(** ** Releasing the tree *)

Lemma foldr_delete_app {A} (m : gmap N A) l1 l2 :
  foldr delete (foldr delete m l1) l2 = foldr delete m (l1 ++ l2).
Proof.
  apply map_eq. intros b. rewrite !lookup_foldr_delete.
  destruct (decide (b ∈ l2)), (decide (b ∈ l1)), (decide (b ∈ l1 ++ l2)) as [Hin|Hin];
    try done; rewrite elem_of_app in Hin; tauto.
Qed.

Lemma lookup_foldr_delete_notin {A} (m : gmap N A) l b :
  b ∉ l → foldr delete m l !! b = m !! b.
Proof. intros. rewrite lookup_foldr_delete. by rewrite decide_False. Qed.

Lemma tree_in_frame s s' t : ∀ next,
  (∀ n, n ∈ nodes t →
        tnodes s' !! addr n = tnodes s !! addr n ∧
        strs s' !! path_addr n = strs s !! path_addr n ∧
        llists s' !! list_addr n = llists s !! list_addr n) →
  tree_in s t next → tree_in s' t next.
Proof.
  induction t as [a fn p l cl ks IH] using tree_forall_ind. intros next Hf.
  rewrite !tree_in_Node. intros (? & ? & ? & Htn & Hstr & Hll & Hks).
  destruct (Hf (Node a fn p l cl ks)) as (E1 & E2 & E3).
  { rewrite nodes_kids. by left. }
  cbn in E1, E2, E3. rewrite E1, E2, E3. repeat (split; [done|]).
  assert (∀ n, n ∈ forest_nodes ks →
        tnodes s' !! addr n = tnodes s !! addr n ∧
        strs s' !! path_addr n = strs s !! path_addr n ∧
        llists s' !! list_addr n = llists s !! list_addr n) as Hf'.
  { intros n Hn. apply Hf. rewrite nodes_kids. by right. }
  clear -IH Hks Hf'. generalize dependent NULL.
  induction IH as [|k ks Hk _ IHks]; [done|]. intros e [? ?].
  split.
  - apply Hk; [|done]. intros n Hn. apply Hf'. cbn [forest_nodes].
    apply elem_of_app. by left.
  - apply IHks; [|done]. intros n Hn. apply Hf'. cbn [forest_nodes].
    apply elem_of_app. by right.
Qed.

Lemma forest_in_frame s s' ts e :
  (∀ n, n ∈ forest_nodes ts →
        tnodes s' !! addr n = tnodes s !! addr n ∧
        strs s' !! path_addr n = strs s !! path_addr n ∧
        llists s' !! list_addr n = llists s !! list_addr n) →
  forest_in s ts e → forest_in s' ts e.
Proof.
  induction ts as [|t ts IH]; [done|]. intros Hf [Ht Hts]. split.
  - eapply tree_in_frame; [|done]. intros n Hn. apply Hf. cbn [forest_nodes].
    apply elem_of_app. by left.
  - apply IH; [|done]. intros n Hn. apply Hf. cbn [forest_nodes].
    apply elem_of_app. by right.
Qed.

Lemma separate_cons_inv t ts :
  separate (t :: ts) →
  separate (kids t) ∧ separate ts ∧
  (∀ n, n ∈ forest_nodes (kids t) ∨ n ∈ forest_nodes ts →
        addr n ≠ addr t ∧ path_addr n ≠ path_addr t ∧ list_addr n ≠ list_addr t) ∧
  (∀ n m, n ∈ forest_nodes (kids t) → m ∈ forest_nodes ts →
          addr n ≠ addr m ∧ path_addr n ≠ path_addr m ∧ list_addr n ≠ list_addr m).
Proof.
  intros [H1 H2 H3]. cbn [forest_nodes] in *. rewrite nodes_kids in *.
  rewrite !fmap_app, !fmap_cons in *.
  apply NoDup_app in H1 as (H1 & H1' & H1''). apply NoDup_cons in H1 as [H1a H1].
  apply NoDup_app in H2 as (H2 & H2' & H2''). apply NoDup_cons in H2 as [H2a H2].
  apply NoDup_app in H3 as (H3 & H3' & H3''). apply NoDup_cons in H3 as [H3a H3].
  split; [done|]. split; [done|]. split.
  - intros n [Hn|Hn].
    + split; [|split]; intros E.
      * apply H1a. rewrite <-E. by apply list_elem_of_fmap_2.
      * apply H2a. rewrite <-E. by apply list_elem_of_fmap_2.
      * apply H3a. rewrite <-E. by apply list_elem_of_fmap_2.
    + split; [|split]; intros E.
      * apply (H1' (addr t)); [by left|]. rewrite <-E. by apply list_elem_of_fmap_2.
      * apply (H2' (path_addr t)); [by left|]. rewrite <-E. by apply list_elem_of_fmap_2.
      * apply (H3' (list_addr t)); [by left|]. rewrite <-E. by apply list_elem_of_fmap_2.
  - intros n m Hn Hm. split; [|split]; intros E.
    + apply (H1' (addr n)); [right; by apply list_elem_of_fmap_2|].
      rewrite E. by apply list_elem_of_fmap_2.
    + apply (H2' (path_addr n)); [right; by apply list_elem_of_fmap_2|].
      rewrite E. by apply list_elem_of_fmap_2.
    + apply (H3' (list_addr n)); [right; by apply list_elem_of_fmap_2|].
      rewrite E. by apply list_elem_of_fmap_2.
Qed.

Lemma not_elem_of_fmap_ne {A} (f : A → N) (l : list A) b :
  (∀ n, n ∈ l → f n ≠ b) → b ∉ f <$> l.
Proof. intros H (n & -> & Hn)%list_elem_of_fmap. by apply (H n). Qed.

(** The last eight statements of [chopTree]. *)
Lemma release_node s a fn l ns cl v p :
  a ≠ NULL → cl ≠ NULL → fn ≠ NULL →
  tnodes s !! a = Some (TreeNode.mk fn l ns cl) →
  llists s !! cl = Some v →
  strs s !! fn = Some p →
  (children ← get TN TreeNode.children a;
   free LL children;;
   set_children a NULL;;
   set_nextSibling a NULL;;
   fileName ← get TN TreeNode.fileName a;
   free STR fileName;;
   set_fileName a NULL;;
   free TN a) s
  = Done () (State (delete a (tnodes s)) (delete cl (llists s)) (delete fn (strs s))
                   (queues s) (qnodes s) (stdout s)).
Proof.
  intros Ha Hcl Hfn Htn Hll Hstr. apply wp_eq.
  repeat wp_step. eapply wp_free; [done|done|]. repeat wp_step.
  eapply wp_free; [done|done|]. repeat wp_step.
  eapply wp_free; [apply lookup_insert_eq|done|]. wp_simpl.
  split; [done|]. f_equal. by rewrite !insert_insert_eq, delete_insert_eq.
Qed.

Lemma first_addr_NULL s ts e : forest_in s ts e → first_addr ts = NULL → ts = [].
Proof.
  destruct ts as [|t ts]; [done|]. intros [Ht _] E.
  by destruct (tree_in_addr _ _ _ Ht).
Qed.

Lemma chop_state_nil s : chop_state s [] = s.
Proof. apply state_eta. Qed.

Lemma chopTree_spec fuel : ∀ ts s,
  forest_in s ts NULL → separate ts → (forest_size ts < fuel)%nat →
  chopTree fuel (first_addr ts) s = Done () (chop_state s ts).
Proof.
  induction fuel as [|fuel IH]; intros ts s Hin Hsep Hfuel; [lia|].
  destruct ts as [|t ts]; [by rewrite chop_state_nil|].
  destruct Hin as [Ht Hts]. cbn [first_addr chopTree].
  destruct (decide (addr t = NULL)) as [E|_].
  { by destruct (tree_in_addr _ _ _ Ht). }
  destruct (separate_cons_inv _ _ Hsep) as (Hsk & Hst & Hroot & Hcross).
  cbn [forest_size] in Hfuel. rewrite size_kids in Hfuel.
  pose proof (tree_in_addr _ _ _ Ht) as Ha.
  pose proof (tree_in_tnode _ _ _ Ht) as Htn.
  destruct (tree_in_llist _ _ _ Ht) as [Hcl Hll].
  destruct (tree_in_path _ _ _ Ht) as [Hfn Hstr].
  pose proof (tree_in_kids _ _ _ Ht) as Hks.
  erewrite bind_Done by (by apply get_Done).
  cbn [TreeNode.children].
  rewrite (bind_Done _ _ s () (chop_state s (kids t))); cycle 1.
  { destruct (decide (list_addr t = NULL)) as [?|_]; [done|].
    erewrite bind_Done by (by apply get_Done). cbn [LList.head].
    destruct (decide (first_addr (kids t) = NULL)) as [E|_].
    - apply (first_addr_NULL _ _ _ Hks) in E. rewrite E.
      by rewrite chop_state_nil.
    - apply IH; [done|done|lia]. }
  (* the siblings *)
  assert (tnodes (chop_state s (kids t)) !! addr t = tnodes s !! addr t) as E1.
  { cbn. apply lookup_foldr_delete_notin, not_elem_of_fmap_ne.
    intros n Hn. by apply Hroot; left. }
  erewrite bind_Done by (apply get_Done; [done|exact (eq_trans E1 Htn)]).
  cbn [TreeNode.nextSibling].
  rewrite (bind_Done _ _ _ () (chop_state (chop_state s (kids t)) ts)); cycle 1.
  { destruct (decide (next_sibling ts NULL = NULL)) as [E|_].
    - change (next_sibling ts NULL) with (first_addr ts) in E.
      apply (first_addr_NULL _ _ _ Hts) in E. rewrite E.
      by rewrite chop_state_nil.
    - apply (IH ts); [|done|lia].
      eapply forest_in_frame; [|done]. intros n Hn. cbn.
      rewrite !lookup_foldr_delete_notin; [done|..];
        apply not_elem_of_fmap_ne; intros m Hm E;
        destruct (Hcross m n Hm Hn) as (? & ? & ?); congruence. }
  (* the node itself *)
  set (s2 := chop_state (chop_state s (kids t)) ts).
  assert (tnodes s2 !! addr t = tnodes s !! addr t) as E2.
  { cbn. rewrite !lookup_foldr_delete_notin; [done|..];
      apply not_elem_of_fmap_ne; intros n Hn; eapply Hroot; eauto. }
  assert (llists s2 !! list_addr t = llists s !! list_addr t) as E3.
  { cbn. rewrite !lookup_foldr_delete_notin; [done|..];
      apply not_elem_of_fmap_ne; intros n Hn; eapply Hroot; eauto. }
  assert (strs s2 !! path_addr t = strs s !! path_addr t) as E4.
  { cbn. rewrite !lookup_foldr_delete_notin; [done|..];
      apply not_elem_of_fmap_ne; intros n Hn; eapply Hroot; eauto. }
  rewrite (release_node s2 _ _ _ _ _ _ _ Ha Hcl Hfn
             (eq_trans E2 Htn) (eq_trans E3 Hll) (eq_trans E4 Hstr)).
  f_equal. unfold s2, chop_state.
  cbn [tnodes llists strs queues qnodes stdout forest_nodes].
  rewrite nodes_kids, !fmap_app, !fmap_cons. cbn [app foldr].
  by rewrite !foldr_delete_app.
Qed.

Lemma tree_in_nodes s t : ∀ next n,
  tree_in s t next → n ∈ nodes t → ∃ next', tree_in s n next'.
Proof.
  induction t as [a fn p l cl ks IH] using tree_forall_ind. intros next n Ht.
  rewrite nodes_kids. intros [->|Hn]%elem_of_cons; [eauto|].
  apply tree_in_kids in Ht. cbn [kids] in *. clear -IH Ht Hn.
  generalize dependent NULL.
  induction IH as [|k ks Hk _ IHks]; intros e Hks.
  - by apply elem_of_nil in Hn.
  - destruct Hks as [Hk' Hks]. cbn [forest_nodes] in Hn.
    apply elem_of_app in Hn as [Hn|Hn]; [by eapply Hk|by eapply IHks].
Qed.

Lemma tree_in_node_at s t next : tree_in s t next → node_at s (addr t) (entry_of t).
Proof.
  intros Ht. split; [by eapply tree_in_addr|].
  exists (path_addr t), next, (list_addr t).
  split; [by apply tree_in_tnode|]. by apply (tree_in_path _ _ _ Ht).
Qed.

Lemma level_order_entries s t next :
  tree_in s t next →
  Forall2 (node_at s) (addr <$> level_order t) (entry_of <$> level_order t).
Proof.
  intros Ht. apply Forall2_fmap, Forall_Forall2_diag, Forall_forall.
  intros n Hn. rewrite level_order_perm in Hn.
  destruct (tree_in_nodes _ _ _ _ Ht Hn) as [next' Hn'].
  by eapply tree_in_node_at.
Qed.

Lemma print_and_release_spec s t fuel :
  tree_in s t NULL → separate [t] → (size t < fuel)%nat →
  print_and_release fuel (addr t) s =
  Done () (State (tnodes (chop_state s [t])) (llists (chop_state s [t]))
                 (strs (chop_state s [t])) (queues s) (qnodes s)
                 (stdout s +:+ text_of (print_lines 0 0 (entry_of <$> level_order t)))).
Proof.
  intros Ht Hsep Hfuel. unfold print_and_release.
  destruct (createPrintQueue_spec s t NULL fuel Ht Hfuel)
    as (q & s1 & P & Hrun1 & Hinv & HP & Hout1).
  assert (length P = size t) as Hlen.
  { by rewrite <-(length_fmap snd), HP, length_fmap, level_order_length. }
  destruct (printPrintQueue_spec s s1 q P (entry_of <$> level_order t) fuel Hinv)
    as (s2 & Hrun2 & Htree & Hqn & Hqs & Hout2).
  { rewrite HP. by eapply level_order_entries. }
  { pose proof (size_pos t). intros ->. cbn in Hlen. lia. }
  { lia. }
  erewrite bind_Done by exact Hrun1. erewrite bind_Done by exact Hrun2.
  change (addr t) with (first_addr [t]). rewrite chopTree_spec.
  - f_equal. destruct Htree as (E1 & E2 & E3). unfold chop_state.
    cbn [tnodes llists strs queues qnodes stdout].
    by rewrite E1, E2, E3, Hqn, Hqs, Hout2, Hout1.
  - split; [|done]. eapply tree_in_ext; [|exact Ht]. done.
  - done.
  - cbn. lia.
Qed.

Lemma chop_state_only s ts :
  only_trees s ts →
  tnodes (chop_state s ts) = ∅ ∧ llists (chop_state s ts) = ∅ ∧
  strs (chop_state s ts) = ∅.
Proof.
  intros [H1 H2 H3 _ _]. cbn. split; [|split]; apply map_eq; intros b;
    rewrite lookup_foldr_delete, lookup_empty; destruct (decide _); auto.
Qed.

(** C8: on a tree laid out in the heap whose nodes own their blocks
    exclusively, [chopTree] returns normally (given fuel for its recursion)
    having released the [TreeNode], the path string and the [LList] of every
    node, and nothing else; a second [free] of a block would be undefined
    behaviour, not a normal return.  A leaf is the base case: a node with no
    children releases just its own three blocks.  Run after the linearizer
    and the printer, as in [main], it leaves the queue regions exactly as
    they were before the linearizer ran, so every queue and queue cell has
    been released as well; and when the heap held nothing but the tree,
    nothing at all is left allocated. *)
Theorem chopTree_releases_all s t fuel :
  tree_in s t NULL → separate [t] → (size t < fuel)%nat →
  chopTree fuel (addr t) s = Done () (chop_state s [t]) ∧
  (kids t = [] →
   chop_state s [t] =
   State (delete (addr t) (tnodes s)) (delete (list_addr t) (llists s))
         (delete (path_addr t) (strs s)) (queues s) (qnodes s) (stdout s)) ∧
  (∃ out s',
     print_and_release fuel (addr t) s = Done () s' ∧
     tnodes s' = tnodes (chop_state s [t]) ∧
     llists s' = llists (chop_state s [t]) ∧
     strs s' = strs (chop_state s [t]) ∧
     queues s' = queues s ∧ qnodes s' = qnodes s ∧
     stdout s' = stdout s +:+ out ∧
     (only_trees s [t] → s' = State ∅ ∅ ∅ ∅ ∅ (stdout s +:+ out))).
Proof.
  intros Ht Hsep Hfuel. split; [|split].
  - change (addr t) with (first_addr [t]). apply chopTree_spec; [by split|done|].
    cbn. lia.
  - intros Hk. unfold chop_state. cbn [forest_nodes]. rewrite nodes_kids, Hk.
    done.
  - eexists _, _. split; [by apply print_and_release_spec|].
    repeat (split; [reflexivity|]).
    intros Honly. destruct (chop_state_only _ _ Honly) as (E1 & E2 & E3).
    by rewrite E1, E2, E3, (only_q _ _ Honly), (only_qn _ _ Honly).
Qed.

(** ** The builder *)

Lemma wpf_bind {A B} bad (m : M A) (f : A → M B) s Φ :
  wpf bad m s (λ a s', wpf bad (f a) s' Φ) → wpf bad (m ≫= f) s Φ.
Proof. unfold wpf, mbind, M_bind. by destruct (m s). Qed.

Lemma wpf_Done {A B} bad (m : M A) (f : A → M B) s a s' Φ :
  m s = Done a s' → wpf bad (f a) s' Φ → wpf bad (m ≫= f) s Φ.
Proof. intros Hm. unfold wpf. by erewrite bind_Done. Qed.

Lemma wpf_mono {A} (bad bad' : Prop) (m : M A) s (Φ Ψ : A → state → Prop) :
  wpf bad m s Φ → (bad → bad') → (∀ a s', Φ a s' → Ψ a s') → wpf bad' m s Ψ.
Proof. unfold wpf. destruct (m s); try done; auto. Qed.

Lemma wpf_ret {A} bad (a : A) s (Φ : A → state → Prop) : Φ a s → wpf bad (mret a) s Φ.
Proof. done. Qed.

Lemma createLList_spec s :
  createLList s =
  Done (fresh_loc (llists s))
       (upd LL (<[fresh_loc (llists s) := LList.mk NULL NULL]> (llists s)) s).
Proof.
  apply wp_eq. unfold createLList. do 2 wp_step.
  destruct (decide (fresh_loc (llists s) = NULL)) as [E|_].
  { by destruct (fresh_loc_NULL (llists s)). }
  repeat wp_step. by rewrite !insert_insert_eq.
Qed.

Lemma strdup_spec text s :
  strdup text s =
  Done (fresh_loc (strs s)) (upd STR (<[fresh_loc (strs s) := text]> (strs s)) s).
Proof.
  apply wp_eq. unfold strdup. do 2 wp_step.
  destruct (decide (fresh_loc (strs s) = NULL)) as [E|_].
  { by destruct (fresh_loc_NULL (strs s)). }
  repeat wp_step. by rewrite !insert_insert_eq.
Qed.

Lemma createTreeNode_spec name lvl s :
  createTreeNode name lvl s = Done (fresh_loc (tnodes s)) (new_node_state s name lvl).
Proof.
  apply wp_eq. unfold createTreeNode. do 2 wp_step.
  destruct (decide (fresh_loc (tnodes s) = NULL)) as [E|_].
  { by destruct (fresh_loc_NULL (tnodes s)). }
  wp_step. eapply wp_of_eq; [apply strdup_spec|]. wp_simpl.
  repeat wp_step. eapply wp_of_eq; [apply createLList_spec|]. wp_simpl.
  repeat wp_step. split; [done|]. unfold new_node_state.
  by rewrite !insert_insert_eq.
Qed.

Lemma forest_in_snoc s ks x e :
  forest_in s (ks ++ [x]) e ↔ forest_in s ks (addr x) ∧ tree_in s x e.
Proof.
  induction ks as [|k ks IH].
  - cbn. tauto.
  - cbn [app forest_in]. fold (forest_in s). rewrite IH.
    assert (next_sibling (ks ++ [x]) e = next_sibling ks (addr x)) as ->
      by (by destruct ks).
    tauto.
Qed.

Lemma forest_in_last s ks e k :
  forest_in s ks e → last ks = Some k → tree_in s k e.
Proof.
  intros Hks Hlast. destruct (last_Some ks k) as [[ks' ->] _]; [done|].
  by apply forest_in_snoc in Hks as [_ ?].
Qed.

Lemma forest_in_nodes s ts e n :
  forest_in s ts e → n ∈ forest_nodes ts → ∃ next, tree_in s n next.
Proof.
  induction ts as [|t ts IH]; [by intros _ ?%elem_of_nil|].
  intros [Ht Hts]. cbn [forest_nodes]. intros [Hn|Hn]%elem_of_app.
  - by eapply tree_in_nodes.
  - by apply IH.
Qed.

Lemma forest_in_live s ts e n :
  forest_in s ts e → n ∈ forest_nodes ts →
  is_Some (tnodes s !! addr n) ∧ is_Some (strs s !! path_addr n) ∧
  is_Some (llists s !! list_addr n).
Proof.
  intros Hts Hn. destruct (forest_in_nodes _ _ _ _ Hts Hn) as [next Ht].
  rewrite (tree_in_tnode _ _ _ Ht).
  destruct (tree_in_path _ _ _ Ht) as [_ ->].
  destruct (tree_in_llist _ _ _ Ht) as [_ ->]. eauto.
Qed.

Lemma first_addr_snoc ks x :
  first_addr (ks ++ [x]) = match ks with [] => addr x | k :: _ => addr k end.
Proof. by destruct ks. Qed.

Lemma last_tree_addr_snoc ks x : last_tree_addr (ks ++ [x]) = addr x.
Proof. unfold last_tree_addr. by rewrite last_snoc. Qed.

Lemma forest_nodes_snoc ks x :
  forest_nodes (ks ++ [x]) = forest_nodes ks ++ x :: forest_nodes (kids x).
Proof.
  rewrite forest_nodes_app. cbn [forest_nodes]. by rewrite app_nil_r, nodes_kids.
Qed.

Lemma last_forest_nodes ks k : last ks = Some k → k ∈ forest_nodes ks.
Proof.
  intros Hlast. destruct (last_Some ks k) as [[ks' ->] _]; [done|].
  rewrite forest_nodes_snoc. apply elem_of_app. right. by left.
Qed.

Lemma appendChild_spec s par fn l ns cl ks child :
  par ≠ NULL → cl ≠ NULL →
  tnodes s !! par = Some (TreeNode.mk fn l ns cl) →
  llists s !! cl = Some (LList.mk (first_addr ks) (last_tree_addr ks)) →
  forest_in s ks NULL →
  appendChild par child s = Done () (append_state s cl ks child).
Proof.
  intros Hpar Hcl Htn Hll Hks. apply wp_eq. unfold appendChild, append_state, link_last.
  repeat wp_step.
  destruct (last ks) as [k|] eqn:Hlast.
  - pose proof (forest_in_last _ _ _ _ Hks Hlast) as Hk.
    destruct ks as [|k0 ks]; [done|]. destruct Hks as [Hk0 _].
    unfold last_tree_addr. rewrite Hlast. cbn [first_addr].
    destruct (decide (addr k0 = NULL ∧ addr k = NULL)) as [[E _]|_].
    { by destruct (tree_in_addr _ _ _ Hk0). }
    pose proof (tree_in_addr _ _ _ Hk). pose proof (tree_in_tnode _ _ _ Hk).
    repeat wp_step. done.
  - apply last_None in Hlast as ->. cbn [first_addr last_tree_addr last].
    destruct (decide (NULL = NULL ∧ NULL = NULL)) as [_|[]]; [|done].
    repeat wp_step. split; [done|]. by rewrite insert_insert_eq.
Qed.

(** A new last sibling: the old last sibling points to it. *)
Lemma forest_in_link s ks a :
  forest_in s ks NULL → NoDup (addr <$> forest_nodes ks) →
  forest_in (upd TN (link_last ks a (tnodes s)) s) ks a.
Proof.
  unfold link_last. intros Hks Hnd.
  destruct (last ks) as [k|] eqn:Hlast; [|by apply last_None in Hlast as ->].
  destruct (last_Some ks k) as [[ks' ->] _]; [done|]. clear Hlast.
  apply forest_in_snoc in Hks as [Hks' Hk]. apply forest_in_snoc.
  rewrite forest_nodes_snoc, fmap_app, fmap_cons in Hnd.
  apply NoDup_app in Hnd as (_ & Hdisj & Hnd). apply NoDup_cons in Hnd as [Hk' _].
  split.
  - eapply forest_in_frame; [|done]. intros n Hn. cbn.
    rewrite lookup_insert_ne; [done|]. intros E.
    apply (Hdisj (addr n)); [by apply list_elem_of_fmap_2|]. rewrite <-E. by left.
  - destruct k as [b fn p l cl ks]. apply tree_in_Node in Hk.
    destruct Hk as (? & ? & ? & ? & ? & ? & Hkk). apply tree_in_Node.
    repeat (split; [done|]). cbn. rewrite lookup_insert_eq.
    repeat (split; [done|]).
    eapply forest_in_frame; [|done]. intros n Hn. cbn.
    rewrite lookup_insert_ne; [done|]. intros E. apply Hk'.
    cbn. rewrite E. by apply list_elem_of_fmap_2.
Qed.

Lemma grows_old {A} (m0 m : gmap N A) f ts b v :
  grows m0 m f ts → m0 !! b = Some v → m !! b = Some v.
Proof.
  intros [_ Hfresh Hframe] Hb. rewrite Hframe; [done|].
  intros Hin. apply Hfresh in Hin. congruence.
Qed.

Lemma grown_list s0 s cl ks :
  grown s0 s cl ks →
  llists s !! cl = Some (LList.mk (first_addr ks) (last_tree_addr ks)).
Proof.
  intros G. eapply grows_old; [apply (grown_ll _ _ _ _ G)|]. apply lookup_insert_eq.
Qed.

Lemma grown_append s0 s cl ks name lvl :
  grown s0 s cl ks →
  grown s0 (append_state (new_node_state s name lvl) cl ks (fresh_loc (tnodes s)))
        cl (ks ++ [new_leaf s name lvl]).
Proof.
  intros [Hks [Ntn Ftn Rtn] [Nstr Fstr Rstr] [Nll Fll Rll] Hq Hqn Hout].
  pose proof (grown_list _ _ _ _ (Grown _ _ _ _ Hks (Grows _ _ _ _ _ Ntn Ftn Rtn)
    (Grows _ _ _ _ _ Nstr Fstr Rstr) (Grows _ _ _ _ _ Nll Fll Rll) Hq Hqn Hout)) as Hcl.
  set (a := fresh_loc (tnodes s)). set (fn := fresh_loc (strs s)).
  set (cl' := fresh_loc (llists s)).
  assert (tnodes s !! a = None) as Ha by apply fresh_loc_None.
  assert (strs s !! fn = None) as Hfn by apply fresh_loc_None.
  assert (llists s !! cl' = None) as Hcl' by apply fresh_loc_None.
  assert (cl' ≠ cl) as Hne by congruence.
  assert (∀ n, n ∈ forest_nodes ks →
               addr n ≠ a ∧ path_addr n ≠ fn ∧ list_addr n ≠ cl' ∧ list_addr n ≠ cl)
    as Hlive.
  { intros n Hn. destruct (forest_in_live _ _ _ _ Hks Hn) as ([? ?] & [? ?] & [? ?]).
    repeat split; try congruence. intros E.
    assert (list_addr n ∈ list_addr <$> forest_nodes ks) as Hin
      by (by apply list_elem_of_fmap_2).
    apply Fll in Hin. rewrite E, lookup_insert_eq in Hin. done. }
  assert (a ∉ addr <$> forest_nodes ks) as Ha'.
  { apply not_elem_of_fmap_ne. intros n Hn. by apply Hlive. }
  assert (fn ∉ path_addr <$> forest_nodes ks) as Hfn'.
  { apply not_elem_of_fmap_ne. intros n Hn. by apply Hlive. }
  assert (cl' ∉ list_addr <$> forest_nodes ks) as Hcl''.
  { apply not_elem_of_fmap_ne. intros n Hn. by apply Hlive. }
  assert (∀ b, b ≠ a → b ∉ addr <$> forest_nodes ks →
               link_last ks a (<[a := TreeNode.mk fn lvl NULL cl']> (tnodes s)) !! b
               = tnodes s !! b) as Hlink.
  { intros b Hb Hb'. unfold link_last. destruct (last ks) as [k|] eqn:Hlast.
    - rewrite !lookup_insert_ne; [done|done|]. intros <-. apply Hb'.
      by apply list_elem_of_fmap_2, last_forest_nodes.
    - by rewrite lookup_insert_ne. }
  assert (∀ m : gmap N TreeNode.t, link_last ks a m !! a = m !! a) as Hlink_a.
  { intros m. unfold link_last. destruct (last ks) as [k|] eqn:Hlast; [|done].
    rewrite lookup_insert_ne; [done|]. intros E. apply Ha'. rewrite <-E.
    by apply list_elem_of_fmap_2, last_forest_nodes. }
  assert (∀ b, b ∈ addr <$> forest_nodes (ks ++ [Node a fn name lvl cl' []])
               ↔ b ∈ addr <$> forest_nodes ks ∨ b = a) as Etn.
  { intros b. rewrite forest_nodes_snoc, fmap_app, elem_of_app. cbn.
    by rewrite list_elem_of_singleton. }
  assert (∀ b, b ∈ path_addr <$> forest_nodes (ks ++ [Node a fn name lvl cl' []])
               ↔ b ∈ path_addr <$> forest_nodes ks ∨ b = fn) as Estr.
  { intros b. rewrite forest_nodes_snoc, fmap_app, elem_of_app. cbn.
    by rewrite list_elem_of_singleton. }
  assert (∀ b, b ∈ list_addr <$> forest_nodes (ks ++ [Node a fn name lvl cl' []])
               ↔ b ∈ list_addr <$> forest_nodes ks ∨ b = cl') as Ell.
  { intros b. rewrite forest_nodes_snoc, fmap_app, elem_of_app. cbn.
    by rewrite list_elem_of_singleton. }
  assert (∀ f : tree → N, NoDup (f <$> forest_nodes ks) →
            f (Node a fn name lvl cl' []) ∉ f <$> forest_nodes ks →
            NoDup (f <$> forest_nodes (ks ++ [Node a fn name lvl cl' []]))) as Hnd.
  { intros f Hf Hfa. rewrite forest_nodes_snoc, fmap_app. apply NoDup_app.
    split; [done|]. split; [|apply NoDup_singleton].
    intros b Hb Hb'. apply list_elem_of_singleton in Hb'. by subst b. }
  unfold new_leaf. fold a fn cl'.
  split; cbn [tnodes llists strs queues qnodes stdout append_state new_node_state];
    fold a fn cl'; try done.
  - apply forest_in_snoc. split.
    + eapply forest_in_frame; cycle 1.
      * apply (forest_in_link (new_node_state s name lvl) ks a); [|done].
        eapply forest_in_frame; [|exact Hks]. intros n Hn. cbn.
        destruct (Hlive n Hn) as (? & ? & ? & ?). by rewrite !lookup_insert_ne.
      * intros n Hn. cbn. destruct (Hlive n Hn) as (? & ? & ? & ?).
        by rewrite !lookup_insert_ne.
    + apply tree_in_Node. split; [apply fresh_loc_NULL|].
      split; [apply fresh_loc_NULL|]. split; [apply fresh_loc_NULL|]. cbn.
      rewrite Hlink_a, !lookup_insert_eq. rewrite lookup_insert_ne by done.
      by rewrite lookup_insert_eq.
  - split.
    + by apply (Hnd addr).
    + intros b [Hb| ->]%Etn; [by apply Ftn|]. by rewrite <-Rtn.
    + intros b Hb. rewrite Etn in Hb. rewrite Hlink by eauto. apply Rtn. eauto.
  - split.
    + by apply (Hnd path_addr).
    + intros b [Hb| ->]%Estr; [by apply Fstr|]. by rewrite <-Rstr.
    + intros b Hb. rewrite Estr in Hb. rewrite lookup_insert_ne by eauto.
      apply Rstr. eauto.
  - rewrite first_addr_snoc, last_tree_addr_snoc. cbn [addr]. split.
    + by apply (Hnd list_addr).
    + intros b [Hb| ->]%Ell.
      * specialize (Fll b Hb). destruct (decide (b = cl)) as [->|?].
        { by rewrite lookup_insert_eq in Fll. }
        by rewrite lookup_insert_ne in Fll |- * by done.
      * rewrite lookup_insert_ne by done. rewrite Rll in Hcl' by done.
        by rewrite lookup_insert_ne in Hcl' by done.
    + intros b Hb. rewrite Ell in Hb. destruct (decide (b = cl)) as [->|?].
      { by rewrite !lookup_insert_eq. }
      rewrite !lookup_insert_ne by eauto. rewrite Rll by eauto.
      by rewrite lookup_insert_ne.
Qed.

Lemma grows_compose {A} (m0 m1 mb m2 : gmap N A) f ks leaf k' :
  f k' = f leaf → kids leaf = [] →
  grows m0 m1 f (ks ++ [leaf]) →
  grows mb m2 f (kids k') →
  (∀ b, b ∈ f <$> forest_nodes (ks ++ [leaf]) → is_Some (mb !! b)) →
  (∀ b, b ≠ f leaf → mb !! b = m1 !! b) →
  grows m0 m2 f (ks ++ [k']).
Proof.
  intros Ef Hleaf [N1 F1 R1] [N2 F2 R2] Hlive Hmb.
  assert (f <$> forest_nodes (ks ++ [k']) =
          (f <$> forest_nodes (ks ++ [leaf])) ++ (f <$> forest_nodes (kids k'))) as E.
  { rewrite !forest_nodes_snoc, Hleaf, !fmap_app, !fmap_cons, Ef.
    cbn [forest_nodes fmap list_fmap]. by rewrite <-app_assoc. }
  assert (f leaf ∈ f <$> forest_nodes (ks ++ [leaf])) as Hin.
  { rewrite forest_nodes_snoc, fmap_app, fmap_cons. apply elem_of_app. right. by left. }
  assert (∀ b, b ∈ f <$> forest_nodes (kids k') →
               b ∉ f <$> forest_nodes (ks ++ [leaf])) as Hdisj.
  { intros b Hb Hb'. apply Hlive in Hb' as [v Hv]. apply F2 in Hb. congruence. }
  split; rewrite ?E.
  - apply NoDup_app. split; [done|]. split; [|done]. intros b Hb Hb'.
    by apply (Hdisj b).
  - intros b [Hb|Hb]%elem_of_app; [by apply F1|].
    rewrite <-R1 by (by apply Hdisj). rewrite <-Hmb; [by apply F2|].
    intros ->. by apply (Hdisj (f leaf)).
  - intros b [Hb1 Hb2]%not_elem_of_app. rewrite R2 by done.
    rewrite Hmb by (by intros ->). by apply R1.
Qed.

Lemma grown_compose s0 s2 s3 cl ks a fn cp lvl cl' ks'' :
  grown s0 s2 cl (ks ++ [Node a fn cp lvl cl' []]) →
  grown s2 s3 cl' ks'' →
  grown s0 s3 cl (ks ++ [Node a fn cp lvl cl' ks'']).
Proof.
  intros [Hks Gtn Gstr Gll Hq Hqn Hout] G2.
  pose proof (grown_list _ _ _ _ G2) as Hcl'.
  destruct G2 as [Hks'' Gtn2 Gstr2 Gll2 Hq2 Hqn2 Hout2].
  set (leaf := Node a fn cp lvl cl' []) in *.
  set (k' := Node a fn cp lvl cl' ks'').
  assert (∀ n, n ∈ forest_nodes (ks ++ [leaf]) →
               is_Some (tnodes s2 !! addr n) ∧ is_Some (strs s2 !! path_addr n) ∧
               is_Some (llists s2 !! list_addr n)) as Hlive.
  { intros n Hn. by eapply forest_in_live. }
  apply forest_in_snoc in Hks as [Hks Hleaf].
  apply tree_in_Node in Hleaf as (Ha & Hfn & Hcl & Htn & Hstr & Hll & _).
  assert (∀ n, n ∈ forest_nodes ks → list_addr n ≠ cl') as Hne.
  { intros n Hn E. destruct Gll as [Hnd _ _].
    rewrite forest_nodes_snoc, fmap_app, fmap_cons in Hnd.
    apply NoDup_app in Hnd as (_ & Hd & _). apply (Hd (list_addr n)).
    - by apply list_elem_of_fmap_2.
    - rewrite E. by left. }
  split; try congruence.
  - apply forest_in_snoc. split.
    + eapply forest_in_frame; [|exact Hks]. intros n Hn.
      destruct (Hlive n) as ([v1 H1] & [v2 H2] & [v3 H3]).
      { rewrite forest_nodes_snoc. apply elem_of_app. by left. }
      rewrite (grows_old _ _ _ _ _ _ Gtn2 H1), (grows_old _ _ _ _ _ _ Gstr2 H2).
      rewrite (grows_old _ _ _ _ _ v3 Gll2); [done|].
      rewrite lookup_insert_ne; [done|]. intros E. by apply (Hne n).
    + apply tree_in_Node. repeat (split; [done|]).
      rewrite (grows_old _ _ _ _ _ _ Gtn2 Htn), (grows_old _ _ _ _ _ _ Gstr2 Hstr).
      done.
  - eapply (grows_compose _ _ _ _ addr ks leaf k'); try done.
    intros b (n & -> & Hn)%list_elem_of_fmap. by apply Hlive.
  - eapply (grows_compose _ _ _ _ path_addr ks leaf k'); try done.
    intros b (n & -> & Hn)%list_elem_of_fmap. by apply Hlive.
  - rewrite first_addr_snoc, last_tree_addr_snoc in *. cbn [addr] in *.
    eapply (grows_compose _ _ _ _ list_addr ks leaf k'); try done.
    + intros b (n & -> & Hn)%list_elem_of_fmap.
      destruct (decide (list_addr n = cl')) as [->|?].
      * rewrite lookup_insert_eq. eauto.
      * rewrite lookup_insert_ne by done. by apply Hlive.
    + intros b Hb. cbn in Hb. by rewrite lookup_insert_ne.
Qed.

Lemma load_Done {A} (R : region A) p s v :
  p ≠ NULL → sel R s !! p = Some v → load R p s = Done v s.
Proof. intros. apply wp_eq. eapply wp_load; [by apply deref_Some|done]. Qed.

Lemma wpf_Fault {A B} (bad : Prop) (m : M A) (k : A → M B) s f s' Φ :
  m s = Fault f s' → bad → wpf bad (m ≫= k) s Φ.
Proof. intros Hm Hbad. unfold wpf, mbind, M_bind. by rewrite Hm. Qed.

Lemma char_code_inj c1 c2 : char_code c1 = char_code c2 → c1 = c2.
Proof.
  unfold char_code. intros H%(inj Z.of_N).
  by rewrite <-(ascii_N_embedding c1), <-(ascii_N_embedding c2), H.
Qed.

Lemma strncmp_dot d rest n : strncmp d (String "." rest) (S n) = 0 → hidden d.
Proof.
  destruct d as [|c r]; cbn.
  - done.
  - destruct (decide (c = "."%char)) as [->|Hc]; [by exists r|].
    intros H. destruct Hc. apply char_code_inj. lia.
Qed.

Lemma skip_entry_hidden d : skip_entry d = true ↔ hidden d.
Proof.
  unfold skip_entry, strcmp. split.
  - intros [[H|H]%orb_true_iff|H]%orb_true_iff; apply bool_decide_eq_true in H;
      by eapply strncmp_dot.
  - intros [rest ->]. apply orb_true_iff. right. apply bool_decide_eq_true.
    cbn [strncmp]. destruct (decide ("."%char = "."%char)) as [_|?]; [reflexivity|done].
Qed.

Lemma skip_entry_dot : skip_entry "." = true ∧ skip_entry ".." = true.
Proof. split; apply skip_entry_hidden; eexists; reflexivity. Qed.

Section BuilderLoop.

Variables (fs : filesystem) (stale : string → Z) (fuel : nat).

Hypothesis IH : populator_spec fs stale fuel.

Variables (s0 : state) (par fn : N) (l : Z) (ns cl : N) (p : string).
Hypothesis Hpar : par ≠ NULL.
Hypothesis Hfn : fn ≠ NULL.
Hypothesis Hcl : cl ≠ NULL.
Hypothesis Htn : tnodes s0 !! par = Some (TreeNode.mk fn l ns cl).
Hypothesis Hstr : strs s0 !! fn = Some p.
Hypothesis Hll : is_Some (llists s0 !! cl).
Hypothesis Hroom : level_room l p.
Hypothesis Hfuel : (256 - String.length p < S fuel)%nat.

Lemma readdir_loop_spec entries : ∀ s ks,
  grown s0 s cl ks →
  wpf (forallb (entry_walkable fs stale (walkable fs stale fuel) p) entries = false)
      (readdir_loop fs stale (treePopulator fs stale fuel) par entries) s
      (λ _ s',
         forallb (entry_walkable fs stale (walkable fs stale fuel) p) entries = true ∧
         ∃ ks',
           grown s0 s' cl (ks ++ ks') ∧
           path_of <$> ks' = child_path p <$> filter (λ n, ¬ hidden n) entries ∧
           Forall (kid_ok fs stale l) ks').
Proof.
  induction entries as [|d entries IHe]; intros s ks G.
  { apply wpf_ret. split; [done|]. exists []. by rewrite app_nil_r. }
  cbn [readdir_loop forallb].
  set (walk := entry_walkable fs stale (walkable fs stale fuel) p) in *.
  destruct (skip_entry d) eqn:Hskip.
  { apply skip_entry_hidden in Hskip. rewrite filter_cons_False by tauto.
    assert (walk d = true) as ->; [|by apply IHe].
    unfold walk, entry_walkable. by rewrite bool_decide_eq_true_2. }
  assert (¬ hidden d) as Hd.
  { intros H%skip_entry_hidden. congruence. }
  rewrite filter_cons_True by done.
  set (cp := child_path p d).
  assert (String.length cp = String.length p + 1 + String.length d)%nat as Hcp.
  { unfold cp, child_path. by rewrite !length_append. }
  assert (walk d = bool_decide (String.length cp < 256)%nat
                   && (if S_ISDIR (st_mode_of fs stale cp)
                       then walkable fs stale fuel cp else true)) as Hwalk.
  { unfold walk, entry_walkable. by rewrite (bool_decide_eq_false_2 (hidden d)). }
  assert (¬ (String.length cp < 256)%nat →
          walk d && forallb walk entries = false) as Hover.
  { intros H. by rewrite Hwalk, (bool_decide_eq_false_2 _ H). }
  pose proof (grows_old _ _ _ _ _ _ (grown_tn _ _ _ _ G) Htn) as Htn'.
  pose proof (grows_old _ _ _ _ _ _ (grown_str _ _ _ _ G) Hstr) as Hstr'.
  pose proof (grown_list _ _ _ _ G) as Hll'.
  eapply wpf_Done; [by apply get_Done|]. cbn [TreeNode.fileName].
  eapply wpf_Done; [by apply load_Done|].
  unfold strcpy. destruct (decide (String.length p < 256)%nat) as [Hlen|Hlen];
    [|eapply wpf_Fault; [done|apply Hover; lia]].
  eapply wpf_Done; [reflexivity|].
  unfold strcat.
  destruct (decide (String.length p + String.length "/" < 256)%nat) as [Hlen1|Hlen1];
    [|eapply wpf_Fault; [done|apply Hover; cbn [String.length] in Hlen1; lia]].
  eapply wpf_Done; [reflexivity|].
  destruct (decide (String.length (p +:+ "/") + String.length d < 256)%nat)
    as [Hlen2|Hlen2].
  2:{ eapply wpf_Fault; [done|]. apply Hover. rewrite length_append in Hlen2.
      cbn [String.length] in Hlen2. lia. }
  eapply wpf_Done; [reflexivity|].
  fold (child_path p d). fold cp.
  rewrite length_append in Hlen2. cbn [String.length] in Hlen1, Hlen2.
  rewrite bool_decide_eq_true_2 in Hwalk by lia. cbn [andb] in Hwalk.
  eapply wpf_Done; [by apply get_Done|]. cbn [TreeNode.level].
  assert (int_wrap (l + 1) = l + 1) as ->.
  { destruct Hroom. apply int_wrap_id. lia. }
  eapply wpf_Done; [apply createTreeNode_spec|].
  set (s1 := new_node_state s cp (l + 1)).
  set (a := fresh_loc (tnodes s)).
  pose proof (grown_append s0 s cl ks cp (l + 1) G) as G2.
  fold s1 a in G2. set (leaf := new_leaf s cp (l + 1)) in G2.
  set (s2 := append_state s1 cl ks a) in G2.
  assert (appendChild par a s1 = Done () s2) as Happ.
  { assert (par ≠ a) as Hne.
    { intros E. unfold a in E. rewrite E, fresh_loc_None in Htn'. done. }
    assert (cl ≠ fresh_loc (llists s)) as Hne'.
    { intros E. rewrite E, fresh_loc_None in Hll'. done. }
    eapply appendChild_spec; try done.
    - cbn. by rewrite lookup_insert_ne.
    - cbn. by rewrite lookup_insert_ne.
    - eapply forest_in_frame; [|exact (grown_forest _ _ _ _ G)]. intros n Hn. cbn.
      destruct (forest_in_live _ _ _ _ (grown_forest _ _ _ _ G) Hn)
        as ([? H1] & [? H2] & [? H3]).
      rewrite !lookup_insert_ne; [done|..]; intros E;
        rewrite <-E, fresh_loc_None in *; done. }
  eapply wpf_Done; [exact Happ|].
  pose proof (grown_forest _ _ _ _ G2) as Hf2.
  apply forest_in_snoc in Hf2 as [_ Hleaf].
  apply tree_in_Node in Hleaf as (Ha & Hfn' & Hcl' & Htn2 & Hstr2 & Hll2 & _).
  fold a in Htn2.
  (* the rest of the loop, from a state where the entry's subtree is complete *)
  assert (∀ s3 k', walk d = true →
            addr k' = a → path_of k' = cp → kid_ok fs stale l k' →
            grown s0 s3 cl (ks ++ [k']) →
            wpf (walk d && forallb walk entries = false)
              (readdir_loop fs stale (treePopulator fs stale fuel) par entries) s3
              (λ _ s',
                 walk d && forallb walk entries = true ∧
                 ∃ ks',
                   grown s0 s' cl (ks ++ ks') ∧
                   path_of <$> ks' = cp :: (child_path p <$> filter (λ n, ¬ hidden n) entries) ∧
                   Forall (kid_ok fs stale l) ks')) as Hrest.
  { intros s3 k' Hw Hak Hpk Hok G3. rewrite Hw. cbn [andb].
    eapply wpf_mono; [by apply IHe|done|].
    intros _ s' (Hall & ks' & G' & Hp' & Hok'). split; [done|].
    exists (k' :: ks'). split.
    - by rewrite <-app_assoc in G'.
    - split; [by rewrite fmap_cons, Hpk, Hp'|by constructor]. }
  change (default (stale cp) (stat fs cp)) with (st_mode_of fs stale cp).
  destruct (S_ISDIR (st_mode_of fs stale cp)) eqn:Hdir.
  - pose proof (grows_old _ _ _ _ _ _ (grown_tn _ _ _ _ G2) Htn) as Hpar2.
    pose proof (grown_list _ _ _ _ G2) as Hcl2.
    apply wpf_bind.
    eapply wpf_Done; [by apply get_Done|]. cbn [TreeNode.children].
    eapply wpf_Done; [by apply get_Done|]. cbn [LList.tail].
    rewrite last_tree_addr_snoc. cbn [addr leaf new_leaf]. fold a.
    eapply wpf_mono.
    { apply (IH a s2 (fresh_loc (strs s)) (l + 1) NULL (fresh_loc (llists s)) cp
               Ha Hfn' Hcl' Htn2 Hstr2 Hll2).
      - destruct Hroom. split; lia.
      - lia. }
    { intros Hw. by rewrite Hwalk, Hw. }
    intros _ s3 (Hw & ks'' & G3 & Hb). cbn beta.
    eapply (Hrest s3 (Node a (fresh_loc (strs s)) cp (l + 1) (fresh_loc (llists s)) ks''));
      try done.
    + by rewrite Hwalk.
    + split; [done|]. cbn [path_of]. by rewrite Hdir.
    + by eapply grown_compose.
  - apply wpf_bind, wpf_ret. eapply (Hrest s2 leaf); try done.
    split; [done|]. cbn [path_of leaf new_leaf]. by rewrite Hdir.
Qed.

End BuilderLoop.

Lemma grown_init s cl : llists s !! cl = Some (LList.mk NULL NULL) → grown s s cl [].
Proof.
  intros Hcl. split; try done; split; try done; try apply NoDup_nil_2;
    try (by intros ? ?%elem_of_nil).
  intros a _. cbn. destruct (decide (a = cl)) as [->|?].
  - by rewrite lookup_insert_eq.
  - by rewrite lookup_insert_ne.
Qed.

Lemma built_Node fs stale a fn p l cl ks :
  built fs stale (Node a fn p l cl ks) ↔
  ∃ entries,
    opendir fs p = Some entries ∧
    path_of <$> ks = child_path p <$> filter (λ n, ¬ hidden n) entries ∧
    Forall (kid_ok fs stale l) ks.
Proof.
  cbn [built]. split; intros (entries & H1 & H2 & H3); exists entries;
    (split; [done|split; [done|]]); clear -H3.
  - induction ks as [|k ks IH]; [done|]. destruct H3 as [? ?].
    constructor; [done|by apply IH].
  - induction H3 as [|k ks Hk _ IH]; [done|]. by split.
Qed.

Lemma treePopulator_spec fs stale fuel : populator_spec fs stale fuel.
Proof.
  induction fuel as [|fuel IH]; intros par s0 fn l ns cl p Hpar Hfn Hcl Htn Hstr Hll
    Hroom Hfuel; [lia|].
  cbn [treePopulator walkable].
  eapply wpf_Done; [by apply get_Done|]. cbn [TreeNode.fileName].
  eapply wpf_Done; [by apply load_Done|].
  destruct (opendir fs p) as [entries|] eqn:Hdir.
  - apply wpf_bind, wpf_ret. eapply wpf_mono.
    { eapply (readdir_loop_spec fs stale fuel IH s0 par fn l ns cl p); try done.
      by apply grown_init. }
    { done. }
    intros _ s' (Hall & ks & G & Hp & Hok). split; [done|]. exists ks. split; [done|].
    apply built_Node. by exists entries.
  - eapply wpf_Done; [reflexivity|]. reflexivity.
Qed.

(** ** The whole builder *)

Lemma bind_Done_inv {A B} (m : M A) (f : A → M B) s b s' :
  (m ≫= f) s = Done b s' → ∃ a s1, m s = Done a s1 ∧ f a s1 = Done b s'.
Proof. unfold mbind, M_bind. destruct (m s) as [a s1| | |]; [eauto|done..]. Qed.

Lemma no_hidden_Node a fn p l cl ks :
  no_hidden (Node a fn p l cl ks) ↔
  Forall (λ k, (∃ d, ¬ hidden d ∧ path_of k = child_path p d) ∧ no_hidden k) ks.
Proof.
  cbn [no_hidden]. split.
  - induction ks as [|k ks IH]; [done|]. intros [? ?]. constructor; [done|by apply IH].
  - induction 1 as [|k ks Hk _ IH]; [done|]. by split.
Qed.

Lemma levels_ok_leaf t : kids t = [] → levels_ok t.
Proof. destruct t. cbn. by intros ->. Qed.

Lemma no_hidden_leaf t : kids t = [] → no_hidden t.
Proof. destruct t. cbn. by intros ->. Qed.

Lemma built_levels_ok fs stale t : built fs stale t → levels_ok t.
Proof.
  induction t as [a fn p l cl ks IH] using tree_forall_ind.
  rewrite built_Node, levels_ok_Node. intros (entries & _ & _ & Hok).
  induction Hok as [|k ks [Hl Hk] _ IHks]; [done|].
  apply Forall_cons in IH as [IHk IH]. constructor; [|by apply IHks].
  split; [done|]. destruct (S_ISDIR _); [by apply IHk|by apply levels_ok_leaf].
Qed.

Lemma fmap_filter_paths ks p (names : list string) :
  path_of <$> ks = child_path p <$> names →
  Forall (λ d, ¬ hidden d) names →
  Forall (λ k, ∃ d, ¬ hidden d ∧ path_of k = child_path p d) ks.
Proof.
  revert names. induction ks as [|k ks IH]; intros [|d names] E Hn; try done.
  rewrite !fmap_cons in E. injection E as E1 E2.
  apply Forall_cons in Hn as [Hd Hn]. constructor; [eauto|by eapply IH].
Qed.

Lemma built_no_hidden fs stale t : built fs stale t → no_hidden t.
Proof.
  induction t as [a fn p l cl ks IH] using tree_forall_ind.
  rewrite built_Node, no_hidden_Node. intros (entries & _ & Hp & Hok).
  pose proof (fmap_filter_paths ks p _ Hp) as Hd.
  assert (Forall (λ d, ¬ hidden d) (filter (λ n, ¬ hidden n) entries)) as Hf.
  { apply Forall_forall. by intros d [? _]%list_elem_of_filter. }
  specialize (Hd Hf). clear Hp Hf.
  induction Hok as [|k ks [Hl Hk] _ IHks]; [done|].
  apply Forall_cons in IH as [IHk IH]. apply Forall_cons in Hd as [Hdk Hd].
  constructor; [|by apply IHks].
  split; [done|]. destruct (S_ISDIR _); [by apply IHk|by apply no_hidden_leaf].
Qed.

(** An entry whose [stat] fails is a leaf unless the unwritten status
    buffer reads as a directory. *)
Lemma built_unclassified fs stale t :
  built fs stale t →
  ∀ k, k ∈ forest_nodes (kids t) →
       stat fs (path_of k) = None → S_ISDIR (stale (path_of k)) = false →
       kids k = [].
Proof.
  induction t as [a fn p l cl ks IH] using tree_forall_ind.
  rewrite built_Node. intros (entries & _ & _ & Hok) k. cbn [kids].
  induction Hok as [|k0 ks [Hl Hk] _ IHks]; [by intros ?%elem_of_nil|].
  apply Forall_cons in IH as [IHk IH]. cbn [forest_nodes]. rewrite nodes_kids.
  intros [[-> |Hin]%elem_of_cons|Hin]%elem_of_app Hstat Hstale.
  - unfold st_mode_of in Hk. rewrite Hstat in Hk. cbn in Hk. by rewrite Hstale in Hk.
  - destruct (S_ISDIR (st_mode_of fs stale (path_of k0))).
    + by apply (IHk Hk).
    + rewrite Hk in Hin. by apply elem_of_nil in Hin.
  - by apply IHks.
Qed.

Lemma build_spec fs stale fuel startPath s :
  (256 < fuel)%nat →
  wpf (walkable fs stale fuel startPath = false) (build fs stale fuel startPath) s
      (λ root s',
         walkable fs stale fuel startPath = true ∧
         ∃ t,
           addr t = root ∧ path_of t = startPath ∧ level_of t = 1 ∧
           tree_in s' t NULL ∧ separate [t] ∧ built fs stale t ∧
           grows (tnodes s) (tnodes s') addr [t] ∧
           grows (strs s) (strs s') path_addr [t] ∧
           grows (llists s) (llists s') list_addr [t] ∧
           queues s' = queues s ∧ qnodes s' = qnodes s ∧ stdout s' = stdout s).
Proof.
  intros Hfuel. unfold build.
  eapply wpf_Done; [apply createTreeNode_spec|].
  set (a := fresh_loc (tnodes s)). set (fn := fresh_loc (strs s)).
  set (cl := fresh_loc (llists s)). set (s1 := new_node_state s startPath 1).
  assert (tnodes s1 !! a = Some (TreeNode.mk fn 1 NULL cl)) as Htn
    by apply lookup_insert_eq.
  assert (strs s1 !! fn = Some startPath) as Hstr by apply lookup_insert_eq.
  assert (llists s1 !! cl = Some (LList.mk NULL NULL)) as Hll by apply lookup_insert_eq.
  apply wpf_bind. eapply wpf_mono.
  { apply (treePopulator_spec fs stale fuel a s1 fn 1 NULL cl startPath);
      try done; try apply fresh_loc_NULL.
    - split; lia.
    - lia. }
  { done. }
  intros _ s' (Hwalk & ks & G & Hbuilt). apply wpf_ret. split; [done|].
  exists (Node a fn startPath 1 cl ks).
  pose proof (grown_list _ _ _ _ G) as Hcl.
  destruct G as [Hks [Ntn Ftn Rtn] [Nstr Fstr Rstr] [Nll Fll Rll] Hq Hqn Hout].
  assert (a ∉ addr <$> forest_nodes ks) as Ha.
  { intros Hin%Ftn. congruence. }
  assert (fn ∉ path_addr <$> forest_nodes ks) as Hfn.
  { intros Hin%Fstr. congruence. }
  assert (cl ∉ list_addr <$> forest_nodes ks) as Hcl'.
  { intros Hin%Fll. by rewrite lookup_insert_eq in Hin. }
  assert (∀ f : tree → N, f <$> forest_nodes [Node a fn startPath 1 cl ks]
                          = f (Node a fn startPath 1 cl ks) :: (f <$> forest_nodes ks)) as E.
  { intros f. cbn [forest_nodes]. by rewrite app_nil_r, nodes_kids. }
  repeat (split; [done|]). split; [|split; [|split; [done|split; [|split; [|split]]]]].
  - apply tree_in_Node. split; [apply fresh_loc_NULL|].
    split; [apply fresh_loc_NULL|]. split; [apply fresh_loc_NULL|].
    rewrite Rtn, Rstr by done. done.
  - split; rewrite E; by apply NoDup_cons.
  - split; rewrite ?E.
    + by apply NoDup_cons.
    + intros b [->|Hb]%elem_of_cons; [apply fresh_loc_None|].
      specialize (Ftn b Hb). cbn in Ftn. rewrite lookup_insert_ne in Ftn; [done|].
      intros <-. by rewrite lookup_insert_eq in Ftn.
    + intros b [Hb1 Hb2]%not_elem_of_cons. rewrite Rtn by done. cbn.
      by rewrite lookup_insert_ne.
  - split; rewrite ?E.
    + by apply NoDup_cons.
    + intros b [->|Hb]%elem_of_cons; [apply fresh_loc_None|].
      specialize (Fstr b Hb). cbn in Fstr. rewrite lookup_insert_ne in Fstr; [done|].
      intros <-. by rewrite lookup_insert_eq in Fstr.
    + intros b [Hb1 Hb2]%not_elem_of_cons. rewrite Rstr by done. cbn.
      by rewrite lookup_insert_ne.
  - split; rewrite ?E.
    + by apply NoDup_cons.
    + intros b [->|Hb]%elem_of_cons; [apply fresh_loc_None|].
      specialize (Fll b Hb). cbn in Fll. destruct (decide (b = cl)) as [->|?].
      { by rewrite lookup_insert_eq in Fll. }
      by rewrite !lookup_insert_ne in Fll by done.
    + intros b [Hb1 Hb2]%not_elem_of_cons. rewrite Rll by done. cbn.
      by rewrite !lookup_insert_ne by done.
  - by rewrite Hq, Hqn, Hout.
Qed.

(** ** The claims about the builder *)

(** On a walkable directory the builder returns, with the tree of the
    directory in the heap and nothing printed. *)
Lemma build_walkable fs stale fuel startPath s :
  (256 < fuel)%nat → walkable fs stale fuel startPath = true →
  ∃ root s' t,
    build fs stale fuel startPath s = Done root s' ∧
    addr t = root ∧ path_of t = startPath ∧ level_of t = 1 ∧
    tree_in s' t NULL ∧ separate [t] ∧ built fs stale t ∧
    stdout s' = stdout s.
Proof.
  intros Hfuel Hwalk.
  pose proof (build_spec fs stale fuel startPath s Hfuel) as H. unfold wpf in H.
  destruct (build fs stale fuel startPath s) as [root s'| | |]; try done.
  - destruct H as (_ & t & Ha & Hp & Hl & Ht & Hsep & Hb & _ & _ & _ & _ & _ & Hout).
    by exists root, s', t.
  - congruence.
Qed.

(** On any other directory it runs into undefined behaviour. *)
Lemma build_not_walkable fs stale fuel startPath s :
  (256 < fuel)%nat → walkable fs stale fuel startPath = false →
  ∃ f s', build fs stale fuel startPath s = Fault f s'.
Proof.
  intros Hfuel Hwalk.
  pose proof (build_spec fs stale fuel startPath s Hfuel) as H. unfold wpf in H.
  destruct (build fs stale fuel startPath s) as [root s'| |f s'|]; try done.
  - destruct H as [? _]. congruence.
  - by exists f, s'.
Qed.

Lemma demo_walkable : walkable demo_fs demo_stale 300 "/tmp/root" = true.
Proof. vm_compute. reflexivity. Qed.

Lemma demo_tree_in : tree_in demo_state demo_tree NULL.
Proof. repeat split; vm_compute; congruence. Qed.

Lemma demo_separate : separate [demo_tree].
Proof.
  split; apply (bool_decide_unpack _); vm_compute; exact I.
Qed.

Lemma demo_queue_rep : queue_rep demo_queue_state 1%N demo_cells.
Proof.
  split; [done|]. split; [by vm_compute|]. split.
  - apply (bool_decide_unpack _). vm_compute. exact I.
  - repeat split; vm_compute; congruence.
Qed.

Lemma demo_entries_at : Forall2 (node_at demo_queue_state) demo_cells.*2 demo_entries.
Proof.
  repeat constructor; try (vm_compute; congruence);
    eexists _, _, _; repeat split; vm_compute; congruence.
Qed.

Lemma single_check d : skip_entry d = bool_decide (strncmp d "." 1 = 0).
Proof.
  destruct (skip_entry d) eqn:E; symmetry.
  - apply skip_entry_hidden in E as [rest ->]. apply bool_decide_eq_true.
    cbn [strncmp]. destruct (decide ("."%char = "."%char)) as [_|?]; [reflexivity|done].
  - apply bool_decide_eq_false. intros H%strncmp_dot%skip_entry_hidden. congruence.
Qed.

Lemma print_after_build s t fuel :
  tree_in s t NULL → (size t < fuel)%nat →
  ∃ q s1 s2,
    createPrintQueue fuel (addr t) s = Done q s1 ∧
    printPrintQueue fuel q s1 = Done () s2 ∧
    tree_in s1 t NULL ∧ tree_in s2 t NULL ∧
    stdout s2 = stdout s +:+ text_of (print_lines 0 0 (entry_of <$> level_order t)).
Proof.
  intros Ht Hfuel.
  destruct (createPrintQueue_spec s t NULL fuel Ht Hfuel)
    as (q & s1 & P & Hrun1 & Hinv & HP & Hout1).
  assert (length P = size t) as Hlen.
  { by rewrite <-(length_fmap snd), HP, length_fmap, level_order_length. }
  destruct (printPrintQueue_spec s s1 q P (entry_of <$> level_order t) fuel Hinv)
    as (s2 & Hrun2 & Htree & Hqn & Hqs & Hout2).
  { rewrite HP. by eapply level_order_entries. }
  { pose proof (size_pos t). intros ->. cbn in Hlen. lia. }
  { lia. }
  exists q, s1, s2. split; [done|]. split; [done|]. split; [|split].
  - eapply tree_in_ext; [apply (pr_tree _ _ _ _ Hinv)|done].
  - by eapply tree_in_ext.
  - by rewrite Hout2, Hout1.
Qed.

(** The lines of a tree whose levels grow by one from parent to child: each
    level is numbered 1, 2, ... from left to right. *)
Lemma level_order_lines t :
  levels_ok t → Z.of_nat (size t) < 2 ^ 31 →
  print_lines 0 0 (entry_of <$> level_order t) =
  imap (λ i e, format_line e.1
                 (1 + Z.of_nat (earlier_same (level_of <$> level_order t) i)) e.2)
       (entry_of <$> level_order t).
Proof.
  intros Hok Hsize.
  assert ((entry_of <$> level_order t).*1 = level_of <$> level_order t) as E.
  { rewrite <-list_fmap_compose. by apply list_fmap_ext. }
  rewrite print_lines_positions by (by rewrite length_fmap, level_order_length).
  apply imap_ext. intros i e Hi. cbn. rewrite E.
  rewrite run_position_sorted; [done|by apply level_order_sorted|].
  apply lookup_lt_Some in Hi. by rewrite !length_fmap in *.
Qed.

(** What [main] prints after the builder, on a walkable directory: the tree
    in level order, one line per node, each level numbered from 1. *)
Lemma build_output fs stale fuel startPath s :
  (256 < fuel)%nat → walkable fs stale fuel startPath = true →
  ∃ root s' t,
    build fs stale fuel startPath s = Done root s' ∧
    tree_in s' t NULL ∧ built fs stale t ∧
    ∀ fuel', (size t < fuel')%nat → Z.of_nat (size t) < 2 ^ 31 →
      ∃ s'', print_and_release fuel' root s' = Done () s'' ∧
             stdout s'' = stdout s +:+
               text_of (imap (λ i e, format_line e.1
                  (1 + Z.of_nat (earlier_same (level_of <$> level_order t) i)) e.2)
                  (entry_of <$> level_order t)).
Proof.
  intros Hfuel Hwalk.
  destruct (build_walkable fs stale fuel startPath s Hfuel Hwalk)
    as (root & s' & t & Hrun & Ha & Hp & _ & Ht & Hsep & Hb & Hout).
  exists root, s', t. split; [done|]. split; [done|]. split; [done|].
  intros fuel' Hf Hsize.
  eexists. rewrite <-Ha. split; [by apply print_and_release_spec|].
  cbn [stdout]. rewrite Hout, level_order_lines; [done| |done].
  by eapply built_levels_ok.
Qed.


(** C4: on every walkable directory the builder returns, the root of the
    tree in the heap has level 1 and every child has the level of its
    parent plus one; the linearizer and the printer, run on that heap,
    leave every node of the tree as it is, levels included. *)
Theorem build_levels fs stale fuel startPath s :
  (256 < fuel)%nat → walkable fs stale fuel startPath = true →
  ∃ root s' t,
    build fs stale fuel startPath s = Done root s' ∧
    addr t = root ∧ tree_in s' t NULL ∧
    (∃ fn cl, tnodes s' !! root = Some (TreeNode.mk fn 1 NULL cl)) ∧
    level_of t = 1 ∧ levels_ok t ∧
    ∀ fuel', (size t < fuel')%nat →
      ∃ q s1 s2,
        createPrintQueue fuel' root s' = Done q s1 ∧
        printPrintQueue fuel' q s1 = Done () s2 ∧
        tree_in s1 t NULL ∧ tree_in s2 t NULL.
Proof.
  intros Hfuel Hwalk.
  destruct (build_walkable fs stale fuel startPath s Hfuel Hwalk)
    as (root & s' & t & Hrun & Ha & Hp & Hl & Ht & Hsep & Hb & Hout).
  exists root, s', t. split; [done|]. split; [done|]. split; [done|]. split.
  { exists (path_addr t), (list_addr t). rewrite <-Ha, <-Hl. by apply tree_in_tnode. }
  split; [done|]. split; [by eapply built_levels_ok|].
  intros fuel' Hf. rewrite <-Ha.
  destruct (print_after_build s' t fuel' Ht Hf) as (q & s1 & s2 & ? & ? & ? & ? & _).
  by exists q, s1, s2.
Qed.

Lemma treePopulator_unopened fs stale fuel par s fn l ns cl p :
  par ≠ NULL → fn ≠ NULL →
  tnodes s !! par = Some (TreeNode.mk fn l ns cl) →
  strs s !! fn = Some p →
  opendir fs p = None →
  treePopulator fs stale (S fuel) par s =
  Fault BadStream (State (tnodes s) (llists s) (strs s) (queues s) (qnodes s)
                         (stdout s +:+ "Something's gone awry!")).
Proof.
  intros Hpar Hfn Htn Hstr Hdir. cbn [treePopulator].
  erewrite bind_Done by (by apply get_Done). cbn [TreeNode.fileName].
  erewrite bind_Done by (by apply load_Done).
  by rewrite Hdir.
Qed.

Lemma treePopulator_overrun fs stale fuel par s fn l ns cl p d entries :
  par ≠ NULL → fn ≠ NULL →
  tnodes s !! par = Some (TreeNode.mk fn l ns cl) →
  strs s !! fn = Some p →
  opendir fs p = Some (d :: entries) →
  ¬ hidden d →
  (256 ≤ String.length p + 1 + String.length d)%nat →
  treePopulator fs stale (S fuel) par s = Fault BufferOverrun s.
Proof.
  intros Hpar Hfn Htn Hstr Hdir Hd Hlen. cbn [treePopulator].
  erewrite bind_Done by (by apply get_Done). cbn [TreeNode.fileName].
  erewrite bind_Done by (by apply load_Done).
  rewrite Hdir. erewrite bind_Done by reflexivity. cbn [readdir_loop].
  destruct (skip_entry d) eqn:Hskip; [by apply skip_entry_hidden in Hskip|].
  erewrite bind_Done by (by apply get_Done). cbn [TreeNode.fileName].
  erewrite bind_Done by (by apply load_Done).
  unfold strcpy, strcat, undefined, mbind, M_bind, mret, M_ret.
  repeat (case_decide; try done).
  rewrite length_append in *. cbn [String.length] in *. lia.
Qed.

(** ** Examples for the linearizer, the printer and the release *)

(** ** More fuel changes nothing *)

Lemma fuel_stable_refl {A} (m : M A) : fuel_stable m m.
Proof. by intros s _. Qed.

Lemma fuel_stable_bind {A B} (m m' : M A) (f f' : A → M B) :
  fuel_stable m m' → (∀ a, fuel_stable (f a) (f' a)) →
  fuel_stable (m ≫= f) (m' ≫= f').
Proof.
  intros Hm Hf s. unfold mbind, M_bind. intros H.
  rewrite Hm by (by destruct (m s)).
  destruct (m s) as [a s1| | |]; try done. by apply Hf.
Qed.

Lemma fuel_stable_trans {A} (m1 m2 m3 : M A) :
  fuel_stable m1 m2 → fuel_stable m2 m3 → fuel_stable m1 m3.
Proof.
  intros H1 H2 s H. rewrite <-(H1 s H). apply H2. by rewrite (H1 s H).
Qed.

Lemma readdir_loop_fuel fs stale (r r' : N → M unit) par entries :
  (∀ n, fuel_stable (r n) (r' n)) →
  fuel_stable (readdir_loop fs stale r par entries)
              (readdir_loop fs stale r' par entries).
Proof.
  intros Hr. induction entries as [|d entries IH]; [apply fuel_stable_refl|].
  cbn [readdir_loop]. destruct (skip_entry d); [done|].
  repeat (apply fuel_stable_bind; [apply fuel_stable_refl|intros ?]).
  apply fuel_stable_bind; [|by intros ?].
  destruct (S_ISDIR _); [|apply fuel_stable_refl].
  repeat (apply fuel_stable_bind; [apply fuel_stable_refl|intros ?]).
  apply Hr.
Qed.

Lemma treePopulator_fuel fs stale fuel : ∀ par,
  fuel_stable (treePopulator fs stale fuel par) (treePopulator fs stale (S fuel) par).
Proof.
  induction fuel as [|fuel IH]; intros par; [by intros s []|].
  change (treePopulator fs stale (S (S fuel)) par) with
    (name ← get TN TreeNode.fileName par;
     path ← load STR name;
     (if opendir fs path is None then printf "Something's gone awry!" else mret ());;
     match opendir fs path with
     | None => undefined BadStream
     | Some entries =>
       readdir_loop fs stale (treePopulator fs stale (S fuel)) par entries
     end).
  cbn [treePopulator].
  repeat (apply fuel_stable_bind; [apply fuel_stable_refl|intros ?]).
  destruct (opendir fs _); [|apply fuel_stable_refl].
  by apply readdir_loop_fuel.
Qed.

Lemma build_fuel fs stale fuel k startPath :
  fuel_stable (build fs stale fuel startPath) (build fs stale (fuel + k) startPath).
Proof.
  induction k as [|k IH].
  - rewrite Nat.add_0_r. apply fuel_stable_refl.
  - eapply fuel_stable_trans; [exact IH|]. rewrite Nat.add_succ_r. unfold build.
    apply fuel_stable_bind; [apply fuel_stable_refl|intros root].
    apply fuel_stable_bind; [apply treePopulator_fuel|intros ?].
    apply fuel_stable_refl.
Qed.

(** The depth budget of [walkable] does not matter once it exceeds what is
    left of the 256 bytes. *)
Lemma walkable_budget fs stale n : ∀ m p,
  (256 - String.length p < n)%nat → (256 - String.length p < m)%nat →
  walkable fs stale n p = walkable fs stale m p.
Proof.
  induction n as [|n IH]; intros m p Hn Hm; [lia|].
  destruct m as [|m]; [lia|]. cbn [walkable].
  destruct (opendir fs p) as [entries|]; [|done].
  induction entries as [|d entries IHe]; [done|]. cbn [forallb]. rewrite IHe.
  f_equal. unfold entry_walkable. destruct (bool_decide (hidden d)); [done|].
  cbn [orb]. case_bool_decide as Hlen; [|done]. cbn [andb].
  destruct (S_ISDIR _); [|done].
  unfold child_path in Hlen. rewrite !length_append in Hlen.
  cbn [String.length] in Hlen.
  apply IH; unfold child_path; rewrite !length_append; cbn [String.length]; lia.
Qed.

Lemma grows_released {A} (m0 m : gmap N A) f ts :
  grows m0 m f ts → foldr delete m (f <$> forest_nodes ts) = m0.
Proof.
  intros [_ Hfresh Hframe]. apply map_eq. intros b. rewrite lookup_foldr_delete.
  destruct (decide (b ∈ f <$> forest_nodes ts)) as [Hin|Hin].
  - symmetry. by apply Hfresh.
  - by apply Hframe.
Qed.

(** ** Creating and linking nodes *)

Lemma tree_in_fresh s t next name lvl :
  tree_in s t next → tree_in (new_node_state s name lvl) t next.
Proof.
  intros Ht. eapply tree_in_frame; [|exact Ht]. intros n Hn.
  destruct (tree_in_nodes _ _ _ _ Ht Hn) as [e Hne].
  pose proof (tree_in_tnode _ _ _ Hne) as H1.
  destruct (tree_in_path _ _ _ Hne) as [_ H2].
  destruct (tree_in_llist _ _ _ Hne) as [_ H3].
  cbn. rewrite !lookup_insert_ne; [done|..]; intros E;
    rewrite <-E, fresh_loc_None in *; done.
Qed.

Lemma appendChild_tree s par fn p l cl ks next k :
  tree_in s (Node par fn p l cl ks) next →
  tree_in s k NULL →
  separate [Node par fn p l cl ks; k] →
  ∃ s',
    appendChild par (addr k) s = Done () s' ∧
    tree_in s' (Node par fn p l cl (ks ++ [k])) next ∧
    (∀ a, a ≠ last_tree_addr ks → tnodes s' !! a = tnodes s !! a) ∧
    (∀ a, a ≠ cl → llists s' !! a = llists s !! a) ∧
    strs s' = strs s ∧ queues s' = queues s ∧ qnodes s' = qnodes s ∧
    stdout s' = stdout s.
Proof.
  intros Hpar Hk Hsep.
  apply tree_in_Node in Hpar as (Ha & Hfn & Hcl & Htn & Hstr & Hll & Hks).
  exists (append_state s cl ks (addr k)).
  split; [by eapply appendChild_spec|].
  destruct Hsep as [Ntn _ Nll]. cbn [forest_nodes] in Ntn, Nll.
  rewrite app_nil_r, nodes_kids in Ntn, Nll. cbn [kids] in Ntn, Nll.
  rewrite fmap_app, fmap_cons in Ntn, Nll. cbn [addr list_addr] in Ntn, Nll.
  apply NoDup_app in Ntn as (Ntn & Dtn & _). apply NoDup_cons in Ntn as [Hpar Ntn].
  apply NoDup_app in Nll as (Nll & Dll & _). apply NoDup_cons in Nll as [Hcl' _].
  assert (∀ n, last ks = Some n → addr n ∈ addr <$> forest_nodes ks) as Hlast.
  { intros n Hn. apply list_elem_of_fmap_2. by apply last_forest_nodes. }
  split; [|split; [|split; [|done]]].
  - apply tree_in_Node. repeat (split; [done|]). cbn [append_state tnodes llists strs].
    split.
    { unfold link_last. destruct (last ks) as [n|] eqn:E; [|done].
      rewrite lookup_insert_ne; [done|]. intros <-. by apply Hpar, Hlast. }
    split; [done|]. split.
    { rewrite lookup_insert_eq, last_tree_addr_snoc, first_addr_snoc.
      by destruct ks. }
    apply forest_in_snoc. split.
    + eapply forest_in_frame; [|by apply (forest_in_link s ks (addr k))].
      intros n Hn. cbn. split; [done|]. split; [done|].
      rewrite lookup_insert_ne; [done|]. intros ->. apply Hcl'.
      by apply list_elem_of_fmap_2.
    + eapply tree_in_frame; [|exact Hk]. intros n Hn. cbn. split; [|split; [done|]].
      * unfold link_last. destruct (last ks) as [m|] eqn:E; [|done].
        rewrite lookup_insert_ne; [done|]. intros E'.
        apply (Dtn (addr m)); [right; by apply Hlast|].
        rewrite E'. by apply list_elem_of_fmap_2.
      * rewrite lookup_insert_ne; [done|]. intros ->.
        apply (Dll (list_addr n)); [by left|by apply list_elem_of_fmap_2].
  - intros a Hne. cbn. unfold link_last, last_tree_addr in *.
    destruct (last ks) as [n|]; [|done]. by rewrite lookup_insert_ne.
  - intros a Hne. cbn. by rewrite lookup_insert_ne.
Qed.

(** X6: [appendChild] links a tree at the end of the list of children.  On
    a parent with the children [ks] and a tree [k] with no sibling, all of
    whose blocks differ from those of the parent's tree, it returns with
    the parent holding [ks ++ [k]]: the children already there keep their
    order and their subtrees, the new one comes last.  Only the list block
    of the parent and the [nextSibling] of the old last child are written. *)
Theorem appendChild_appends_last s par fn p l cl ks next k :
  tree_in s (Node par fn p l cl ks) next →
  tree_in s k NULL →
  separate [Node par fn p l cl ks; k] →
  ∃ s',
    appendChild par (addr k) s = Done () s' ∧
    tree_in s' (Node par fn p l cl (ks ++ [k])) next ∧
    (∀ a, a ≠ last_tree_addr ks → tnodes s' !! a = tnodes s !! a) ∧
    (∀ a, a ≠ cl → llists s' !! a = llists s !! a) ∧
    strs s' = strs s ∧ queues s' = queues s ∧ qnodes s' = qnodes s ∧
    stdout s' = stdout s.
Proof. apply appendChild_tree. Qed.

(** ** More on the queue *)

(** X8: two queues that share no cell do not disturb each other.
    [enQueue] on one appends a new cell wrapping the node to it and leaves
    the other with the cells it had, and so does [deQueue], which takes the
    first cell off the one and hands it to the caller still allocated;
    neither touches a tree node nor prints. *)
Theorem queues_do_not_interfere s q l q0 l0 x :
  queue_rep s q l → queue_rep s q0 l0 → q ≠ q0 →
  (∀ b, b ∈ l.*1 → b ∉ l0.*1) →
  (∃ s' c,
     enQueue q x s = Done () s' ∧ c.2 = x ∧ qnodes s !! c.1 = None ∧
     queue_rep s' q (l ++ [c]) ∧ queue_rep s' q0 l0 ∧
     same_tree s s' ∧ stdout s' = stdout s) ∧
  (∀ c l', l = c :: l' →
     ∃ s', deQueue q s = Done c.1 s' ∧
           queue_rep s' q l' ∧ queue_rep s' q0 l0 ∧
           qnodes s' = qnodes s ∧ same_tree s s' ∧ stdout s' = stdout s).
Proof.
  intros Hq Hq0 Hne Hdisj. split.
  - exists (enq_state s q x l), (enq_cell s x).
    split; [by apply enQueue_spec|]. split; [done|].
    split; [apply fresh_loc_None|]. split; [by apply enq_state_rep|].
    split; [|done].
    eapply queue_rep_frame; [| |exact Hq0].
    + cbn. by rewrite lookup_insert_ne.
    + intros b Hb. apply enq_state_frame.
      * intros Hbl. by apply (Hdisj b).
      * intros ->. by apply (queue_rep_fresh _ _ _ Hq0).
  - intros c l' ->. exists (deq_state s q l').
    split; [by apply deQueue_spec|]. split; [by eapply deq_state_rep|].
    split; [|done].
    eapply queue_rep_frame; [| |exact Hq0].
    + cbn. by rewrite lookup_insert_ne.
    + done.
Qed.

(** X9: on an empty queue, [enQueue] of a node followed by [deQueue], the
    read of the cell and its [free], as the linearizer does, gives back the
    node, and the state is exactly the state before: [deQueue] does not
    free the cell it returns, the caller does. *)
Theorem enQueue_deQueue_round_trip s q x :
  queue_rep s q [] →
  (enQueue q x;;
   cell ← deQueue q;
   node ← get QN QNode.dataSource cell;
   free QN cell;;
   mret node) s = Done x s.
Proof.
  intros Hrep.
  pose proof (enq_state_rep s q x [] Hrep) as Hrep1. cbn [app] in Hrep1.
  erewrite bind_Done by (by apply enQueue_spec).
  erewrite bind_Done by (by apply deQueue_spec).
  destruct Hrep as (Hq & Hqs & _). cbn [fst enq_cell].
  set (a := fresh_loc (qnodes s)).
  erewrite bind_Done.
  2:{ apply get_Done; [apply fresh_loc_NULL|]. cbn. apply lookup_insert_eq. }
  cbn [QNode.dataSource].
  erewrite bind_Done; [reflexivity|].
  erewrite free_Done; [|cbn; apply lookup_insert_eq|apply fresh_loc_NULL].
  f_equal. cbn. unfold a.
  rewrite delete_insert_eq, delete_id by apply fresh_loc_None.
  rewrite insert_insert_eq, insert_id by done. by destruct s.
Qed.

(** ** More on the release *)

Lemma forest_in_app s pre ts e : forest_in s (pre ++ ts) e → forest_in s ts e.
Proof.
  induction pre as [|t pre IH]; [done|]. intros [_ H]. by apply IH.
Qed.

Lemma NoDup_fmap_app_r {A} (f : A → N) (l1 l2 : list A) :
  NoDup (f <$> l1 ++ l2) → NoDup (f <$> l2).
Proof. rewrite fmap_app. by intros (_ & _ & ?)%NoDup_app. Qed.

Lemma get_Fault {A B} (R : region A) (f : A → B) p s :
  sel R s !! p = None → get R f p s = Fault BadPointer s.
Proof.
  intros Hp. unfold get, load, deref, mbind, M_bind.
  destruct (decide (p = NULL)); [done|]. by rewrite Hp.
Qed.

(** X10: [chopTree] on a child of a node is not the removal of one
    subtree.  It releases the child, every sibling after it and all their
    subtrees, and
    nothing else: the earlier siblings and the parent stay allocated, and
    the list block of the parent is not written, so that it, and the
    sibling before the child, are left pointing at released nodes. *)
Theorem chopTree_releases_later_siblings s par fn p l cl pre k post next fuel :
  tree_in s (Node par fn p l cl (pre ++ k :: post)) next →
  separate [Node par fn p l cl (pre ++ k :: post)] →
  (forest_size (k :: post) < fuel)%nat →
  chopTree fuel (addr k) s = Done () (chop_state s (k :: post)) ∧
  (∀ n, n ∈ forest_nodes (k :: post) →
        tnodes (chop_state s (k :: post)) !! addr n = None) ∧
  (∀ n, n ∈ Node par fn p l cl [] :: forest_nodes pre →
        tnodes (chop_state s (k :: post)) !! addr n = tnodes s !! addr n) ∧
  llists (chop_state s (k :: post)) !! cl =
    Some (LList.mk (first_addr (pre ++ k :: post)) (last_tree_addr (pre ++ k :: post))).
Proof.
  intros Ht Hsep Hfuel.
  apply tree_in_Node in Ht as (Ha & Hfn & Hcl & Htn & Hstr & Hll & Hks).
  destruct Hsep as [Ntn Nstr Nll]. cbn [forest_nodes] in Ntn, Nstr, Nll.
  rewrite app_nil_r, nodes_kids in Ntn, Nstr, Nll. cbn [kids] in Ntn, Nstr, Nll.
  rewrite forest_nodes_app in Ntn, Nstr, Nll.
  rewrite fmap_cons in Ntn, Nstr, Nll.
  apply NoDup_cons in Ntn as [Hpar Ntn]. apply NoDup_cons in Nstr as [_ Nstr].
  apply NoDup_cons in Nll as [Hcl' Nll].
  split; [|split; [|split]].
  - change (addr k) with (first_addr (k :: post)). apply chopTree_spec.
    + by eapply forest_in_app.
    + split; by eapply NoDup_fmap_app_r.
    + done.
  - intros n Hn. cbn. rewrite lookup_foldr_delete, decide_True; [done|].
    by apply list_elem_of_fmap_2.
  - intros n Hn. cbn [chop_state tnodes]. apply lookup_foldr_delete_notin.
    intros Hin. apply elem_of_cons in Hn as [->|Hn].
    + apply Hpar. rewrite fmap_app. apply elem_of_app. by right.
    + rewrite fmap_app in Ntn. apply NoDup_app in Ntn as (_ & Hdisj & _).
      apply (Hdisj (addr n)); [by apply list_elem_of_fmap_2|done].
  - cbn [chop_state llists]. rewrite lookup_foldr_delete_notin; [done|].
    intros Hin. apply Hcl'. rewrite fmap_app. apply elem_of_app. by right.
Qed.

(** X11: [chopTree] leaves the caller's pointer as it was (the
    [root = NULL] at its end writes the parameter only), and a second call
    on it reads the released node: undefined behaviour. *)
Theorem chopTree_twice_is_undefined s t fuel :
  tree_in s t NULL → separate [t] → (size t < fuel)%nat →
  (chopTree fuel (addr t);; chopTree fuel (addr t)) s
  = Fault BadPointer (chop_state s [t]).
Proof.
  intros Ht Hsep Hfuel.
  erewrite bind_Done.
  2:{ change (addr t) with (first_addr [t]). apply chopTree_spec; [by split|done|].
      cbn. lia. }
  destruct fuel as [|fuel]; [lia|]. cbn [chopTree].
  rewrite decide_False by (by eapply tree_in_addr).
  unfold mbind at 1, M_bind. rewrite get_Fault; [done|].
  cbn. rewrite lookup_foldr_delete, decide_True; [done|].
  rewrite app_nil_r, nodes_kids. by left.
Qed.

(** ** The empty tree and the empty queue *)

Lemma printPrintQueue_empty_spec s q fuel :
  q ≠ NULL → queues s !! q = Some (Queue.mk NULL NULL) →
  printPrintQueue (S fuel) q s =
  Fault BadPointer
    (upd QN (<[fresh_loc (qnodes s) := QNode.mk NULL NULL]> (qnodes s)) s).
Proof.
  intros Hq Hqs. unfold printPrintQueue. cbn [print_loop].
  unfold mbind at 1, M_bind.
  erewrite bind_Done by (by eapply deQueue_empty_spec).
  erewrite bind_Done.
  2:{ apply get_Done; [apply fresh_loc_NULL|]. cbn. apply lookup_insert_eq. }
  cbn [QNode.dataSource]. reflexivity.
Qed.

(** X12: [printPrintQueue] tests the queue after the first pass of its
    [do ... while].  On an empty queue [deQueue] hands it the placeholder
    cell, whose [dataSource] is [NULL], and the read of the level
    dereferences it: undefined behaviour, with nothing printed and the
    placeholder cell still allocated. *)
Theorem printPrintQueue_empty_queue s q fuel :
  queue_rep s q [] →
  printPrintQueue (S fuel) q s =
  Fault BadPointer
    (upd QN (<[fresh_loc (qnodes s) := QNode.mk NULL NULL]> (qnodes s)) s).
Proof.
  intros (Hq & Hqs & _). by apply printPrintQueue_empty_spec.
Qed.

(** X13: [createPrintQueue] on the [NULL] root returns an empty print
    queue and leaves nothing else behind: its to-do queue is released.
    Handing that queue to [printPrintQueue] is undefined behaviour: the two
    together cannot print an empty tree. *)
Theorem createPrintQueue_null_root s fuel :
  createPrintQueue (S fuel) NULL s =
  Done (fresh_loc (queues s))
       (upd Q (<[fresh_loc (queues s) := Queue.mk NULL NULL]> (queues s)) s) ∧
  ∃ s', (printQueue ← createPrintQueue (S fuel) NULL;
         printPrintQueue (S fuel) printQueue) s = Fault BadPointer s' ∧
        stdout s' = stdout s.
Proof.
  set (p := fresh_loc (queues s)).
  set (s1 := upd Q (<[p := Queue.mk NULL NULL]> (queues s)) s).
  assert (createPrintQueue (S fuel) NULL s = Done p s1) as Hrun.
  { unfold createPrintQueue.
    erewrite bind_Done by apply createQueue_spec. fold p s1.
    erewrite bind_Done by apply createQueue_spec.
    set (td := fresh_loc (queues s1)).
    set (s2 := upd Q (<[td := Queue.mk NULL NULL]> (queues s1)) s1).
    assert (td ≠ NULL) as Htd by apply fresh_loc_NULL.
    assert (queues s2 !! td = Some (Queue.mk NULL NULL)) as Hq
      by apply lookup_insert_eq.
    erewrite bind_Done by reflexivity.
    apply wp_eq. repeat wp_step. apply wp_free_NULL. repeat wp_step.
    apply wp_free_NULL. repeat wp_step.
    eapply wp_free; [apply lookup_insert_eq|done|]. wp_simpl.
    split; [done|]. unfold s1. cbn. f_equal.
    rewrite !insert_insert_eq, delete_insert_eq, delete_id; [done|].
    apply (fresh_loc_None (queues s1)). }
  split; [exact Hrun|]. eexists. split.
  - erewrite bind_Done by exact Hrun.
    apply printPrintQueue_empty_spec; [apply fresh_loc_NULL|apply lookup_insert_eq].
  - reflexivity.
Qed.

(** ** What the phases allocate *)

(** X14: what [createPrintQueue] leaves allocated.  The print queue it
    returns was not allocated before and is the only new queue; its cells,
    one per node of the tree, are pairwise distinct, were not allocated
    before and are the only new cells.  The to-do queue, the cells that
    went through it and the placeholder cell of the last, empty [deQueue]
    have all been released, and nothing is printed. *)
Theorem createPrintQueue_footprint s t next fuel :
  tree_in s t next → (size t < fuel)%nat →
  ∃ q s' P,
    createPrintQueue fuel (addr t) s = Done q s' ∧
    queue_rep s' q P ∧ length P = size t ∧
    queues s !! q = None ∧
    queues s' = <[q := Queue.mk (last_addr P) (hd_addr P)]> (queues s) ∧
    (∀ b, b ∈ P.*1 → qnodes s !! b = None ∧ is_Some (qnodes s' !! b)) ∧
    (∀ b, b ∉ P.*1 → qnodes s' !! b = qnodes s !! b) ∧
    stdout s' = stdout s.
Proof.
  intros Ht Hfuel.
  destruct (createPrintQueue_spec s t next fuel Ht Hfuel)
    as (q & s' & P & Hrun & [Hp Hfresh Hframe Hqfresh Hqframe Htree] & HP & Hout).
  exists q, s', P. split; [done|]. split; [done|]. split.
  { by rewrite <-(length_fmap snd), HP, length_fmap, level_order_length. }
  split; [done|]. split.
  { apply map_eq. intros b. destruct (decide (b = q)) as [->|Hb].
    - rewrite lookup_insert_eq. by destruct Hp as (_ & ? & _).
    - rewrite lookup_insert_ne by done. by apply Hqframe. }
  split; [|done]. intros b Hb. split; [by apply Hfresh|by eapply queue_rep_live].
Qed.

(** X15: what the builder allocates.  On a walkable directory every node
    of the tree it returns owns three blocks of its own (the node, its
    path, its list of children): no block belongs to two nodes and none was
    allocated before the call.  Every block that was allocated before is
    still there with the same contents, and the builder touches no queue. *)
Theorem build_owns_fresh_blocks fs stale fuel startPath s :
  (256 < fuel)%nat → walkable fs stale fuel startPath = true →
  ∃ root s' t,
    build fs stale fuel startPath s = Done root s' ∧
    addr t = root ∧ tree_in s' t NULL ∧ separate [t] ∧
    (∀ n, n ∈ nodes t →
          tnodes s !! addr n = None ∧ strs s !! path_addr n = None ∧
          llists s !! list_addr n = None) ∧
    (∀ a v, tnodes s !! a = Some v → tnodes s' !! a = Some v) ∧
    (∀ a v, strs s !! a = Some v → strs s' !! a = Some v) ∧
    (∀ a v, llists s !! a = Some v → llists s' !! a = Some v) ∧
    queues s' = queues s ∧ qnodes s' = qnodes s.
Proof.
  intros Hfuel Hwalk.
  pose proof (build_spec fs stale fuel startPath s Hfuel) as H. unfold wpf in H.
  destruct (build fs stale fuel startPath s) as [root s'| | |]; try done;
    [|congruence].
  destruct H as (_ & t & Ha & Hp & Hl & Ht & Hsep & Hb & Gtn & Gstr & Gll &
                 Hq & Hqn & Hout).
  exists root, s', t. repeat (split; [done|]). split.
  { intros n Hn.
    assert (n ∈ forest_nodes [t]) as Hn' by (cbn; by rewrite app_nil_r).
    split; [|split].
    - apply (grows_fresh _ _ _ _ Gtn). by apply list_elem_of_fmap_2.
    - apply (grows_fresh _ _ _ _ Gstr). by apply list_elem_of_fmap_2.
    - apply (grows_fresh _ _ _ _ Gll). by apply list_elem_of_fmap_2. }
  split; [intros a v; exact (grows_old _ _ _ _ a v Gtn)|].
  split; [intros a v; exact (grows_old _ _ _ _ a v Gstr)|].
  split; [intros a v; exact (grows_old _ _ _ _ a v Gll)|]. done.
Qed.

(** ** A directory of plain files *)

Lemma print_lines_level order lvl (f : string → string) names :
  0 ≤ order → order + Z.of_nat (length names) < 2 ^ 31 →
  print_lines order lvl ((λ d, (lvl, f d)) <$> names) =
  imap (λ i d, format_line lvl (order + 1 + Z.of_nat i) (f d)) names.
Proof.
  revert order. induction names as [|d names IH]; intros order H0 Hlen; [done|].
  cbn [fmap list_fmap print_lines imap fst snd length] in *.
  rewrite decide_True by done. rewrite int_wrap_id by lia.
  rewrite Z.add_0_r. f_equal. rewrite IH by lia.
  apply imap_ext. intros i x _. cbn. f_equal. lia.
Qed.

Lemma print_lines_new_level order prev lvl (f : string → string) names :
  lvl ≠ prev → Z.of_nat (length names) < 2 ^ 31 →
  print_lines order prev ((λ d, (lvl, f d)) <$> names) =
  imap (λ i d, format_line lvl (1 + Z.of_nat i) (f d)) names.
Proof.
  intros Hne Hlen. destruct names as [|d names]; [done|].
  rewrite fmap_cons. cbn [print_lines imap fst snd length] in *.
  rewrite decide_False by done.
  assert (int_wrap (0 + 1) = 1) as -> by reflexivity.
  f_equal. rewrite print_lines_level by lia.
  apply imap_ext. intros i x _. cbn. f_equal. lia.
Qed.

Lemma leaves_flat ks : Forall (λ k, kids k = []) ks → ks ≫= kids = [].
Proof.
  induction 1 as [|k ks Hk _ IH]; [done|]. cbn. by rewrite Hk, IH.
Qed.

Lemma leaves_size ks : Forall (λ k, kids k = []) ks → forest_size ks = length ks.
Proof.
  induction 1 as [|k ks Hk _ IH]; [done|]. cbn [forest_size length].
  rewrite size_kids, Hk, IH. done.
Qed.

(** ** An entry that cannot be classified *)

Lemma bind_ext {A B} (m m' : M A) (f f' : A → M B) s :
  m s = m' s → (∀ a s1, f a s1 = f' a s1) → (m ≫= f) s = (m' ≫= f') s.
Proof.
  intros Hm Hf. unfold mbind, M_bind. rewrite Hm. destruct (m' s); [apply Hf|done..].
Qed.

Lemma readdir_loop_classified fs stale stale' (r r' : N → M unit) par entries :
  (∀ n s, r n s = r' n s) →
  ∀ s, readdir_loop fs stale r par entries s =
       readdir_loop (classified fs stale) stale' r' par entries s.
Proof.
  intros Hr. induction entries as [|d entries IH]; intros s; [done|].
  cbn [readdir_loop]. destruct (skip_entry d); [apply IH|].
  repeat (apply bind_ext; [reflexivity|intros ? ?]).
  cbn [stat classified]. unfold st_mode_of. cbn [default].
  apply bind_ext; [|intros ? ?; apply IH].
  destruct (S_ISDIR _); [|reflexivity].
  repeat (apply bind_ext; [reflexivity|intros ? ?]). apply Hr.
Qed.

Lemma treePopulator_classified fs stale stale' fuel : ∀ par s,
  treePopulator fs stale fuel par s =
  treePopulator (classified fs stale) stale' fuel par s.
Proof.
  induction fuel as [|fuel IH]; intros par s; [done|].
  cbn [treePopulator]. repeat (apply bind_ext; [reflexivity|intros ? ?]).
  cbn [opendir classified]. destruct (opendir fs _); [|reflexivity].
  by apply readdir_loop_classified.
Qed.

Lemma build_classified fs stale stale' fuel startPath s :
  build fs stale fuel startPath s =
  build (classified fs stale) stale' fuel startPath s.
Proof.
  unfold build. apply bind_ext; [reflexivity|intros root s1].
  apply bind_ext; [apply treePopulator_classified|done].
Qed.

Lemma separate_fresh_leaf s t next name lvl :
  tree_in s t next → separate [t] → separate [t; new_leaf s name lvl].
Proof.
  intros Ht [H1 H2 H3].
  assert (∀ n, n ∈ forest_nodes [t] →
            addr n ≠ fresh_loc (tnodes s) ∧ path_addr n ≠ fresh_loc (strs s) ∧
            list_addr n ≠ fresh_loc (llists s)) as Hlive.
  { intros n Hn. cbn in Hn. rewrite app_nil_r in Hn.
    destruct (tree_in_nodes _ _ _ _ Ht Hn) as [e Hne].
    pose proof (tree_in_tnode _ _ _ Hne) as E1.
    destruct (tree_in_path _ _ _ Hne) as [_ E2].
    destruct (tree_in_llist _ _ _ Hne) as [_ E3].
    split; [|split]; intros E.
    - by rewrite E, fresh_loc_None in E1.
    - by rewrite E, fresh_loc_None in E2.
    - by rewrite E, fresh_loc_None in E3. }
  assert (forest_nodes [t; new_leaf s name lvl]
          = forest_nodes [t] ++ [new_leaf s name lvl]) as E.
  { cbn. by rewrite !app_nil_r. }
  split; rewrite E, fmap_app; apply NoDup_app; (split; [done|]);
    (split; [|apply NoDup_singleton]);
    intros b (n & -> & Hn)%list_elem_of_fmap E'%list_elem_of_singleton;
    destruct (Hlive n Hn) as (? & ? & ?); cbn in E'; congruence.
Qed.


(** ** The phases of [main], one after the other *)

(** [main] is the copy of the start path, the three phases, and the
    closing of the streams. *)
Lemma main_unfold fs stale fuel argv s :
  main fs stale fuel argv s =
  (startPath ← strcpy 256 (start_path argv);
   list_directory fs stale fuel startPath;;
   close_and_wait) s.
Proof.
  unfold main, start_path, list_directory, build, print_and_release, close_and_wait,
    mbind, M_bind, mret, M_ret.
  repeat case_match; congruence.
Qed.

Lemma list_directory_spec fs stale startPath s :
  walkable fs stale 257 startPath = true →
  ∃ t,
    path_of t = startPath ∧ level_of t = 1 ∧ built fs stale t ∧
    ∀ fuel, (256 < fuel)%nat → (size t < fuel)%nat →
      list_directory fs stale fuel startPath s =
      Done () (State (tnodes s) (llists s) (strs s) (queues s) (qnodes s)
                 (stdout s +:+
                  text_of (print_lines 0 0 (entry_of <$> level_order t)))).
Proof.
  intros Hwalk. set (p := startPath) in *.
  pose proof (build_spec fs stale 257 p s ltac:(lia)) as H. unfold wpf in H.
  destruct (build fs stale 257 p s) as [root s'| |f s'|] eqn:Hrun; try done;
    [|congruence].
  destruct H as (_ & t & Ha & Hp & Hl & Ht & Hsep & Hb & Gtn & Gstr & Gll &
                 Hq & Hqn & Hout).
  exists t. split; [done|]. split; [done|]. split; [done|].
  intros fuel Hf Hsize. unfold list_directory.
  assert (build fs stale fuel p s = Done root s') as Hrun'.
  { replace fuel with (257 + (fuel - 257))%nat by lia.
    rewrite build_fuel; [done|]. by rewrite Hrun. }
  erewrite bind_Done by exact Hrun'.
  rewrite <-Ha. rewrite print_and_release_spec by done.
  f_equal. unfold chop_state.
  cbn [tnodes llists strs queues qnodes stdout].
  rewrite (grows_released _ _ _ _ Gtn), (grows_released _ _ _ _ Gll),
    (grows_released _ _ _ _ Gstr), Hq, Hqn, Hout. done.
Qed.

(** X1: the three phases of [main] (the builder, the linearizer and the
    printer, the release) on a start directory that can be walked.  They
    return normally; what they have appended to the output is the listing
    of the tree of the directory, level by level, one line per node; and
    every block they allocated has been released: the heap at the end is
    the heap at the start.  With fewer than 2^31 nodes the line of a node
    reads [<level>:<position>:<path>], the position being one more than
    the number of earlier nodes of the same level.  [main] is the copy of
    the start path, these phases, and the closing of the streams. *)
Theorem list_directory_lists_and_releases fs stale startPath s :
  walkable fs stale 257 startPath = true →
  ∃ t,
    path_of t = startPath ∧ level_of t = 1 ∧ built fs stale t ∧
    (∀ fuel, (256 < fuel)%nat → (size t < fuel)%nat →
       list_directory fs stale fuel startPath s =
       Done () (State (tnodes s) (llists s) (strs s) (queues s) (qnodes s)
                  (stdout s +:+
                   text_of (print_lines 0 0 (entry_of <$> level_order t))))) ∧
    (Z.of_nat (size t) < 2 ^ 31 →
     length (print_lines 0 0 (entry_of <$> level_order t)) = size t ∧
     ∀ i n, level_order t !! i = Some n →
       ∃ line,
         print_lines 0 0 (entry_of <$> level_order t) !! i = Some line ∧
         entry_line line (level_of n)
           (1 + Z.of_nat (earlier_same (level_of <$> level_order t) i))
           (path_of n)) ∧
    (∀ fuel argv s0,
       main fs stale fuel argv s0 =
       (path ← strcpy 256 (start_path argv);
        list_directory fs stale fuel path;;
        close_and_wait) s0).
Proof.
  intros Hwalk.
  destruct (list_directory_spec fs stale startPath s Hwalk)
    as (t & Hp & Hl & Hb & Hrun).
  exists t. repeat (split; [done|]). split; [|intros; apply main_unfold].
  intros Hsize. rewrite level_order_lines; [|by eapply built_levels_ok|done].
  split; [by rewrite length_imap, length_fmap, level_order_length|].
  intros i n Hn. eexists. split.
  - rewrite list_lookup_imap, list_lookup_fmap, Hn. reflexivity.
  - apply format_line_reads.
Qed.

Lemma root_line path rest :
  format_line 1 1 path +:+ rest = "1:1:" +:+ path +:+ "
" +:+ rest.
Proof.
  unfold format_line. change (pretty 1) with "1".
  rewrite <-!append_assoc. reflexivity.
Qed.

(** X16: a start directory all of whose entries are hidden (an empty
    directory reads as [.] and [..]).  The three phases of [main] return
    having printed exactly one line, [1:1:] and the start path, and having
    released everything they allocated. *)
Theorem list_directory_without_entries fs stale fuel startPath s entries :
  opendir fs startPath = Some entries →
  Forall hidden entries →
  (256 < fuel)%nat →
  list_directory fs stale fuel startPath s =
  Done () (State (tnodes s) (llists s) (strs s) (queues s) (qnodes s)
             (stdout s +:+ "1:1:" +:+ startPath +:+ "
")).
Proof.
  intros Hdir Hhid Hfuel. set (p := startPath) in *.
  assert (walkable fs stale 257 p = true) as Hwalk.
  { cbn [walkable]. rewrite Hdir. clear Hdir.
    induction Hhid as [|d entries Hd _ IH]; [done|]. cbn [forallb]. rewrite IH.
    unfold entry_walkable. by rewrite bool_decide_eq_true_2. }
  destruct (list_directory_spec fs stale p s Hwalk) as (t & Hp & Hl & Hb & Hrun).
  destruct t as [a fn p' l cl ks]. cbn in Hp, Hl. subst p' l.
  apply built_Node in Hb as (entries' & Hdir' & Hks & _).
  rewrite Hdir in Hdir'. injection Hdir' as <-.
  assert (filter (λ n, ¬ hidden n) entries = []) as Hnone.
  { clear -Hhid. induction Hhid as [|d entries Hd _ IH]; [done|].
    rewrite filter_cons_False by tauto. done. }
  rewrite Hnone in Hks. apply fmap_nil_inv in Hks as ->.
  rewrite (Hrun fuel Hfuel) by (rewrite size_Node; cbn [forest_size]; lia).
  do 2 f_equal. cbn [level_order size seq fmap list_fmap concat at_depth app
                     print_lines entry_of level_of path_of fst snd text_of foldr].
  rewrite decide_False by done.
  assert (int_wrap (0 + 1) = 1) as -> by reflexivity.
  rewrite root_line. by rewrite !append_nil_r.
Qed.

(** X17: a start directory of plain files.  When no entry of the start
    directory reads as a directory and the path of each one that is not
    hidden fits the buffer, the three phases of [main] return having
    printed the line [1:1:] and the start path, and then one line per entry
    that is not hidden, in the order the directory lists them, the [i]th
    reading [2:<i>:] and the path of the entry; everything they allocated
    is released. *)
Theorem list_directory_of_files fs stale fuel startPath s entries :
  opendir fs startPath = Some entries →
  Forall (λ d, hidden d ∨
               ((String.length (child_path startPath d) < 256)%nat ∧
                S_ISDIR (st_mode_of fs stale (child_path startPath d)) = false))
         entries →
  (256 < fuel)%nat → (S (length entries) < fuel)%nat →
  Z.of_nat (length entries) < 2 ^ 31 - 1 →
  ∃ lines,
    list_directory fs stale fuel startPath s =
    Done () (State (tnodes s) (llists s) (strs s) (queues s) (qnodes s)
               (stdout s +:+ "1:1:" +:+ startPath +:+ "
" +:+ text_of lines)) ∧
    length lines = length (filter (λ d, ¬ hidden d) entries) ∧
    ∀ i d, filter (λ d, ¬ hidden d) entries !! i = Some d →
      ∃ line, lines !! i = Some line ∧
              entry_line line 2 (1 + Z.of_nat i) (child_path startPath d).
Proof.
  intros Hdir Hflat Hfuel Hsize Hmax. set (p := startPath) in *.
  set (names := filter (λ d, ¬ hidden d) entries).
  assert (length names ≤ length entries)%nat as Hnames by apply length_filter.
  assert (walkable fs stale 257 p = true) as Hwalk.
  { cbn [walkable]. rewrite Hdir. clear -Hflat.
    induction Hflat as [|d entries Hd _ IH]; [done|]. cbn [forallb]. rewrite IH.
    unfold entry_walkable. destruct Hd as [Hd|[Hd1 Hd2]].
    - by rewrite bool_decide_eq_true_2.
    - rewrite (bool_decide_eq_true_2 _ Hd1), Hd2. by rewrite orb_true_r. }
  destruct (list_directory_spec fs stale p s Hwalk) as (t & Hp & Hl & Hb & Hrun).
  destruct t as [a fn p' l cl ks]. cbn in Hp, Hl. subst p' l.
  apply built_Node in Hb as (entries' & Hdir' & Hks & Hok).
  rewrite Hdir in Hdir'. injection Hdir' as <-. fold names in Hks.
  assert (Forall (λ d, S_ISDIR (st_mode_of fs stale (child_path p d)) = false) names)
    as Hfiles.
  { apply Forall_forall. intros d [Hd Hin]%list_elem_of_filter.
    rewrite Forall_forall in Hflat. destruct (Hflat d Hin) as [?|[_ ?]]; done. }
  assert (Forall (λ k, kids k = []) ks ∧
          entry_of <$> ks = (λ d, (2, child_path p d)) <$> names) as [Hleaf Hent].
  { clear -Hks Hok Hfiles. clearbody names. revert names Hks Hfiles.
    induction Hok as [|k ks [Hlk Hk] _ IH]; intros [|d names] Hks Hfiles; try done.
    rewrite !fmap_cons in Hks. injection Hks as Hk1 Hks.
    apply Forall_cons in Hfiles as [Hd Hfiles].
    destruct (IH names Hks Hfiles) as [IH1 IH2].
    rewrite Hk1, Hd in Hk. split; [by constructor|].
    rewrite !fmap_cons, IH2. f_equal. unfold entry_of. by rewrite Hlk, Hk1. }
  assert (length ks = length names) as Hlenks.
  { by rewrite <-(length_fmap path_of), Hks, length_fmap. }
  assert (print_lines 0 0 (entry_of <$> level_order (Node a fn p 1 cl ks)) =
          format_line 1 1 p ::
          imap (λ i d, format_line 2 (1 + Z.of_nat i) (child_path p d)) names) as Hlines.
  { rewrite <-bfs_level_order, bfs_cons, app_nil_l. cbn [kids].
    rewrite bfs_level, leaves_flat, bfs_nil, app_nil_r by done.
    rewrite fmap_cons, Hent. cbn [print_lines entry_of level_of path_of fst snd].
    rewrite decide_False by done.
    assert (int_wrap (0 + 1) = 1) as -> by reflexivity.
    apply (f_equal (cons (format_line 1 1 p))).
    apply (print_lines_new_level 1 1 2 (child_path p)); [done|lia]. }
  exists (imap (λ i d, format_line 2 (1 + Z.of_nat i) (child_path p d)) names).
  split; [|split].
  - rewrite (Hrun fuel Hfuel).
    2:{ rewrite size_Node, leaves_size by done. lia. }
    by rewrite Hlines, text_of_cons, root_line.
  - by rewrite length_imap.
  - intros i d Hi. eexists. split.
    + rewrite list_lookup_imap, Hi. reflexivity.
    + apply format_line_reads.
Qed.

End Enough.

(** ** The constructors, with and without memory *)

(** X5: [createTreeNode].  When there is no memory for the node it prints
    its message and calls [exit(-1)], with nothing allocated.  When no
    allocation fails it returns a node that is not [NULL] and whose three
    blocks (the node, the copy of the name, the list of children) were not
    allocated before; whatever the new blocks held, the node is a leaf with
    the given name and level, no sibling and an empty list of children.
    Every tree that was in the heap is still there, unchanged, and nothing
    is printed. *)
Theorem createTreeNode_fresh_leaf name lvl s :
  (out_of_memory s = true →
   createTreeNode name lvl s =
   Exit (-1) (State (tnodes s) (llists s) (strs s) (queues s) (qnodes s)
                (stdout s +:+
                 "Sorry, but memory was found to be unallocatable for the node."))) ∧
  ((∀ s', out_of_memory s' = false) →
   ∃ a fn cl s',
     createTreeNode name lvl s = Done a s' ∧
     tree_in s' (Node a fn name lvl cl []) NULL ∧
     tnodes s !! a = None ∧ strs s !! fn = None ∧ llists s !! cl = None ∧
     (∀ t next, tree_in s t next → tree_in s' t next) ∧
     queues s' = queues s ∧ qnodes s' = qnodes s ∧ stdout s' = stdout s).
Proof.
  split.
  - intros Hmem. unfold createTreeNode. unfold mbind at 1, M_bind.
    rewrite malloc_NULL by done. rewrite decide_True by done. reflexivity.
  - intros Hmem.
    exists (fresh_loc (tnodes s)), (fresh_loc (strs s)), (fresh_loc (llists s)),
      (new_node_state s name lvl).
    split; [by apply createTreeNode_spec|]. split.
    { apply tree_in_Node. repeat (split; [apply fresh_loc_NULL|]).
      cbn. by rewrite !lookup_insert_eq. }
    repeat (split; [apply fresh_loc_None|]).
    split; [|done]. intros t next. apply tree_in_fresh.
Qed.

(** X7: [createQueue].  When there is no memory it prints its message and
    calls [exit(-1)], with nothing allocated.  When the allocation succeeds
    it returns a queue that is not [NULL] and was not allocated before;
    whatever the new block held, the queue is empty.  Every queue that was
    in the heap still holds the same cells, and nothing else changes. *)
Theorem createQueue_fresh_empty s :
  (out_of_memory s = true →
   createQueue s =
   Exit (-1) (State (tnodes s) (llists s) (strs s) (queues s) (qnodes s)
                (stdout s +:+
                 "Sorry, but memory was found to be unallocatable for the queue to be created."))) ∧
  (out_of_memory s = false →
   ∃ q s',
     createQueue s = Done q s' ∧
     queue_rep s' q [] ∧
     queues s !! q = None ∧
     (∀ q0 l, queue_rep s q0 l → q0 ≠ q ∧ queue_rep s' q0 l) ∧
     qnodes s' = qnodes s ∧ same_tree s s' ∧ stdout s' = stdout s).
Proof.
  split.
  - intros Hmem. unfold createQueue. unfold mbind at 1, M_bind.
    rewrite malloc_NULL by done. rewrite decide_True by done. reflexivity.
  - intros Hmem.
    exists (fresh_loc (queues s)),
      (upd Q (<[fresh_loc (queues s) := Queue.mk NULL NULL]> (queues s)) s).
    split.
    { apply wp_eq. unfold createQueue. do 2 wp_step.
      destruct (decide (fresh_loc (queues s) = NULL)) as [E|_].
      { by destruct (fresh_loc_NULL (queues s)). }
      repeat wp_step. by rewrite !insert_insert_eq. }
    split.
    { split; [apply fresh_loc_NULL|]. cbn. rewrite lookup_insert_eq.
      split; [done|]. split; [apply NoDup_nil_2|done]. }
    split; [apply fresh_loc_None|]. split; [|done].
    intros q0 l Hrep.
    assert (q0 ≠ fresh_loc (queues s)) as Hne.
    { destruct Hrep as (_ & Hq & _). intros ->. by rewrite fresh_loc_None in Hq. }
    split; [done|]. eapply queue_rep_frame; [| |exact Hrep].
    + cbn. by rewrite lookup_insert_ne.
    + done.
Qed.

End Proofs.

(** * Examples

    The runs below are with the allocator [ideal]. *)

#[local] Existing Instance ideal.

Lemma ideal_enough : ∀ s, out_of_memory s = false.
Proof. done. Qed.

Lemma queue_first_in_first_out_witness :
  queue_rep fifo_state 1%N [(1%N, 7%N)] ∧
  ∃ s', (enQueue_all 1%N [8%N; 9%N];; deQueue_n 1%N 3) fifo_state
        = Done [7%N; 8%N; 9%N] s' ∧ queue_rep s' 1%N [].
Proof.
  assert (queue_rep fifo_state 1%N [(1%N, 7%N)]) as Hrep.
  { split; [done|]. split; [done|]. split; [|done].
    apply NoDup_singleton. }
  split; [exact Hrep|].
  exact (queue_first_in_first_out ideal_enough fifo_state 1%N [(1%N, 7%N)] [8%N; 9%N] Hrep).
Defined.

Lemma demo_build :
  build demo_fs demo_stale 300 "/tmp/root" empty_state = Done 1%N demo_state.
Proof. vm_compute. reflexivity. Qed.


Lemma build_levels_witness :
  (256 < 300)%nat ∧ walkable demo_fs demo_stale 300 "/tmp/root" = true ∧
  ∃ t, build demo_fs demo_stale 300 "/tmp/root" empty_state = Done (addr t) demo_state ∧
       level_of t = 1 ∧ levels_ok t.
Proof.
  assert (256 < 300)%nat as H1 by lia.
  assert (walkable demo_fs demo_stale 300 "/tmp/root" = true) as H2
    by (vm_compute; reflexivity).
  split; [exact H1|]. split; [exact H2|].
  destruct (build_levels ideal_enough demo_fs demo_stale 300 "/tmp/root" empty_state H1 H2)
    as (root & s' & t & Hrun & Ha & _ & _ & Hl & Hok & _).
  exists t. split; [|split; [exact Hl|exact Hok]].
  rewrite Ha. pose proof Hrun as E. rewrite demo_build in E.
  injection E as _ E. rewrite E. exact Hrun.
Defined.

(** C5, on the code: a directory entry that [stat] reports as a directory
    and [opendir] cannot open.  The builder prints its message and then
    hands the NULL stream to [readdir]: the run ends in undefined behaviour
    with nothing but the message printed, and none of the three lines the
    claim expects. *)
Theorem unreadable_directory_is_undefined :
  ∃ s, main locked_fs demo_stale 300 ["dirtree"; "/tmp/root"] empty_state
       = Fault BadStream s ∧
       stdout s = "Something's gone awry!".
Proof. eexists. split; [vm_compute; reflexivity|reflexivity]. Qed.


Lemma unstat_build :
  build unstat_fs demo_stale 300 "/r" empty_state = Done 1%N unstat_state.
Proof. vm_compute. reflexivity. Qed.

(** C7, on the code: an entry whose path, 260 characters, does not fit
    the 256 bytes of [childPath], and a start path that does not fit
    [startPath].  No length is checked: [strcat] and [strcpy] write past
    the end of the array, which is undefined behaviour; the run neither
    exits with a message nor goes on with a shortened path. *)
Theorem long_path_overruns_buffer :
  (∃ s, main long_fs demo_stale 300 ["dirtree"; "/tmp/root"] empty_state
        = Fault BufferOverrun s ∧ stdout s = "") ∧
  main demo_fs demo_stale 300 ["dirtree"; letters 256] empty_state
  = Fault BufferOverrun empty_state.
Proof.
  split; [eexists; split; [vm_compute; reflexivity|reflexivity]|].
  vm_compute. reflexivity.
Qed.

Lemma createPrintQueue_level_order_witness :
  tree_in demo_state demo_tree NULL ∧ (size demo_tree < 5)%nat ∧
  ∃ q s' P,
    createPrintQueue 5 1%N demo_state = Done q s' ∧
    queue_rep s' q P ∧ P.*2 = [1; 2; 3; 4]%N.
Proof.
  pose proof demo_tree_in as H1.
  assert (size demo_tree < 5)%nat as H2 by (vm_compute; lia).
  split; [exact H1|]. split; [exact H2|].
  destruct (createPrintQueue_level_order ideal_enough demo_state demo_tree NULL 5 H1 H2)
    as (q & s' & P & Hrun & Hrep & HP & _).
  exists q, s', P. split; [exact Hrun|]. split; [exact Hrep|].
  rewrite HP. vm_compute. reflexivity.
Defined.

Lemma printPrintQueue_lines_witness :
  queue_rep demo_queue_state 1%N demo_cells ∧ demo_cells ≠ [] ∧
  Forall2 (node_at demo_queue_state) demo_cells.*2 demo_entries ∧
  (length demo_cells ≤ 4)%nat ∧ Z.of_nat (length demo_cells) < 2 ^ 31 ∧
  ∃ s', printPrintQueue 4 1%N demo_queue_state = Done () s' ∧
        stdout s' = "1:1:/tmp/root
2:1:/tmp/root/a.txt
2:2:/tmp/root/sub
3:1:/tmp/root/sub/b.txt
".
Proof.
  pose proof demo_queue_rep as H1. pose proof demo_entries_at as H3.
  assert (demo_cells ≠ []) as H2 by done.
  assert (length demo_cells ≤ 4)%nat as H4 by (vm_compute; lia).
  assert (Z.of_nat (length demo_cells) < 2 ^ 31) as H5 by (vm_compute; reflexivity).
  split; [exact H1|]. split; [exact H2|]. split; [exact H3|].
  split; [exact H4|]. split; [exact H5|].
  destruct (printPrintQueue_lines demo_queue_state 1%N demo_cells demo_entries 4
              H1 H2 H3 H4 H5) as (s' & Hrun & Hout & _).
  exists s'. split; [exact Hrun|]. rewrite Hout. vm_compute. reflexivity.
Defined.

Lemma chopTree_releases_all_witness :
  tree_in demo_state demo_tree NULL ∧ separate [demo_tree] ∧
  (size demo_tree < 5)%nat ∧
  chopTree 5 1%N demo_state = Done () empty_state.
Proof.
  pose proof demo_tree_in as H1. pose proof demo_separate as H2.
  assert (size demo_tree < 5)%nat as H3 by (vm_compute; lia).
  split; [exact H1|]. split; [exact H2|]. split; [exact H3|].
  destruct (chopTree_releases_all ideal_enough demo_state demo_tree 5 H1 H2 H3) as (Hrun & _).
  etrans; [exact Hrun|]. f_equal.
Defined.

Lemma appendChild_appends_last_witness :
  tree_in graft_state (Node 1 1 "/r" 1 1 [Node 2 2 "/r/a" 2 2 []]) NULL ∧
  tree_in graft_state (Node 3 3 "/r/b" 2 3 []) NULL ∧
  separate [Node 1 1 "/r" 1 1 [Node 2 2 "/r/a" 2 2 []]; Node 3 3 "/r/b" 2 3 []] ∧
  ∃ s', appendChild 1%N 3%N graft_state = Done () s' ∧
        tree_in s' (Node 1 1 "/r" 1 1 [Node 2 2 "/r/a" 2 2 []; Node 3 3 "/r/b" 2 3 []])
                NULL.
Proof.
  assert (tree_in graft_state (Node 1 1 "/r" 1 1 [Node 2 2 "/r/a" 2 2 []]) NULL) as H1
    by (repeat split; vm_compute; congruence).
  assert (tree_in graft_state (Node 3 3 "/r/b" 2 3 []) NULL) as H2
    by (repeat split; vm_compute; congruence).
  assert (separate [Node 1 1 "/r" 1 1 [Node 2 2 "/r/a" 2 2 []]; Node 3 3 "/r/b" 2 3 []])
    as H3 by (split; apply (bool_decide_unpack _); vm_compute; exact I).
  split; [exact H1|]. split; [exact H2|]. split; [exact H3|].
  destruct (appendChild_appends_last _ _ _ _ _ _ _ _ _ H1 H2 H3) as (s' & Hrun & Ht & _).
  exists s'. split; [exact Hrun|exact Ht].
Defined.

Lemma queues_do_not_interfere_witness :
  queue_rep two_queues 1%N [(1%N, 7%N)] ∧
  queue_rep two_queues 2%N [(2%N, 8%N); (3%N, 9%N)] ∧
  1%N ≠ 2%N ∧
  (∀ b, b ∈ [(1%N, 7%N)].*1 → b ∉ [(2%N, 8%N); (3%N, 9%N)].*1) ∧
  ∃ s', deQueue 1%N two_queues = Done 1%N s' ∧
        queue_rep s' 1%N [] ∧ queue_rep s' 2%N [(2%N, 8%N); (3%N, 9%N)].
Proof.
  assert (queue_rep two_queues 1%N [(1%N, 7%N)]) as H1.
  { split; [done|]. split; [done|]. split; [apply NoDup_singleton|done]. }
  assert (queue_rep two_queues 2%N [(2%N, 8%N); (3%N, 9%N)]) as H2.
  { split; [done|]. split; [done|]. split; [|done].
    apply (bool_decide_unpack _). vm_compute. exact I. }
  assert (1%N ≠ 2%N) as H3 by done.
  assert (∀ b, b ∈ [(1%N, 7%N)].*1 → b ∉ [(2%N, 8%N); (3%N, 9%N)].*1) as H4.
  { intros b ->%list_elem_of_singleton Hb. cbn in Hb.
    apply elem_of_cons in Hb as [Hb|Hb]; [discriminate Hb|].
    apply elem_of_cons in Hb as [Hb|Hb]; [discriminate Hb|].
    by apply elem_of_nil in Hb. }
  split; [exact H1|]. split; [exact H2|]. split; [exact H3|]. split; [exact H4|].
  destruct (queues_do_not_interfere ideal_enough two_queues 1%N [(1%N, 7%N)] 2%N
              [(2%N, 8%N); (3%N, 9%N)] 0%N H1 H2 H3 H4) as [_ Hdeq].
  destruct (Hdeq (1%N, 7%N) [] eq_refl) as (s' & Hrun & Hr1 & Hr2 & _).
  exists s'. split; [exact Hrun|]. split; [exact Hr1|exact Hr2].
Defined.

Lemma enQueue_deQueue_round_trip_witness :
  queue_rep idle_state 1%N [] ∧
  (enQueue 1%N 5%N;;
   cell ← deQueue 1%N;
   node ← get QN QNode.dataSource cell;
   free QN cell;;
   mret node) idle_state = Done 5%N idle_state.
Proof.
  assert (queue_rep idle_state 1%N []) as Hrep.
  { split; [done|]. split; [done|]. split; [|done]. apply NoDup_nil_2. }
  split; [exact Hrep|].
  exact (enQueue_deQueue_round_trip ideal_enough idle_state 1%N 5%N Hrep).
Defined.

Lemma chopTree_releases_later_siblings_witness :
  tree_in demo_state demo_tree NULL ∧ separate [demo_tree] ∧
  (forest_size (kids demo_tree) < 5)%nat ∧
  ∃ s', chopTree 5 2%N demo_state = Done () s' ∧
        tnodes s' !! 3%N = None ∧
        llists s' !! 1%N = Some (LList.mk 2 3).
Proof.
  pose proof demo_tree_in as H1. pose proof demo_separate as H2.
  assert (forest_size (kids demo_tree) < 5)%nat as H3 by (vm_compute; lia).
  split; [exact H1|]. split; [exact H2|]. split; [exact H3|].
  destruct (chopTree_releases_later_siblings demo_state 1 1 "/tmp/root" 1 1 []
              (Node 2 2 "/tmp/root/a.txt" 2 2 [])
              [Node 3 3 "/tmp/root/sub" 2 3 [Node 4 4 "/tmp/root/sub/b.txt" 3 4 []]]
              NULL 5 H1 H2 H3) as (Hrun & Hgone & _ & Hlist).
  eexists. split; [exact Hrun|]. split; [|exact Hlist].
  apply (Hgone (Node 3 3 "/tmp/root/sub" 2 3 [Node 4 4 "/tmp/root/sub/b.txt" 3 4 []])).
  cbn [forest_nodes]. rewrite !nodes_kids. right. left.
Defined.

Lemma chopTree_twice_is_undefined_witness :
  tree_in demo_state demo_tree NULL ∧ separate [demo_tree] ∧
  (size demo_tree < 5)%nat ∧
  (chopTree 5 1%N;; chopTree 5 1%N) demo_state = Fault BadPointer empty_state.
Proof.
  pose proof demo_tree_in as H1. pose proof demo_separate as H2.
  assert (size demo_tree < 5)%nat as H3 by (vm_compute; lia).
  split; [exact H1|]. split; [exact H2|]. split; [exact H3|].
  etrans; [exact (chopTree_twice_is_undefined demo_state demo_tree 5 H1 H2 H3)|].
  f_equal.
Defined.

Lemma printPrintQueue_empty_queue_witness :
  queue_rep idle_state 1%N [] ∧
  ∃ s', printPrintQueue 1 1%N idle_state = Fault BadPointer s' ∧ stdout s' = "".
Proof.
  assert (queue_rep idle_state 1%N []) as Hrep.
  { split; [done|]. split; [done|]. split; [|done]. apply NoDup_nil_2. }
  split; [exact Hrep|]. eexists. split.
  - exact (printPrintQueue_empty_queue ideal_enough idle_state 1%N 0 Hrep).
  - reflexivity.
Defined.

Lemma createPrintQueue_footprint_witness :
  tree_in demo_state demo_tree NULL ∧ (size demo_tree < 5)%nat ∧
  ∃ q s' P,
    createPrintQueue 5 1%N demo_state = Done q s' ∧
    length P = 4%nat ∧
    queues s' = <[q := Queue.mk (last_addr P) (hd_addr P)]> ∅.
Proof.
  pose proof demo_tree_in as H1.
  assert (size demo_tree < 5)%nat as H2 by (vm_compute; lia).
  split; [exact H1|]. split; [exact H2|].
  destruct (createPrintQueue_footprint ideal_enough demo_state demo_tree NULL 5 H1 H2)
    as (q & s' & P & Hrun & _ & Hlen & _ & Hq & _).
  exists q, s', P. split; [exact Hrun|]. split; [exact Hlen|exact Hq].
Defined.

Lemma build_owns_fresh_blocks_witness :
  (256 < 300)%nat ∧ walkable demo_fs demo_stale 300 "/tmp/root" = true ∧
  ∃ root s' t,
    build demo_fs demo_stale 300 "/tmp/root" demo_state = Done root s' ∧
    addr t = root ∧ tnodes demo_state !! root = None ∧
    tnodes s' !! 1%N = Some (TreeNode.mk 1 1 0 1).
Proof.
  assert (256 < 300)%nat as H1 by lia.
  assert (walkable demo_fs demo_stale 300 "/tmp/root" = true) as H2
    by (vm_compute; reflexivity).
  split; [exact H1|]. split; [exact H2|].
  destruct (build_owns_fresh_blocks ideal_enough demo_fs demo_stale 300 "/tmp/root" demo_state H1 H2)
    as (root & s' & t & Hrun & Ha & _ & _ & Hfresh & Hold & _).
  exists root, s', t. split; [exact Hrun|]. split; [exact Ha|]. split.
  - rewrite <-Ha. apply (Hfresh t). rewrite nodes_kids. left.
  - apply Hold. reflexivity.
Defined.



Lemma createTreeNode_fresh_leaf_witness :
  createTreeNode (alloc := no_memory) "/r" 1 empty_state =
    Exit (-1) (State ∅ ∅ ∅ ∅ ∅
                 "Sorry, but memory was found to be unallocatable for the node.") ∧
  ∃ a fn cl s',
    createTreeNode "/r" 1 empty_state = Done a s' ∧
    tree_in s' (Node a fn "/r" 1 cl []) NULL.
Proof.
  split.
  - exact (proj1 (createTreeNode_fresh_leaf (alloc := no_memory) "/r" 1 empty_state)
             eq_refl).
  - destruct (proj2 (createTreeNode_fresh_leaf "/r" 1 empty_state) ideal_enough)
      as (a & fn & cl & s' & H1 & H2 & _).
    exists a, fn, cl, s'. split; [exact H1|exact H2].
Defined.

Lemma createQueue_fresh_empty_witness :
  createQueue (alloc := no_memory) empty_state =
    Exit (-1) (State ∅ ∅ ∅ ∅ ∅
                 "Sorry, but memory was found to be unallocatable for the queue to be created.") ∧
  ∃ q s', createQueue empty_state = Done q s' ∧ queue_rep s' q [].
Proof.
  split.
  - exact (proj1 (createQueue_fresh_empty (alloc := no_memory) empty_state) eq_refl).
  - destruct (proj2 (createQueue_fresh_empty empty_state) (ideal_enough empty_state))
      as (q & s' & H1 & H2 & _).
    exists q, s'. split; [exact H1|exact H2].
Defined.

Lemma createPrintQueue_null_root_witness :
  (∀ s, out_of_memory s = false) ∧
  createPrintQueue 1 NULL empty_state =
  Done 1%N (State ∅ ∅ ∅ {[1%N := Queue.mk NULL NULL]} ∅ "").
Proof.
  split; [exact ideal_enough|].
  etrans; [exact (proj1 (createPrintQueue_null_root ideal_enough empty_state 0))|].
  vm_compute. reflexivity.
Defined.


(** The three phases on the example of the specification: the listing,
    character for character. *)
Lemma list_directory_demo :
  list_directory demo_fs demo_stale 300 "/tmp/root" empty_state =
  Done () (State ∅ ∅ ∅ ∅ ∅ "1:1:/tmp/root
2:1:/tmp/root/a.txt
2:2:/tmp/root/sub
3:1:/tmp/root/sub/b.txt
").
Proof. vm_compute. reflexivity. Qed.

Lemma list_directory_lists_and_releases_witness :
  walkable demo_fs demo_stale 257 "/tmp/root" = true ∧
  ∃ t, path_of t = "/tmp/root" ∧ level_of t = 1 ∧
       ∀ fuel, (256 < fuel)%nat → (size t < fuel)%nat →
         list_directory demo_fs demo_stale fuel "/tmp/root" empty_state =
         Done () (State ∅ ∅ ∅ ∅ ∅
                    (text_of (print_lines 0 0 (entry_of <$> level_order t)))).
Proof.
  assert (walkable demo_fs demo_stale 257 "/tmp/root" = true)
    as H by (vm_compute; reflexivity).
  split; [exact H|].
  destruct (list_directory_lists_and_releases ideal_enough demo_fs demo_stale
              "/tmp/root" empty_state H) as (t & Hp & Hl & _ & Hrun & _).
  exists t. split; [exact Hp|]. split; [exact Hl|]. exact Hrun.
Defined.

Lemma list_directory_without_entries_witness :
  opendir bare_fs "/tmp/empty" = Some ["."; ".."; ".git"] ∧
  Forall hidden ["."; ".."; ".git"] ∧ (256 < 300)%nat ∧
  list_directory bare_fs demo_stale 300 "/tmp/empty" empty_state =
  Done () (State ∅ ∅ ∅ ∅ ∅ "1:1:/tmp/empty
").
Proof.
  assert (opendir bare_fs "/tmp/empty" = Some ["."; ".."; ".git"]) as H2
    by reflexivity.
  assert (Forall hidden ["."; ".."; ".git"]) as H3
    by (repeat constructor; eexists; reflexivity).
  assert (256 < 300)%nat as H4 by lia.
  split; [exact H2|]. split; [exact H3|]. split; [exact H4|].
  exact (list_directory_without_entries ideal_enough bare_fs demo_stale 300
           "/tmp/empty" empty_state _ H2 H3 H4).
Defined.

Lemma list_directory_of_files_witness :
  opendir flat_fs "/tmp/flat" = Some ["."; ".."; "b"; ".x"; "a"] ∧
  (256 < 300)%nat ∧
  ∃ lines,
    list_directory flat_fs demo_stale 300 "/tmp/flat" empty_state =
    Done () (State ∅ ∅ ∅ ∅ ∅ ("1:1:/tmp/flat
" +:+ text_of lines)) ∧
    length lines = 2%nat ∧
    (∃ line, lines !! 0%nat = Some line ∧ entry_line line 2 1 "/tmp/flat/b") ∧
    (∃ line, lines !! 1%nat = Some line ∧ entry_line line 2 2 "/tmp/flat/a").
Proof.
  assert (opendir flat_fs "/tmp/flat" = Some ["."; ".."; "b"; ".x"; "a"]) as H2
    by reflexivity.
  assert (Forall (λ d, hidden d ∨
            ((String.length (child_path "/tmp/flat" d) < 256)%nat ∧
             S_ISDIR (st_mode_of flat_fs demo_stale (child_path "/tmp/flat" d)) = false))
            ["."; ".."; "b"; ".x"; "a"]) as H3.
  { repeat constructor;
      first [ left; eexists; reflexivity
            | right; split; [vm_compute; lia|reflexivity] ]. }
  assert (256 < 300)%nat as H4 by lia.
  assert (S (length ["."; ".."; "b"; ".x"; "a"]) < 300)%nat as H5 by (cbn; lia).
  assert (Z.of_nat (length ["."; ".."; "b"; ".x"; "a"]) < 2 ^ 31 - 1) as H6
    by (vm_compute; reflexivity).
  split; [exact H2|]. split; [exact H4|].
  destruct (list_directory_of_files ideal_enough flat_fs demo_stale 300 "/tmp/flat"
              empty_state _ H2 H3 H4 H5 H6) as (lines & Hrun & Hlen & Hline).
  exists lines. split; [exact Hrun|]. split; [exact Hlen|].
  split; [exact (Hline 0%nat "b" eq_refl)|exact (Hline 1%nat "a" eq_refl)].
Defined.

(** The listing of a directory of plain files, character for character. *)
Lemma list_directory_flat :
  list_directory flat_fs demo_stale 300 "/tmp/flat" empty_state =
  Done () (State ∅ ∅ ∅ ∅ ∅ "1:1:/tmp/flat
2:1:/tmp/flat/b
2:2:/tmp/flat/a
").
Proof. vm_compute. reflexivity. Qed.
